(** * Memory-allocation and SRTF scheduling simulator (simulador.py)

    A shallow embedding of the simulation core of [simulador.py]: the
    [Process] and [Partition] objects, the best-fit [MemoryManager], the
    SRTF [Scheduler] and the per-tick [Simulator] engine.

    Python objects are shared and mutated in place, so the embedding keeps
    an explicit object store: a process (partition) reference is a store
    address, the queues hold references, and [in] / [list.remove] compare
    references, as Python does for classes without [__eq__].  Python
    integers are unbounded, hence [Z]. *)

From Stdlib Require Import ZArith Lia Sorted.
From stdpp Require Import base decidable option list numbers strings gmap.

Local Open Scope Z_scope.

(** ** Object references *)

Definition ProcRef := nat.
Definition PartRef := nat.

(** ** class ProcessState(Enum) *)

Inductive ProcessState : Set :=
| NEW | READY | EXECUTING | SUSPENDED | TERMINATED.

#[global] Instance ProcessState_eq_dec : EqDecision ProcessState.
Proof. solve_decision. Defined.

(** ** class Process *)

Module Process.

Record t : Set := mk {
  id : Z;
  size : Z;
  arrival_time : Z;
  burst_time : Z;
  state : ProcessState;
  remaining_time : Z;
  partition : option PartRef;
  wait_time : Z;
  finish_time : Z;
  turnaround_time : Z;
  first_execution_time : option Z
}.

(** [Process.__init__] *)
Definition init (id size arrival_time burst_time : Z) : t :=
  mk id size arrival_time burst_time NEW burst_time None 0 0 0 None.

Definition set_state (v : ProcessState) (p : t) : t :=
  mk (id p) (size p) (arrival_time p) (burst_time p) v (remaining_time p)
     (partition p) (wait_time p) (finish_time p) (turnaround_time p)
     (first_execution_time p).

Definition set_remaining_time (v : Z) (p : t) : t :=
  mk (id p) (size p) (arrival_time p) (burst_time p) (state p) v
     (partition p) (wait_time p) (finish_time p) (turnaround_time p)
     (first_execution_time p).

Definition set_partition (v : option PartRef) (p : t) : t :=
  mk (id p) (size p) (arrival_time p) (burst_time p) (state p)
     (remaining_time p) v (wait_time p) (finish_time p) (turnaround_time p)
     (first_execution_time p).

Definition set_wait_time (v : Z) (p : t) : t :=
  mk (id p) (size p) (arrival_time p) (burst_time p) (state p)
     (remaining_time p) (partition p) v (finish_time p) (turnaround_time p)
     (first_execution_time p).

Definition set_finish_time (v : Z) (p : t) : t :=
  mk (id p) (size p) (arrival_time p) (burst_time p) (state p)
     (remaining_time p) (partition p) (wait_time p) v (turnaround_time p)
     (first_execution_time p).

Definition set_turnaround_time (v : Z) (p : t) : t :=
  mk (id p) (size p) (arrival_time p) (burst_time p) (state p)
     (remaining_time p) (partition p) (wait_time p) (finish_time p) v
     (first_execution_time p).

Definition set_first_execution_time (v : option Z) (p : t) : t :=
  mk (id p) (size p) (arrival_time p) (burst_time p) (state p)
     (remaining_time p) (partition p) (wait_time p) (finish_time p)
     (turnaround_time p) v.

(** [Process.calculate_statistics]: only the object itself is touched. *)
Definition calculate_statistics (p : t) : t :=
  let p1 := set_turnaround_time (finish_time p - arrival_time p) p in
  match first_execution_time p1 with
  | Some fet => set_wait_time (fet - arrival_time p1) p1
  | None => set_wait_time (turnaround_time p1 - burst_time p1) p1
  end.

End Process.

(** ** class Partition (the fields; the methods need the store) *)

Module Partition.

Record t : Set := mk {
  id : Z;
  size : Z;
  start_address : Z;
  process : option ProcRef;
  internal_fragmentation : Z
}.

(** [Partition.__init__] *)
Definition init (id size start_address : Z) : t :=
  mk id size start_address None 0.

Definition set_process (v : option ProcRef) (k : t) : t :=
  mk (id k) (size k) (start_address k) v (internal_fragmentation k).

Definition set_internal_fragmentation (v : Z) (k : t) : t :=
  mk (id k) (size k) (start_address k) (process k) v.

End Partition.

(** ** The object store *)

Record Heap : Type := mkHeap {
  procs : ProcRef -> Process.t;
  parts : PartRef -> Partition.t
}.

(** In-place mutation of one object. *)
Definition upd {A : Type} (f : nat -> A) (r : nat) (g : A -> A) : nat -> A :=
  fun r' => if Nat.eqb r' r then g (f r') else f r'.

Definition upd_proc (p : ProcRef) (g : Process.t -> Process.t) (h : Heap) : Heap :=
  mkHeap (upd (procs h) p g) (parts h).

Definition upd_part (k : PartRef) (g : Partition.t -> Partition.t) (h : Heap) : Heap :=
  mkHeap (procs h) (upd (parts h) k g).

(** ** Methods of Partition *)

(** [Partition.is_free] *)
Definition is_free (h : Heap) (k : PartRef) : bool :=
  match Partition.process (parts h k) with
  | None => true
  | Some _ => false
  end.

(** [Partition.assign_process] *)
Definition assign_process (k : PartRef) (p : ProcRef) (h : Heap) : Heap * bool :=
  if negb (is_free h k) then (h, false)
  else if Partition.size (parts h k) <? Process.size (procs h p) then (h, false)
  else
    let h1 := upd_part k (Partition.set_process (Some p)) h in
    let h2 := upd_part k (Partition.set_internal_fragmentation
                (Partition.size (parts h1 k) - Process.size (procs h1 p))) h1 in
    let h3 := upd_proc p (Process.set_partition (Some k)) h2 in
    (h3, true).

(** [Partition.free] *)
Definition free (k : PartRef) (h : Heap) : Heap * option ProcRef :=
  match Partition.process (parts h k) with
  | None => (h, None)
  | Some freed_process =>
      let h1 := upd_proc freed_process (Process.set_partition None) h in
      let h2 := upd_part k (Partition.set_process None) h1 in
      let h3 := upd_part k (Partition.set_internal_fragmentation 0) h2 in
      (h3, Some freed_process)
  end.

(** ** class MemoryManager *)

Module MemoryManager.

(** [fragmentation < min_fragmentation], where [None] is [float('inf')]. *)
Definition lt_inf (frag : Z) (min_fragmentation : option Z) : bool :=
  match min_fragmentation with
  | None => true
  | Some m => frag <? m
  end.

(** One iteration of the loop of [find_best_fit]; the accumulator is
    [(best_partition, min_fragmentation)]. *)
Definition best_fit_step (h : Heap) (p : ProcRef)
    (acc : option PartRef * option Z) (k : PartRef) : option PartRef * option Z :=
  if is_free h k && (Process.size (procs h p) <=? Partition.size (parts h k)) then
    let fragmentation := Partition.size (parts h k) - Process.size (procs h p) in
    if lt_inf fragmentation (snd acc) then (Some k, Some fragmentation) else acc
  else acc.

(** [MemoryManager.find_best_fit] *)
Definition find_best_fit (partitions : list PartRef) (h : Heap) (p : ProcRef)
    : option PartRef :=
  fst (fold_left (best_fit_step h p) partitions (None, None)).

(** The body of [allocate_process] once [partition] is bound. *)
Definition allocate_at (partition : option PartRef) (p : ProcRef) (h : Heap)
    : Heap * bool :=
  match partition with
  | None => (h, false)
  | Some k =>
      let h1 :=
        if negb (is_free h k) then
          match free k h with
          | (h', Some old_process) =>
              upd_proc old_process (Process.set_partition None)
                (upd_proc old_process (Process.set_state SUSPENDED) h')
          | (h', None) => h'
          end
        else h in
      let h2 := fst (assign_process k p h1) in
      (upd_proc p (Process.set_state READY) h2, true)
  end.

(** [MemoryManager.allocate_process] *)
Definition allocate_process (partitions : list PartRef) (p : ProcRef) (h : Heap)
    : Heap * bool :=
  allocate_at (find_best_fit partitions h p) p h.

(** [MemoryManager.free_process] *)
Definition free_process (p : ProcRef) (h : Heap) : Heap :=
  match Process.partition (procs h p) with
  | Some k => upd_proc p (Process.set_partition None) (fst (free k h))
  | None => h
  end.

End MemoryManager.

(** ** class Scheduler *)

Module Scheduler.

(** The scheduler object: its only field. *)
Record t : Set := mk { current_process : option ProcRef }.

(** Python's [min(iterable, key=...)] on a non-empty iterable: the first
    element with the least key. *)
Fixpoint min_from {A : Type} (key : A -> Z) (best : A) (l : list A) : A :=
  match l with
  | [] => best
  | x :: l' => if key x <? key best then min_from key x l' else min_from key best l'
  end.

Definition remaining (h : Heap) (p : ProcRef) : Z :=
  Process.remaining_time (procs h p).

(** [Scheduler.select_next_process] *)
Definition select_next_process (h : Heap) (ready_queue : list ProcRef)
    : option ProcRef :=
  match ready_queue with
  | [] => None
  | x :: l => Some (min_from (remaining h) x l)
  end.

(** [Scheduler.should_preempt] *)
Definition should_preempt (sc : t) (h : Heap) (ready_queue : list ProcRef) : bool :=
  match current_process sc with
  | None => false
  | Some c =>
      match ready_queue with
      | [] => false
      | x :: l =>
          let best_ready := min_from (remaining h) x l in
          if remaining h best_ready <? remaining h c then true else false
      end
  end.

(** [Scheduler.start_execution] *)
Definition start_execution (p : ProcRef) (sc : t) (h : Heap) : t * Heap :=
  (mk (Some p), upd_proc p (Process.set_state EXECUTING) h).

(** [Scheduler.execute_tick] *)
Definition execute_tick (sc : t) (h : Heap) : t * Heap * option ProcRef :=
  match current_process sc with
  | None => (sc, h, None)
  | Some c =>
      let h1 := upd_proc c (fun o => Process.set_remaining_time
                              (Process.remaining_time o - 1) o) h in
      if Process.remaining_time (procs h1 c) <=? 0 then
        (mk None, upd_proc c (Process.set_state TERMINATED) h1, Some c)
      else (sc, h1, None)
  end.

(** [Scheduler.preempt_current] *)
Definition preempt_current (sc : t) (h : Heap) : t * Heap * option ProcRef :=
  match current_process sc with
  | None => (sc, h, None)
  | Some c => (mk None, upd_proc c (Process.set_state READY) h, Some c)
  end.

End Scheduler.

(** ** Python list helpers *)

(** [x in l], by reference. *)
Definition py_in (x : nat) (l : list nat) : bool := bool_decide (x ∈ l).

(** [l.remove(x)]: drops the first occurrence.  Python raises [ValueError]
    when [x] is absent; every call below is under an [in] test or removes an
    element taken from the same list, and the model returns [l] there. *)
Fixpoint py_remove (x : nat) (l : list nat) : list nat :=
  match l with
  | [] => []
  | y :: l' => if Nat.eqb y x then l' else y :: py_remove x l'
  end.

(** [sorted(l, key=...)]: a stable sort, by insertion after equal keys. *)
Fixpoint insert_by {A : Type} (key : A -> Z) (x : A) (l : list A) : list A :=
  match l with
  | [] => [x]
  | y :: l' => if key x <? key y then x :: l else y :: insert_by key x l'
  end.

Definition py_sorted {A : Type} (key : A -> Z) (l : list A) : list A :=
  fold_left (fun acc x => insert_by key x acc) l [].

(** ** class Simulator *)

Module Simulator.

(** The engine's fields.  [heap] holds the Process and Partition objects
    the lists refer to; [partitions] is the one list object shared by the
    simulator and its [memory_manager]; [display] carries no state. *)
Record t : Type := mk {
  heap : Heap;
  partitions : list PartRef;
  degree_of_multiprogramming : Z;
  clock : Z;
  scheduler : Scheduler.t;
  all_processes : list ProcRef;
  loaded_processes : list ProcRef;
  new_queue : list ProcRef;
  ready_queue : list ProcRef;
  suspended_queue : list ProcRef;
  terminated_queue : list ProcRef;
  new_process_arrived : bool;
  process_finished : bool
}.

Definition set_heap (v : Heap) (s : t) : t :=
  mk v (partitions s) (degree_of_multiprogramming s) (clock s) (scheduler s)
     (all_processes s) (loaded_processes s) (new_queue s) (ready_queue s)
     (suspended_queue s) (terminated_queue s) (new_process_arrived s)
     (process_finished s).

Definition set_clock (v : Z) (s : t) : t :=
  mk (heap s) (partitions s) (degree_of_multiprogramming s) v (scheduler s)
     (all_processes s) (loaded_processes s) (new_queue s) (ready_queue s)
     (suspended_queue s) (terminated_queue s) (new_process_arrived s)
     (process_finished s).

Definition set_scheduler (v : Scheduler.t) (s : t) : t :=
  mk (heap s) (partitions s) (degree_of_multiprogramming s) (clock s) v
     (all_processes s) (loaded_processes s) (new_queue s) (ready_queue s)
     (suspended_queue s) (terminated_queue s) (new_process_arrived s)
     (process_finished s).

Definition set_all_processes (v : list ProcRef) (s : t) : t :=
  mk (heap s) (partitions s) (degree_of_multiprogramming s) (clock s)
     (scheduler s) v (loaded_processes s) (new_queue s) (ready_queue s)
     (suspended_queue s) (terminated_queue s) (new_process_arrived s)
     (process_finished s).

Definition set_ready_queue (v : list ProcRef) (s : t) : t :=
  mk (heap s) (partitions s) (degree_of_multiprogramming s) (clock s)
     (scheduler s) (all_processes s) (loaded_processes s) (new_queue s) v
     (suspended_queue s) (terminated_queue s) (new_process_arrived s)
     (process_finished s).

Definition set_suspended_queue (v : list ProcRef) (s : t) : t :=
  mk (heap s) (partitions s) (degree_of_multiprogramming s) (clock s)
     (scheduler s) (all_processes s) (loaded_processes s) (new_queue s)
     (ready_queue s) v (terminated_queue s) (new_process_arrived s)
     (process_finished s).

Definition set_terminated_queue (v : list ProcRef) (s : t) : t :=
  mk (heap s) (partitions s) (degree_of_multiprogramming s) (clock s)
     (scheduler s) (all_processes s) (loaded_processes s) (new_queue s)
     (ready_queue s) (suspended_queue s) v (new_process_arrived s)
     (process_finished s).

Definition set_new_process_arrived (v : bool) (s : t) : t :=
  mk (heap s) (partitions s) (degree_of_multiprogramming s) (clock s)
     (scheduler s) (all_processes s) (loaded_processes s) (new_queue s)
     (ready_queue s) (suspended_queue s) (terminated_queue s) v
     (process_finished s).

Definition set_process_finished (v : bool) (s : t) : t :=
  mk (heap s) (partitions s) (degree_of_multiprogramming s) (clock s)
     (scheduler s) (all_processes s) (loaded_processes s) (new_queue s)
     (ready_queue s) (suspended_queue s) (terminated_queue s)
     (new_process_arrived s) v.

(** [Simulator.__init__] followed by [Simulator.load_processes]: the store
    [h] holds the freshly built objects, [partitions] and [processes] are
    the two lists handed over by [main]. *)
Definition load_processes (h : Heap) (partitions : list PartRef)
    (degree_of_multiprogramming : Z) (processes : list ProcRef) : t :=
  mk h partitions degree_of_multiprogramming 0 (Scheduler.mk None)
     processes processes [] [] [] [] false false.

(** [len(self.ready_queue) + (1 if self.scheduler.current_process else 0)] *)
Definition current_dom (s : t) : Z :=
  Z.of_nat (length (ready_queue s))
  + (match Scheduler.current_process (scheduler s) with
     | Some _ => 1
     | None => 0
     end).

(** [Simulator._try_load_to_memory] *)
Definition _try_load_to_memory (p : ProcRef) (s : t) : t :=
  if degree_of_multiprogramming s <=? current_dom s then
    let s1 := set_heap (upd_proc p (Process.set_state SUSPENDED) (heap s)) s in
    if negb (py_in p (suspended_queue s1))
    then set_suspended_queue (suspended_queue s1 ++ [p]) s1
    else s1
  else
    match MemoryManager.allocate_process (partitions s) p (heap s) with
    | (h1, true) =>
        let s1 := set_heap h1 s in
        let s2 := if negb (py_in p (ready_queue s1))
                  then set_ready_queue (ready_queue s1 ++ [p]) s1 else s1 in
        if py_in p (suspended_queue s2)
        then set_suspended_queue (py_remove p (suspended_queue s2)) s2
        else s2
    | (h1, false) =>
        let s1 := set_heap (upd_proc p (Process.set_state SUSPENDED) h1) s in
        if negb (py_in p (suspended_queue s1))
        then set_suspended_queue (suspended_queue s1 ++ [p]) s1
        else s1
    end.

(** One iteration of the first loop of [_arrive_new_processes]; the
    accumulator is [(heap, arrived, remaining, new_process_arrived)]. *)
Definition arrive_step (clk : Z)
    (acc : Heap * list ProcRef * list ProcRef * bool) (p : ProcRef)
    : Heap * list ProcRef * list ProcRef * bool :=
  let '(h, arrived, remaining, flag) := acc in
  if Process.arrival_time (procs h p) =? clk then
    (upd_proc p (Process.set_state NEW) h, arrived ++ [p], remaining, true)
  else if clk <? Process.arrival_time (procs h p) then
    (h, arrived, remaining ++ [p], flag)
  else acc.

(** [Simulator._arrive_new_processes] *)
Definition _arrive_new_processes (s : t) : t :=
  let '(h, arrived, remaining, flag) :=
    fold_left (arrive_step (clock s)) (all_processes s)
              (heap s, [], [], new_process_arrived s) in
  let s1 := set_all_processes remaining
              (set_new_process_arrived flag (set_heap h s)) in
  fold_left (fun st p => _try_load_to_memory p st) arrived s1.

(** The [for process in self.suspended_queue] loop of [_try_load_suspended],
    with its [break]; the state is
    [(heap, ready_queue, to_remove, current_dom)]. *)
Fixpoint load_suspended_loop (partitions : list PartRef) (degree : Z)
    (queue : list ProcRef) (st : Heap * list ProcRef * list ProcRef * Z)
    : Heap * list ProcRef * list ProcRef * Z :=
  match queue with
  | [] => st
  | p :: queue' =>
      let '(h, ready, to_remove, dom) := st in
      if degree <=? dom then st
      else
        match MemoryManager.allocate_process partitions p h with
        | (h1, true) =>
            let ready1 := if negb (py_in p ready) then ready ++ [p] else ready in
            load_suspended_loop partitions degree queue'
              (h1, ready1, to_remove ++ [p], dom + 1)
        | (h1, false) =>
            load_suspended_loop partitions degree queue' (h1, ready, to_remove, dom)
        end
  end.

(** [Simulator._try_load_suspended] *)
Definition _try_load_suspended (s : t) : t :=
  if degree_of_multiprogramming s <=? current_dom s then s
  else
    let '(h, ready, to_remove, _) :=
      load_suspended_loop (partitions s) (degree_of_multiprogramming s)
        (suspended_queue s) (heap s, ready_queue s, [], current_dom s) in
    set_suspended_queue (fold_left (fun q p => py_remove p q) to_remove
                                   (suspended_queue s))
      (set_ready_queue ready (set_heap h s)).

(** The loop body of [_update_wait_times]. *)
Definition wait_step (executing_id : option Z) (h : Heap) (p : ProcRef) : Heap :=
  let o := procs h p in
  if (bool_decide (Process.state o = READY) || bool_decide (Process.state o = SUSPENDED))
     && negb (bool_decide (Some (Process.id o) = executing_id))
     && bool_decide (Process.first_execution_time o = None)
  then upd_proc p (fun o => Process.set_wait_time (Process.wait_time o + 1) o) h
  else h.

(** [Simulator._update_wait_times] *)
Definition _update_wait_times (s : t) : t :=
  let executing_id :=
    match Scheduler.current_process (scheduler s) with
    | Some c => Some (Process.id (procs (heap s) c))
    | None => None
    end in
  set_heap (fold_left (wait_step executing_id)
                      (ready_queue s ++ suspended_queue s) (heap s)) s.

(** [Simulator._schedule_process] *)
Definition _schedule_process (s : t) : t :=
  let s1 :=
    if Scheduler.should_preempt (scheduler s) (heap s) (ready_queue s) then
      match Scheduler.preempt_current (scheduler s) (heap s) with
      | (sc, h, Some preempted) =>
          let s' := set_scheduler sc (set_heap h s) in
          if negb (py_in preempted (ready_queue s'))
          then set_ready_queue (ready_queue s' ++ [preempted]) s'
          else s'
      | (sc, h, None) => set_scheduler sc (set_heap h s)
      end
    else s in
  match Scheduler.current_process (scheduler s1) with
  | Some _ => s1
  | None =>
      match Scheduler.select_next_process (heap s1) (ready_queue s1) with
      | None => s1
      | Some next_process =>
          let h1 :=
            match Process.first_execution_time (procs (heap s1) next_process) with
            | None => upd_proc next_process
                        (Process.set_first_execution_time (Some (clock s1))) (heap s1)
            | Some _ => heap s1
            end in
          let '(sc, h2) := Scheduler.start_execution next_process (scheduler s1) h1 in
          let s2 := set_scheduler sc (set_heap h2 s1) in
          if py_in next_process (ready_queue s2)
          then set_ready_queue (py_remove next_process (ready_queue s2)) s2
          else s2
      end
  end.

(** [Simulator._execute_tick] *)
Definition _execute_tick (s : t) : t :=
  match Scheduler.execute_tick (scheduler s) (heap s) with
  | (sc, h, Some finished) =>
      let s1 := set_scheduler sc (set_heap h s) in
      if (Process.remaining_time (procs h finished) <=? 0)
         && bool_decide (Process.state (procs h finished) = TERMINATED)
      then
        let h1 := upd_proc finished (Process.set_finish_time (clock s1 + 1)) h in
        let h2 := upd_proc finished Process.calculate_statistics h1 in
        let h3 := MemoryManager.free_process finished h2 in
        let s2 := set_heap h3 s1 in
        let s3 := if negb (py_in finished (terminated_queue s2))
                  then set_terminated_queue (terminated_queue s2 ++ [finished]) s2
                  else s2 in
        set_process_finished true (set_scheduler (Scheduler.mk None) s3)
      else s1
  | (sc, h, None) => set_scheduler sc (set_heap h s)
  end.

(** One pass through the body of the [while] loop of [run]; the display
    calls in the middle only read the state. *)
Definition tick (s : t) : t :=
  let s0 := set_process_finished false (set_new_process_arrived false s) in
  let s1 := _arrive_new_processes s0 in
  let s2 := _try_load_suspended s1 in
  let s3 := _schedule_process s2 in
  let s4 := _update_wait_times s3 in
  let s5 := _execute_tick s4 in
  set_clock (clock s5 + 1) s5.

Definition max_ticks : Z := 1000.

(** The [while] loop of [run].  The result carries whether the warning of
    the safety limit was printed; [None] only when [fuel] runs out. *)
Fixpoint run_loop (fuel : nat) (total_processes : nat) (s : t) : option (t * bool) :=
  if negb (length (terminated_queue s) <? total_processes)%nat then Some (s, false)
  else if max_ticks <=? clock s then Some (s, true)
  else
    match fuel with
    | O => None
    | S fuel' => run_loop fuel' total_processes (tick s)
    end.

(** A line of the final report: id, arrival, burst, finish, turnaround,
    wait. *)
Definition row : Set := (Z * Z * Z * Z * Z * Z)%type.

(** The loop of [Display.show_statistics] over the terminated processes:
    it recomputes the statistics of each and prints its line (the tabulate
    branch prints one more line, with N/A, for every other process). *)
Definition statistics_step (acc : Heap * list row) (p : ProcRef) : Heap * list row :=
  let '(h, table) := acc in
  if bool_decide (Process.state (procs h p) = TERMINATED) then
    let h1 := upd_proc p Process.calculate_statistics h in
    let o := procs h1 p in
    (h1, table ++ [(Process.id o, Process.arrival_time o, Process.burst_time o,
                    Process.finish_time o, Process.turnaround_time o,
                    Process.wait_time o)])
  else acc.

Definition show_statistics (h : Heap) (processes : list ProcRef) : Heap * list row :=
  fold_left statistics_step
    (py_sorted (fun p => Process.id (procs h p)) processes) (h, []).

(** What a run leaves behind: the final state, whether the limit warning
    was printed, and the lines of the statistical report. *)
Record outcome : Type := mkOutcome {
  final : t;
  warning : bool;
  report : list row
}.

(** [Simulator.run] *)
Definition run (fuel : nat) (s : t) : option outcome :=
  let total_processes := length (all_processes s) in
  match run_loop fuel total_processes s with
  | None => None
  | Some (s', w) =>
      let '(h, table) := show_statistics (heap s') (loaded_processes s') in
      Some (mkOutcome (set_heap h s') w table)
  end.

End Simulator.

(** ** Start-up, as [main] does it *)

(** The objects at addresses no list refers to. *)
Definition default_process : Process.t := Process.init 0 0 0 1.
Definition default_partition : Partition.t := Partition.init 0 0 0.

(** A store holding the given objects at addresses [0], [1], ... *)
Definition store_of (ps : list Process.t) (ks : list Partition.t) : Heap :=
  mkHeap (fun r => nth r ps default_process) (fun r => nth r ks default_partition).

(** The rows of the process file, [(id, size, arrival_time, burst_time)],
    and of the partition configuration, [(id, size, start)]. *)
Definition process_row : Set := (Z * Z * Z * Z)%type.
Definition partition_row : Set := (Z * Z * Z)%type.

Definition new_process (r : process_row) : Process.t :=
  let '(id, size, arrival_time, burst_time) := r in
  Process.init id size arrival_time burst_time.

Definition new_partition (r : partition_row) : Partition.t :=
  let '(id, size, start) := r in Partition.init id size start.

(** [main]: one fresh Process per row of the file (in the order
    [FileReader.read_processes] returns them, sorted by arrival time), one
    fresh Partition per configured partition, then [Simulator(...)] and
    [load_processes]. *)
Definition startup (rows : list process_row) (config : list partition_row)
    (degree_of_multiprogramming : Z) : Simulator.t :=
  Simulator.load_processes
    (store_of (map new_process rows) (map new_partition config))
    (seq 0 (length config)) degree_of_multiprogramming (seq 0 (length rows)).

(** The states the engine is in at tick boundaries. *)
Inductive reachable (s0 : Simulator.t) : Simulator.t -> Prop :=
| reachable_start : reachable s0 s0
| reachable_tick s : reachable s0 s -> reachable s0 (Simulator.tick s).

(** The operations a tick is made of, in any order. *)
Inductive operation : Simulator.t -> Simulator.t -> Prop :=
| op_reset s :
    operation s (Simulator.set_process_finished false
                   (Simulator.set_new_process_arrived false s))
| op_arrive s : operation s (Simulator._arrive_new_processes s)
| op_load_suspended s : operation s (Simulator._try_load_suspended s)
| op_schedule s : operation s (Simulator._schedule_process s)
| op_wait s : operation s (Simulator._update_wait_times s)
| op_execute s : operation s (Simulator._execute_tick s)
| op_clock s : operation s (Simulator.set_clock (Simulator.clock s + 1) s).

(** The states the engine goes through, inside the ticks too. *)
Inductive running (s0 : Simulator.t) : Simulator.t -> Prop :=
| running_start : running s0 s0
| running_step s s' : running s0 s -> operation s s' -> running s0 s'.

(** The burst time of every row of the process file is positive. *)
Definition positive_bursts (rows : list process_row) : Prop :=
  Forall (fun r : process_row => 0 < r.2) rows.

(** ** Scenarios used below *)

(** One process of 50K and two partitions of 100K. *)
Definition two_slots : Heap :=
  store_of [Process.init 1 50 0 5]
           [Partition.init 1 100 100; Partition.init 2 100 200].

(** Two processes of 50K arriving together, two partitions of 100K, and a
    degree of multiprogramming of 1. *)
Definition degree_one : Simulator.t :=
  startup [(1, 50, 0, 10); (2, 50, 0, 3)] [(1, 100, 100); (2, 100, 200)] 1.

(** A long process at time 0 and a short one at time 1, both resident. *)
Definition short_arrival : Simulator.t :=
  startup [(1, 50, 0, 10); (2, 50, 1, 3)] [(1, 100, 100); (2, 100, 200)] 5.

(** One process and one partition (the first scenario of the TP). *)
Definition single : Simulator.t :=
  startup [(1, 50, 0, 5)] [(1, 100, 100)] 5.

(** A process larger than every partition, next to one that fits. *)
Definition oversized : Simulator.t :=
  startup [(1, 500, 0, 5); (2, 50, 0, 2)] [(1, 100, 100)] 5.

(** * Vocabulary of the specification *)

Section Vocabulary.

Import Simulator.

(** A partition the request of [p] may use: free and large enough. *)
Definition eligible (h : Heap) (p : ProcRef) (k : PartRef) : Prop :=
  is_free h k = true /\ Process.size (procs h p) <= Partition.size (parts h k).

(** The space the request would leave unused in a partition. *)
Definition leftover (h : Heap) (p : ProcRef) (k : PartRef) : Z :=
  Partition.size (parts h k) - Process.size (procs h p).

(** The answer [best] is the first partition of [l] with the least
    leftover among the eligible ones. *)
Definition first_best (h : Heap) (p : ProcRef) (l : list PartRef)
    (best : option PartRef) : Prop :=
  match best with
  | None => forall k, k ∈ l -> ~ eligible h p k
  | Some k =>
      exists l1 l2, l = l1 ++ k :: l2 /\ eligible h p k
        /\ (forall j, j ∈ l1 -> eligible h p j -> leftover h p k < leftover h p j)
        /\ (forall j, j ∈ l2 -> eligible h p j -> leftover h p k <= leftover h p j)
  end.

(** What the loop of [find_best_fit] knows after the prefix [l]. *)
Definition best_fit_inv (h : Heap) (p : ProcRef) (l : list PartRef)
    (acc : option PartRef * option Z) : Prop :=
  first_best h p l (fst acc)
  /\ snd acc = match fst acc with Some k => Some (leftover h p k) | None => None end.

(** The store after a successful [allocate_process] of [p] into the free
    partition [k]. *)
Definition placed (k : PartRef) (p : ProcRef) (h : Heap) : Heap :=
  upd_proc p (Process.set_state READY)
    (upd_proc p (Process.set_partition (Some k))
       (upd_part k (Partition.set_internal_fragmentation
                      (Partition.size (parts h k) - Process.size (procs h p)))
          (upd_part k (Partition.set_process (Some p)) h))).

(** [o'] is [o] up to its [state] and [partition] fields, the only ones
    an admission writes. *)
Definition only_placement (o o' : Process.t) : Prop :=
  o' = Process.set_state (Process.state o') (Process.set_partition (Process.partition o') o).

(** Unchanged by the arrivals and by the re-admission of suspended
    processes: the clock, the scheduler, the terminated queue and every
    field of every process but [state] and [partition]; the ready queue
    only grows and occupied partitions stay occupied. *)
Definition admission_frame (s s' : t) : Prop :=
  scheduler s' = scheduler s
  /\ clock s' = clock s
  /\ partitions s' = partitions s
  /\ degree_of_multiprogramming s' = degree_of_multiprogramming s
  /\ terminated_queue s' = terminated_queue s
  /\ (forall q, q ∈ ready_queue s -> q ∈ ready_queue s')
  /\ (forall q, only_placement (procs (heap s) q) (procs (heap s') q))
  /\ (forall k q, Partition.process (parts (heap s) k) = Some q ->
                  Partition.process (parts (heap s') k) = Some q).

(** The first [if] of [_schedule_process]. *)
Definition preempt_phase (s : t) : t :=
  if Scheduler.should_preempt (scheduler s) (heap s) (ready_queue s) then
    match Scheduler.preempt_current (scheduler s) (heap s) with
    | (sc, h, Some preempted) =>
        let s' := set_scheduler sc (set_heap h s) in
        if negb (py_in preempted (ready_queue s'))
        then set_ready_queue (ready_queue s' ++ [preempted]) s'
        else s'
    | (sc, h, None) => set_scheduler sc (set_heap h s)
    end
  else s.

(** The second [if] of [_schedule_process]. *)
Definition dispatch_phase (s1 : t) : t :=
  match Scheduler.current_process (scheduler s1) with
  | Some _ => s1
  | None =>
      match Scheduler.select_next_process (heap s1) (ready_queue s1) with
      | None => s1
      | Some next_process =>
          let h1 :=
            match Process.first_execution_time (procs (heap s1) next_process) with
            | None => upd_proc next_process
                        (Process.set_first_execution_time (Some (clock s1))) (heap s1)
            | Some _ => heap s1
            end in
          let '(sc, h2) := Scheduler.start_execution next_process (scheduler s1) h1 in
          let s2 := set_scheduler sc (set_heap h2 s1) in
          if py_in next_process (ready_queue s2)
          then set_ready_queue (py_remove next_process (ready_queue s2)) s2
          else s2
      end
  end.

(** The store after stamping (if needed) and starting [n]. *)
Definition started (clk : Z) (n : ProcRef) (h : Heap) : Heap :=
  upd_proc n (Process.set_state EXECUTING)
    (match Process.first_execution_time (procs h n) with
     | None => upd_proc n (Process.set_first_execution_time (Some clk)) h
     | Some _ => h
     end).

(** How many times [p] occurs in a queue, and whether it is the one
    executing. *)
Definition occ (p : ProcRef) (l : list ProcRef) : nat := count_occ Nat.eq_dec l p.

Definition cur_occ (cur : option ProcRef) (p : ProcRef) : nat :=
  match cur with
  | Some c => if decide (c = p) then 1 else 0
  | None => 0
  end.

(** In how many places of the engine the process [p] is held: the
    processes being admitted ([pending]), the four queues and the
    processor. *)
Definition places (pending : list ProcRef) (cur : option ProcRef)
    (all ready susp term : list ProcRef) (p : ProcRef) : nat :=
  (occ p pending + occ p all + occ p ready + occ p susp + occ p term
   + cur_occ cur p)%nat.

(** The process/partition links agree in both directions. *)
Definition linked (h : Heap) : Prop :=
  forall p k, Process.partition (procs h p) = Some k
              <-> Partition.process (parts h k) = Some p.

(** Remaining time and state agree. *)
Definition alive_or_done (o : Process.t) : Prop :=
  0 <= Process.remaining_time o
  /\ (Process.remaining_time o = 0 <-> Process.state o = TERMINATED).

(** What holds of the store and the queues between any two operations of
    the engine: a process is held in at most one place, its state and its
    partition reference are those of the place it is in, the links agree,
    and (under [positive]) remaining times and states agree. *)
Record consistent (positive : Prop) (pending : list ProcRef) (h : Heap)
    (cur : option ProcRef) (all ready susp term : list ProcRef) : Prop :=
  mkConsistent {
  c_places : forall p, (places pending cur all ready susp term p <= 1)%nat;
  c_new : forall p, p ∈ pending ++ all ->
    Process.state (procs h p) = NEW /\ Process.partition (procs h p) = None;
  c_ready : forall p, p ∈ ready ->
    Process.state (procs h p) = READY /\ Process.partition (procs h p) <> None;
  c_suspended : forall p, p ∈ susp ->
    Process.state (procs h p) = SUSPENDED /\ Process.partition (procs h p) = None;
  c_current : forall c, cur = Some c ->
    Process.state (procs h c) = EXECUTING
    /\ Process.partition (procs h c) <> None
    /\ Process.first_execution_time (procs h c) <> None;
  c_terminated : forall p, p ∈ term ->
    Process.state (procs h p) = TERMINATED /\ Process.partition (procs h p) = None;
  c_link : linked h;
  c_life : positive -> forall p, alive_or_done (procs h p)
}.

(** The invariant of the engine, while the processes of [pending] are
    being admitted.  Its last clause, on remaining times, is only claimed
    under [positive], which stands for the burst times of the input being
    positive. *)
Definition Inv (positive : Prop) (pending : list ProcRef) (s : Simulator.t) : Prop :=
  consistent positive pending (Simulator.heap s)
    (Scheduler.current_process (Simulator.scheduler s))
    (Simulator.all_processes s) (Simulator.ready_queue s)
    (Simulator.suspended_queue s) (Simulator.terminated_queue s).

(** The store after one unit of execution of [c] that does not finish it. *)
Definition ran (c : ProcRef) (h : Heap) : Heap :=
  upd_proc c (fun o => Process.set_remaining_time (Process.remaining_time o - 1) o) h.

(** The store after the unit of execution that finishes [c], at time [clk]. *)
Definition finished (clk : Z) (c : ProcRef) (h : Heap) : Heap :=
  MemoryManager.free_process c
    (upd_proc c Process.calculate_statistics
       (upd_proc c (Process.set_finish_time (clk + 1))
          (upd_proc c (Process.set_state TERMINATED) (ran c h)))).

(** The record of a process that has just finished. *)
Definition finished_process (clk : Z) (o : Process.t) : Process.t :=
  Process.set_partition None
    (Process.calculate_statistics
       (Process.set_finish_time (clk + 1)
          (Process.set_state TERMINATED
             (Process.set_remaining_time (Process.remaining_time o - 1) o)))).

(** Two stores that agree on what the invariant reads. *)
Definition same_core (h h' : Heap) : Prop :=
  (forall q, Process.state (procs h' q) = Process.state (procs h q)
             /\ Process.partition (procs h' q) = Process.partition (procs h q)
             /\ Process.remaining_time (procs h' q) = Process.remaining_time (procs h q)
             /\ Process.first_execution_time (procs h' q)
                = Process.first_execution_time (procs h q))
  /\ (forall k, Partition.process (parts h' k) = Partition.process (parts h k)).

(** The first loop of [_arrive_new_processes], in closed form. *)
Definition mark_new (l : list ProcRef) (h : Heap) : Heap :=
  fold_left (fun h p => upd_proc p (Process.set_state NEW) h) l h.

(** The suspended queue once the processes of [to_remove] have left it. *)
Definition without (to_remove susp : list ProcRef) : list ProcRef :=
  fold_left (fun q p => py_remove p q) to_remove susp.

(** [o'] is [o] up to its [wait_time]. *)
Definition only_wait (o o' : Process.t) : Prop :=
  o' = Process.set_wait_time (Process.wait_time o') o.

(** The state in which the execution step of a tick starts. *)
Definition before_execute (s : t) : t :=
  _update_wait_times
    (_schedule_process
       (_try_load_suspended
          (_arrive_new_processes
             (set_process_finished false (set_new_process_arrived false s))))).

(** A first execution time that is set stays as it is. *)
Definition fet_kept (h h' : Heap) : Prop :=
  forall q f, Process.first_execution_time (procs h q) = Some f ->
              Process.first_execution_time (procs h' q) = Some f.

(** A partition occupied in [h] and free in [h'] has seen its occupant
    terminate. *)
Definition released_on_termination (h h' : Heap) : Prop :=
  forall k p, Partition.process (parts h k) = Some p ->
              Partition.process (parts h' k) = None ->
              Process.state (procs h' p) = TERMINATED.

(** Occupied partitions keep their occupant. *)
Definition occupants_kept (h h' : Heap) : Prop :=
  forall k p, Partition.process (parts h k) = Some p ->
              Partition.process (parts h' k) = Some p.

(** The state in which the scheduling step of a tick starts: after the
    arrivals and the re-admission of suspended processes. *)
Definition before_schedule (s : t) : t :=
  _try_load_suspended
    (_arrive_new_processes
       (set_process_finished false (set_new_process_arrived false s))).

(** The number of processes resident in memory: the ready ones and the
    one executing. *)
Definition resident (ready : list ProcRef) (cur : option ProcRef) : Z :=
  Z.of_nat (length ready) + match cur with Some _ => 1 | None => 0 end.

(** The admission rule applied to the suspended processes of [queue], in
    order, as the amended claim C2 words it; a state is
    [(store, ready queue, suspended queue)] and [cur] is the process
    executing.  When the resident count at the turn of a process is at
    least the degree [d] the loop stops, and that process and the ones
    after it stay where they are; otherwise the allocator is called: on
    success the process leaves the suspended queue for the end of the
    ready queue, on failure it stays suspended, and the next one is
    considered. *)
Inductive readmission (ps : list PartRef) (d : Z) (cur : option ProcRef) :
    list ProcRef -> Heap * list ProcRef * list ProcRef ->
    Heap * list ProcRef * list ProcRef -> Prop :=
| readmission_end st : readmission ps d cur [] st st
| readmission_full p queue h ready suspended :
    d <= resident ready cur ->
    readmission ps d cur (p :: queue) (h, ready, suspended) (h, ready, suspended)
| readmission_placed p queue h ready suspended h1 out :
    resident ready cur < d ->
    MemoryManager.allocate_process ps p h = (h1, true) ->
    readmission ps d cur queue (h1, ready ++ [p], py_remove p suspended) out ->
    readmission ps d cur (p :: queue) (h, ready, suspended) out
| readmission_no_fit p queue h ready suspended h1 out :
    resident ready cur < d ->
    MemoryManager.allocate_process ps p h = (h1, false) ->
    readmission ps d cur queue (h1, ready, suspended) out ->
    readmission ps d cur (p :: queue) (h, ready, suspended) out.

(** The line of the report for a process record. *)
Definition row_of (o : Process.t) : row :=
  (Process.id o, Process.arrival_time o, Process.burst_time o,
   Process.finish_time o, Process.turnaround_time o, Process.wait_time o).

(** The line the report shows for a Terminated process, from its times:
    the turnaround is the finish time minus the arrival time and the
    wait is the first execution time minus the arrival time (the
    turnaround minus the burst for a process that never executed). *)
Definition report_line (o : Process.t) : row :=
  (Process.id o, Process.arrival_time o, Process.burst_time o,
   Process.finish_time o,
   Process.finish_time o - Process.arrival_time o,
   match Process.first_execution_time o with
   | Some fet => fet - Process.arrival_time o
   | None => Process.finish_time o - Process.arrival_time o - Process.burst_time o
   end).

(** The store while the report is printed: the processes [seen] so far
    that are Terminated have had their statistics recomputed. *)
Definition recomputed (h : Heap) (seen : list ProcRef) (h' : Heap) : Prop :=
  parts h' = parts h
  /\ forall q, procs h' q =
       if decide (q ∈ seen /\ Process.state (procs h q) = TERMINATED)
       then Process.calculate_statistics (procs h q) else procs h q.

End Vocabulary.

(** * Vocabulary of the engine as a whole *)

Section EngineMoves.

Import Simulator.

(** * The elementary moves of the engine *)

(** The kinds of moves: resetting the event flags, taking the arrivals
    out of the waiting list, the moves before the execution step
    (admissions, re-admissions, preemption, dispatch), the count of the
    waiting times, the unit of execution, and the advance of the clock. *)
Inductive kind : Set := Flags | Take | Quiet | Wait | Exec | Clock.

#[global] Instance kind_eq_dec : EqDecision kind.
Proof. solve_decision. Defined.

(** The processes that arrive at the current time, and those still to
    come. *)
Definition arriving (s : t) : list ProcRef :=
  filter (fun p => Process.arrival_time (procs (heap s) p) = clock s) (all_processes s).

Definition to_come (s : t) : list ProcRef :=
  filter (fun p => clock s < Process.arrival_time (procs (heap s) p)) (all_processes s).

(** One elementary move, between two states of the engine with the
    processes being admitted. *)
Inductive move : kind -> list ProcRef -> t -> list ProcRef -> t -> Prop :=
| mv_flags s :
    move Flags [] s [] (set_process_finished false (set_new_process_arrived false s))
| mv_take s flag :
    move Take [] s (arriving s)
      (set_all_processes (to_come s)
         (set_new_process_arrived flag
            (set_heap (mark_new (arriving s) (heap s)) s)))
| mv_suspend p pending s :
    degree_of_multiprogramming s <= current_dom s
    \/ MemoryManager.find_best_fit (partitions s) (heap s) p = None ->
    move Quiet (p :: pending) s pending
      (set_suspended_queue (suspended_queue s ++ [p])
         (set_heap (upd_proc p (Process.set_state SUSPENDED) (heap s)) s))
| mv_place p k pending s :
    current_dom s < degree_of_multiprogramming s ->
    MemoryManager.find_best_fit (partitions s) (heap s) p = Some k ->
    move Quiet (p :: pending) s pending
      (set_ready_queue (ready_queue s ++ [p]) (set_heap (placed k p (heap s)) s))
| mv_readmit p k s :
    p ∈ suspended_queue s ->
    current_dom s < degree_of_multiprogramming s ->
    MemoryManager.find_best_fit (partitions s) (heap s) p = Some k ->
    move Quiet [] s []
      (set_suspended_queue (py_remove p (suspended_queue s))
         (set_ready_queue (ready_queue s ++ [p]) (set_heap (placed k p (heap s)) s)))
| mv_preempt c s :
    Scheduler.current_process (scheduler s) = Some c ->
    Scheduler.should_preempt (scheduler s) (heap s) (ready_queue s) = true ->
    move Quiet [] s []
      (set_ready_queue (ready_queue s ++ [c])
         (set_scheduler (Scheduler.mk None)
            (set_heap (upd_proc c (Process.set_state READY) (heap s)) s)))
| mv_dispatch n s :
    Scheduler.current_process (scheduler s) = None ->
    Scheduler.select_next_process (heap s) (ready_queue s) = Some n ->
    move Quiet [] s []
      (set_ready_queue (py_remove n (ready_queue s))
         (set_scheduler (Scheduler.mk (Some n))
            (set_heap (started (clock s) n (heap s)) s)))
| mv_wait s :
    move Wait [] s [] (_update_wait_times s)
| mv_idle s :
    Scheduler.current_process (scheduler s) = None ->
    move Exec [] s [] (set_scheduler (scheduler s) (set_heap (heap s) s))
| mv_run c s :
    Scheduler.current_process (scheduler s) = Some c ->
    1 < Scheduler.remaining (heap s) c ->
    move Exec [] s [] (set_heap (ran c (heap s)) s)
| mv_finish c s :
    Scheduler.current_process (scheduler s) = Some c ->
    Scheduler.remaining (heap s) c <= 1 ->
    move Exec [] s []
      (set_process_finished true
         (set_scheduler (Scheduler.mk None)
            (set_terminated_queue (terminated_queue s ++ [c])
               (set_heap (finished (clock s) c (heap s)) s))))
| mv_clock s :
    move Clock [] s [] (set_clock (clock s + 1) s).

(** A sequence of moves of the kinds [K]. *)
Inductive moves (K : kind -> Prop) : list ProcRef -> t -> list ProcRef -> t -> Prop :=
| moves_refl pending s : moves K pending s pending s
| moves_step k pending s pending1 s1 pending2 s2 :
    moves K pending s pending1 s1 -> K k -> move k pending1 s1 pending2 s2 ->
    moves K pending s pending2 s2.

(** The state of the loop of [_try_load_suspended], as a state of the
    engine in which the removals from the suspended queue are done at
    once. *)
Definition loop_state (s : t) (st : Heap * list ProcRef * list ProcRef * Z) : t :=
  set_suspended_queue (without st.1.2 (suspended_queue s))
    (set_ready_queue st.1.1.2 (set_heap st.1.1.1 s)).

(** ** What identifies the objects *)

(** The fields that identify a process and a partition: the rest is
    bookkeeping of the simulation. *)
Definition process_identity (o : Process.t) : Z * Z * Z * Z :=
  (Process.id o, Process.size o, Process.arrival_time o, Process.burst_time o).

Definition partition_identity (k : Partition.t) : Z * Z * Z :=
  (Partition.id k, Partition.size k, Partition.start_address k).

Definition same_identity (h h' : Heap) : Prop :=
  (forall q, process_identity (procs h' q) = process_identity (procs h q))
  /\ (forall k, partition_identity (parts h' k) = partition_identity (parts h k)).

(** The configuration of the engine: what [__init__] and
    [load_processes] set once and for all. *)
Definition same_configuration (s s' : t) : Prop :=
  partitions s' = partitions s
  /\ degree_of_multiprogramming s' = degree_of_multiprogramming s
  /\ loaded_processes s' = loaded_processes s
  /\ new_queue s' = new_queue s.

(** ** Kept by the engine: the fit of the residents *)

(** Every occupied partition is one of the configured ones, holds a
    process no larger than itself and records the space left; a free
    partition records none. *)
Definition well_fitted (ps : list PartRef) (h : Heap) : Prop :=
  forall k,
    match Partition.process (parts h k) with
    | Some p =>
        k ∈ ps
        /\ Process.size (procs h p) <= Partition.size (parts h k)
        /\ Partition.internal_fragmentation (parts h k)
           = Partition.size (parts h k) - Process.size (procs h p)
    | None => Partition.internal_fragmentation (parts h k) = 0
    end.

(** The processes that hold a partition are the ready ones and the one
    executing. *)
Definition residents_only (s : t) : Prop :=
  forall p, Process.partition (procs (heap s) p) <> None ->
    p ∈ ready_queue s \/ Scheduler.current_process (scheduler s) = Some p.

(** ** Kept by the engine: the degree of multiprogramming *)

Definition within_degree (s : t) : Prop :=
  current_dom s <= Z.max 0 (degree_of_multiprogramming s).

(** ** Where the processes are *)

(** A process that has arrived is being admitted, in one of the three
    queues, or executing. *)
Definition active (pending : list ProcRef) (s : t) (p : ProcRef) : Prop :=
  p ∈ pending \/ p ∈ ready_queue s \/ p ∈ suspended_queue s
  \/ p ∈ terminated_queue s \/ Scheduler.current_process (scheduler s) = Some p.

Definition arrival (s : t) (p : ProcRef) : Z :=
  Process.arrival_time (procs (heap s) p).

(** Every process the engine holds is one of those it was loaded with. *)
Definition members_loaded (pending : list ProcRef) (s : t) : Prop :=
  forall p, p ∈ all_processes s \/ active pending s p -> p ∈ loaded_processes s.

(** At a tick boundary a loaded process (of non-negative arrival time)
    waits for its time in [all_processes] or is active. *)
Definition none_lost (s : t) : Prop :=
  forall p, p ∈ loaded_processes s -> 0 <= arrival s p ->
    (clock s <= arrival s p /\ p ∈ all_processes s)
    \/ (arrival s p < clock s /\ active [] s p).

(** The same inside a tick, once the arrivals are taken. *)
Definition none_lost_inside (pending : list ProcRef) (s : t) : Prop :=
  forall p, p ∈ loaded_processes s -> 0 <= arrival s p ->
    (clock s < arrival s p /\ p ∈ all_processes s)
    \/ (arrival s p <= clock s /\ active pending s p).

(** In how many places a process is held, in a state of the engine. *)
Definition held (s : t) (p : ProcRef) : nat :=
  places [] (Scheduler.current_process (scheduler s)) (all_processes s)
    (ready_queue s) (suspended_queue s) (terminated_queue s) p.

(** ** Processes that never arrive *)

(** A process whose arrival time is negative is never active, and is
    out of the waiting list once the clock has moved. *)
Definition never_arrives (s : t) : Prop :=
  0 <= clock s
  /\ forall p, arrival s p < 0 ->
       ~ active [] s p /\ (0 < clock s -> p ∉ all_processes s).

Definition never_arrives_inside (pending : list ProcRef) (s : t) : Prop :=
  0 <= clock s
  /\ forall p, arrival s p < 0 -> ~ active pending s p /\ p ∉ all_processes s.

(** ** Processes too large for the memory *)

Definition too_large (s : t) (p : ProcRef) : Prop :=
  forall k, k ∈ partitions s ->
    Partition.size (parts (heap s) k) < Process.size (procs (heap s) p).

Definition never_resident (s : t) (p : ProcRef) : Prop :=
  (p ∉ ready_queue s) /\ Scheduler.current_process (scheduler s) <> Some p
  /\ (p ∉ terminated_queue s).

(** ** The count of the waiting times *)

(** The test of the loop of [_update_wait_times] on a process record. *)
Definition counted (executing_id : option Z) (o : Process.t) : bool :=
  (bool_decide (Process.state o = READY) || bool_decide (Process.state o = SUSPENDED))
  && negb (bool_decide (Some (Process.id o) = executing_id))
  && bool_decide (Process.first_execution_time o = None).

(** [executing_id] in [_update_wait_times]. *)
Definition executing_id (s : t) : option Z :=
  match Scheduler.current_process (scheduler s) with
  | Some c => Some (Process.id (procs (heap s) c))
  | None => None
  end.

Definition tick_waited (o : Process.t) : Process.t :=
  Process.set_wait_time (Process.wait_time o + 1) o.

(** A process counted as waiting is ready or suspended and has never
    executed. *)
Definition waiting (s : t) (q : ProcRef) : Prop :=
  (q ∈ ready_queue s \/ q ∈ suspended_queue s)
  /\ Process.first_execution_time (procs (heap s) q) = None
  /\ forall c, Scheduler.current_process (scheduler s) = Some c ->
       Process.id (procs (heap s) c) <> Process.id (procs (heap s) q).

(** ** The times of a process *)

(** What the times recorded in a process amount to, at clock [clk] (with
    [d] the unit of execution already done in the current tick): a
    process that has never been given the processor has its whole burst
    left; otherwise it was first given the processor at or after its
    arrival, it has executed at most once per tick since, and once
    terminated its finish time and statistics are those of its
    completion. *)
Definition timed (d clk : Z) (o : Process.t) : Prop :=
  match Process.first_execution_time o with
  | None =>
      Process.remaining_time o = Process.burst_time o
      /\ Process.state o <> TERMINATED
  | Some f =>
      Process.arrival_time o <= f <= clk
      /\ (Process.state o = TERMINATED ->
            Process.burst_time o <= Process.finish_time o - f
            /\ Process.finish_time o <= clk + d
            /\ Process.turnaround_time o
               = Process.finish_time o - Process.arrival_time o
            /\ Process.wait_time o = f - Process.arrival_time o)
      /\ (Process.state o <> TERMINATED ->
            Process.burst_time o - Process.remaining_time o <= clk + d - f)
  end.

(** The active processes have arrived. *)
Definition arrived (pending : list ProcRef) (s : t) : Prop :=
  forall p, active pending s p -> arrival s p <= clock s.

Definition on_time (d : Z) (pending : list ProcRef) (s : t) : Prop :=
  (forall p, timed d (clock s) (procs (heap s) p)) /\ arrived pending s.

(** ** The waiting time counted tick by tick *)

(** The loaded processes bear different ids. *)
Definition ids_distinct (s : t) : Prop :=
  forall p q, p ∈ loaded_processes s -> q ∈ loaded_processes s ->
    Process.id (procs (heap s) p) = Process.id (procs (heap s) q) -> p = q.

(** What the waiting time of a process amounts to, at the clock of [s]
    (with [d] the unit already counted in the current tick). *)
Definition wait_counted (d : Z) (pending : list ProcRef) (s : t) : Prop :=
  (forall q, q ∈ pending \/ q ∈ all_processes s ->
     Process.wait_time (procs (heap s) q) = 0
     /\ Process.first_execution_time (procs (heap s) q) = None)
  /\ (forall q, q ∈ pending -> arrival s q = clock s)
  /\ (forall q, q ∈ ready_queue s \/ q ∈ suspended_queue s ->
        Process.first_execution_time (procs (heap s) q) = None ->
        Process.wait_time (procs (heap s) q) = clock s + d - arrival s q)
  /\ (forall q f, Process.first_execution_time (procs (heap s) q) = Some f ->
        Process.wait_time (procs (heap s) q) = f - arrival s q).

Definition wait_account (d : Z) (pending : list ProcRef) (s : t) : Prop :=
  wait_counted d pending s /\ members_loaded pending s /\ ids_distinct s.

(** Two stores with the same waiting, first execution and arrival
    times. *)
Definition times_kept (h h' : Heap) : Prop :=
  forall q, Process.wait_time (procs h' q) = Process.wait_time (procs h q)
            /\ Process.first_execution_time (procs h' q)
               = Process.first_execution_time (procs h q)
            /\ Process.arrival_time (procs h' q) = Process.arrival_time (procs h q).

(** The ids of the rows of the process file. *)
Definition row_ids (rows : list process_row) : list Z :=
  map (fun r : process_row => r.1.1.1) rows.

End EngineMoves.

(** The dict [MemoryManager.get_memory_status] builds for a partition. *)
Module MemoryStatus.

Record t : Set := mk {
  id : Z;
  size : Z;
  start_address : Z;
  process_id : option Z;
  internal_fragmentation : Z;
  free : bool
}.

End MemoryStatus.

Section MemoryView.

Import Simulator.

(** [MemoryManager.get_memory_status] *)
Definition get_memory_status (partitions : list PartRef) (h : Heap)
    : list MemoryStatus.t :=
  map (fun k =>
         MemoryStatus.mk
           (Partition.id (parts h k))
           (Partition.size (parts h k))
           (Partition.start_address (parts h k))
           (match Partition.process (parts h k) with
            | Some p => Some (Process.id (procs h p))
            | None => None
            end)
           (Partition.internal_fragmentation (parts h k))
           (is_free h k))
      partitions.

(** A cell of a table handed to [tabulate]: an integer, an amount of
    memory written [f"{n}K"], or a text. *)
Inductive cell : Set :=
| Num (n : Z)
| Kilo (n : Z)
| Text (s : string).

(** [Display.show_memory_table]: the lines of the table. *)
Definition show_memory_table (partitions : list PartRef) (os_size : Z) (h : Heap)
    : list (list cell) :=
  [Text "SO"; Kilo os_size; Text "SO"; Text "---"]
  :: map (fun k =>
            let process_id :=
              match Partition.process (parts h k) with
              | Some p => Num (Process.id (procs h p))
              | None => Text "Libre"
              end in
            let frag :=
              match Partition.process (parts h k) with
              | Some _ => Kilo (Partition.internal_fragmentation (parts h k))
              | None => Text "---"
              end in
            [Num (Partition.id (parts h k)); Kilo (Partition.size (parts h k));
             process_id; frag])
       partitions.

(** The line of the memory table for an entry of the memory status. *)
Definition status_line (e : MemoryStatus.t) : list cell :=
  [Num (MemoryStatus.id e); Kilo (MemoryStatus.size e);
   match MemoryStatus.process_id e with
   | Some i => Num i
   | None => Text "Libre"
   end;
   if MemoryStatus.free e then Text "---"
   else Kilo (MemoryStatus.internal_fragmentation e)].

End MemoryView.

(** [ProcessState.value] *)
Definition state_value (st : ProcessState) : string :=
  match st with
  | NEW => "New"
  | READY => "Ready"
  | EXECUTING => "Executing"
  | SUSPENDED => "Suspended"
  | TERMINATED => "Terminated"
  end.

Module Display.

(** The five lists of ids [show_process_queues] fills, one per line of
    its table. *)
Record queues : Set := mk_queues {
  executing : list Z;
  ready : list Z;
  suspended : list Z;
  new : list Z;
  terminated : list Z
}.

Definition no_queues : queues := mk_queues [] [] [] [] [].

(** The loop body of [show_process_queues]; the accumulator is
    [(seen_ids, lists)]. *)
Definition queues_step (h : Heap) (ready_queue suspended_queue : list Z)
    (executing_id : option Z) (clock : Z)
    (acc : gset Z * queues) (p : ProcRef) : gset Z * queues :=
  let '(seen_ids, q) := acc in
  let o := procs h p in
  if bool_decide (Process.id o ∈ seen_ids) then acc
  else
    let seen_ids := {[Process.id o]} ∪ seen_ids in
    if bool_decide (Some (Process.id o) = executing_id) then
      (seen_ids, mk_queues (executing q ++ [Process.id o]) (ready q) (suspended q)
                   (new q) (terminated q))
    else if String.eqb (state_value (Process.state o)) "Ready" then
      if bool_decide (ready_queue = []) || bool_decide (Process.id o ∈ ready_queue)
      then (seen_ids, mk_queues (executing q) (ready q ++ [Process.id o]) (suspended q)
                        (new q) (terminated q))
      else (seen_ids, q)
    else if String.eqb (state_value (Process.state o)) "Suspended" then
      if bool_decide (suspended_queue = []) || bool_decide (Process.id o ∈ suspended_queue)
      then (seen_ids, mk_queues (executing q) (ready q) (suspended q ++ [Process.id o])
                        (new q) (terminated q))
      else (seen_ids, q)
    else if String.eqb (state_value (Process.state o)) "New" then
      if Process.arrival_time o <=? clock
      then (seen_ids, mk_queues (executing q) (ready q) (suspended q)
                        (new q ++ [Process.id o]) (terminated q))
      else (seen_ids, q)
    else if String.eqb (state_value (Process.state o)) "Terminated" then
      if Process.remaining_time o <=? 0
      then (seen_ids, mk_queues (executing q) (ready q) (suspended q)
                        (new q) (terminated q ++ [Process.id o]))
      else (seen_ids, q)
    else (seen_ids, q).

(** The [try] branch of [show_process_queues], once [tabulate] is
    imported: the lists its table shows. *)
Definition queues_table (h : Heap) (processes : list ProcRef)
    (ready_queue suspended_queue : list Z) (executing_id : option Z) (clock : Z)
    : queues :=
  (fold_left (queues_step h ready_queue suspended_queue executing_id clock)
             processes (∅, no_queues)).2.

(** [Display.show_process_queues]: what it shows of the processes.
    [tabulate] tells whether [from tabulate import tabulate], the first
    statement of the [try], succeeds; when it raises [ImportError] the
    [except] branch prints the title and the header of the table and no
    process at all, which is [None] here. *)
Definition show_process_queues (tabulate : bool) (h : Heap) (processes : list ProcRef)
    (ready_queue suspended_queue : list Z) (executing_id : option Z) (clock : Z)
    : option queues :=
  if tabulate
  then Some (queues_table h processes ready_queue suspended_queue executing_id clock)
  else None.

End Display.

Section QueueView.

Import Simulator.

(** The loops of [run] that gather [all_active_processes]; the
    accumulator is [(all_active_processes, seen_ids)]. *)
Definition add_active (h : Heap) (acc : list ProcRef * gset Z) (p : ProcRef)
    : list ProcRef * gset Z :=
  if bool_decide (Process.id (procs h p) ∈ acc.2) then acc
  else (acc.1 ++ [p], {[Process.id (procs h p)]} ∪ acc.2).

Definition add_terminated (h : Heap) (acc : list ProcRef * gset Z) (p : ProcRef)
    : list ProcRef * gset Z :=
  if bool_decide (Process.id (procs h p) ∈ acc.2) then acc
  else if bool_decide (Process.state (procs h p) = TERMINATED)
       then (acc.1 ++ [p], {[Process.id (procs h p)]} ∪ acc.2)
       else acc.

Definition all_active_processes (s : t) : list ProcRef :=
  let a0 := match Scheduler.current_process (scheduler s) with
            | Some c => add_active (heap s) ([], ∅) c
            | None => ([], ∅)
            end in
  let a1 := fold_left (add_active (heap s)) (ready_queue s) a0 in
  let a2 := fold_left (add_active (heap s)) (suspended_queue s) a1 in
  (fold_left (add_terminated (heap s)) (terminated_queue s) a2).1.

Definition queue_ids (h : Heap) (l : list ProcRef) : list Z :=
  map (fun p => Process.id (procs h p)) l.

(** The queues shown inside the loop of [run], when a process has
    arrived or finished. *)
Definition event_display (tabulate : bool) (s : t) : option Display.queues :=
  Display.show_process_queues tabulate (heap s) (all_active_processes s)
    (queue_ids (heap s) (ready_queue s)) (queue_ids (heap s) (suspended_queue s))
    (executing_id s) (clock s).

(** The queues shown after the loop of [run]. *)
Definition final_display (tabulate : bool) (s : t) : option Display.queues :=
  Display.show_process_queues tabulate (heap s)
    (ready_queue s ++ suspended_queue s ++ terminated_queue s)
    (queue_ids (heap s) (ready_queue s)) (queue_ids (heap s) (suspended_queue s))
    (executing_id s) (clock s).

(** All the ids of a table. *)
Definition shown (q : Display.queues) : list Z :=
  Display.executing q ++ Display.ready q ++ Display.suspended q
  ++ Display.new q ++ Display.terminated q.

(** All the ids [show_process_queues] shows: those of its table, and
    none in the fallback. *)
Definition printed (out : option Display.queues) : list Z :=
  match out with
  | Some q => shown q
  | None => []
  end.

(** The lines of the table of [show_process_queues]. *)
Inductive slot : Set := Executing | Ready | Suspended | New | Terminated.

(** [lists[slot].append(i)] *)
Definition push (sl : slot) (i : Z) (q : Display.queues) : Display.queues :=
  match sl with
  | Executing => Display.mk_queues (Display.executing q ++ [i]) (Display.ready q)
                   (Display.suspended q) (Display.new q) (Display.terminated q)
  | Ready => Display.mk_queues (Display.executing q) (Display.ready q ++ [i])
               (Display.suspended q) (Display.new q) (Display.terminated q)
  | Suspended => Display.mk_queues (Display.executing q) (Display.ready q)
                   (Display.suspended q ++ [i]) (Display.new q) (Display.terminated q)
  | New => Display.mk_queues (Display.executing q) (Display.ready q)
             (Display.suspended q) (Display.new q ++ [i]) (Display.terminated q)
  | Terminated => Display.mk_queues (Display.executing q) (Display.ready q)
                    (Display.suspended q) (Display.new q) (Display.terminated q ++ [i])
  end.

Definition pushes (sl : slot) (ids : list Z) (q : Display.queues) : Display.queues :=
  fold_left (fun q i => push sl i q) ids q.

(** A terminated process has no time left. *)
Definition spent_when_terminated (s : t) : Prop :=
  forall p, Process.state (procs (heap s) p) = TERMINATED ->
            Process.remaining_time (procs (heap s) p) <= 0.

(** The process executing, as a list. *)
Definition executing_list (s : t) : list ProcRef :=
  match Scheduler.current_process (scheduler s) with
  | Some c => [c]
  | None => []
  end.

End QueueView.

Module FileReader.

Section Reader.

(** Python's [int] on a field of the file: the integer it denotes, or
    [None] where [int] raises [ValueError]. *)
Variable py_int : string -> option Z.

(** [Process(id=row[0], size=row[1], arrival_time=row[2],
    burst_time=row[3])] on a row of four fields: [None] where
    [Process.__init__] raises [ValueError]. *)
Definition process_of_row (row : list string) : option Process.t :=
  match row with
  | [f0; f1; f2; f3] =>
      match py_int f0, py_int f1, py_int f2, py_int f3 with
      | Some id, Some size, Some arrival_time, Some burst_time =>
          Some (Process.init id size arrival_time burst_time)
      | _, _, _, _ => None
      end
  | _ => None
  end.

(** The loop of [read_processes] over what the csv reader gives after
    the header, each time it is asked for the next row: [Some row], or
    [None] where it raises (a byte that cannot be decoded, a
    [csv.Error], an error of the file system).  The loop has its
    [break] at the limit; the result is [None] where the exception
    leaves the loop, to be caught by the [except] clauses of
    [read_processes]. *)
Fixpoint read_rows (max_processes : Z) (rows : list (option (list string)))
    (processes : list Process.t) : option (list Process.t) :=
  match rows with
  | [] => Some processes
  | None :: _ => None
  | Some row :: rows' =>
      if (length row =? 4)%nat && (Z.of_nat (length processes) <? max_processes) then
        match process_of_row row with
        | Some process => read_rows max_processes rows' (processes ++ [process])
        | None => read_rows max_processes rows' processes
        end
      else if max_processes <=? Z.of_nat (length processes) then Some processes
      else read_rows max_processes rows' processes
  end.

(** [FileReader.read_processes].  The file is [None] when it does not
    exist or [open] raises, and otherwise what the csv reader gives,
    the header first.  The result is [None] where the function returns
    [None]: no file, an exception caught by [except IOError] or
    [except Exception], or no process read.  The writes to the console
    are taken to succeed. *)
Definition read_processes (file : option (list (option (list string))))
    (max_processes : Z) : option (list Process.t) :=
  match file with
  | None => None
  | Some [] => Some []
  | Some (None :: _) => None
  | Some (Some _ :: rows) =>
      match read_rows max_processes rows [] with
      | None => None
      | Some [] => None
      | Some processes => Some (py_sorted Process.arrival_time processes)
      end
  end.

End Reader.

End FileReader.

(** The order [sorted] and [sort] leave a list in, for a [key]. *)
Definition by_key {A : Type} (key : A -> Z) (x y : A) : Prop := key x <= key y.

(** ** The statistical report *)

Module Report.

(** A line of the table: id, arrival and burst, then the finish and
    turnaround times ([None] where the table reads "N/A") and the
    waiting time. *)
Definition line : Set := (Z * Z * Z * option Z * option Z * Z)%type.

(** The variables of the loop of [show_statistics]. *)
Record statistics : Set := mk_statistics {
  table_data : list line;
  total_turnaround : Z;
  total_wait : Z;
  count_terminated : Z
}.

(** The body of the loop of [show_statistics] over all the processes. *)
Definition statistics_line (acc : Heap * statistics) (p : ProcRef)
    : Heap * statistics :=
  let '(h, st) := acc in
  if String.eqb (state_value (Process.state (procs h p))) "Terminated" then
    let h1 := upd_proc p Process.calculate_statistics h in
    let o := procs h1 p in
    (h1, mk_statistics
           (table_data st
            ++ [(Process.id o, Process.arrival_time o, Process.burst_time o,
                 Some (Process.finish_time o), Some (Process.turnaround_time o),
                 Process.wait_time o)])
           (total_turnaround st + Process.turnaround_time o)
           (total_wait st + Process.wait_time o)
           (count_terminated st + 1))
  else
    let o := procs h p in
    (h, mk_statistics
          (table_data st
           ++ [(Process.id o, Process.arrival_time o, Process.burst_time o,
                None, None, Process.wait_time o)])
          (total_turnaround st) (total_wait st) (count_terminated st)).

(** [Display.show_statistics], the table of the tabulate branch before
    the line of the averages: [None] where it prints that there are no
    processes. *)
Definition show_statistics (h : Heap) (processes : list ProcRef)
    : option (Heap * statistics) :=
  let all_processes := py_sorted (fun p => Process.id (procs h p)) processes in
  match all_processes with
  | [] => None
  | _ => Some (fold_left statistics_line all_processes (h, mk_statistics [] 0 0 0))
  end.

End Report.

Section ReportView.

Import Simulator.

(** The line the report is to show for a process record. *)
Definition line_of (o : Process.t) : Report.line :=
  if bool_decide (Process.state o = TERMINATED) then
    (Process.id o, Process.arrival_time o, Process.burst_time o,
     Some (Process.finish_time o),
     Some (Process.finish_time o - Process.arrival_time o),
     match Process.first_execution_time o with
     | Some fet => fet - Process.arrival_time o
     | None => Process.finish_time o - Process.arrival_time o - Process.burst_time o
     end)
  else
    (Process.id o, Process.arrival_time o, Process.burst_time o,
     None, None, Process.wait_time o).

Definition line_id (l : Report.line) : Z := l.1.1.1.1.1.

(** The sum of [f] over the Terminated processes of a list. *)
Definition total_terminated (h : Heap) (f : Process.t -> Z) (l : list ProcRef) : Z :=
  foldr (fun p a => (if bool_decide (Process.state (procs h p) = TERMINATED)
                     then f (procs h p) else 0) + a) 0 l.

End ReportView.

(** * Properties *)

(** ** The object store *)

Lemma upd_same {A : Type} (f : nat -> A) r g : upd f r g r = g (f r).
Proof. unfold upd. by rewrite Nat.eqb_refl. Qed.

Lemma upd_other {A : Type} (f : nat -> A) r g r' : r' <> r -> upd f r g r' = f r'.
Proof. intros Hne. unfold upd. by apply Nat.eqb_neq in Hne as ->. Qed.

Lemma upd_case {A : Type} (f : nat -> A) r g r' :
  upd f r g r' = if decide (r' = r) then g (f r') else f r'.
Proof.
  case_decide as Hd; [subst; apply upd_same | by apply upd_other].
Qed.

Lemma is_free_true h k : is_free h k = true <-> Partition.process (parts h k) = None.
Proof. unfold is_free. by destruct (Partition.process (parts h k)). Qed.

(** ** Best fit *)

Section BestFit.

Import MemoryManager.

Variable h : Heap.
Variable p : ProcRef.

Lemma eligible_test k :
  is_free h k && (Process.size (procs h p) <=? Partition.size (parts h k)) = true
  <-> eligible h p k.
Proof.
  unfold eligible. rewrite andb_true_iff, Z.leb_le. tauto.
Qed.

Lemma best_fit_step_inv l acc k :
  best_fit_inv h p l acc -> best_fit_inv h p (l ++ [k]) (best_fit_step h p acc k).
Proof.
  intros [Hfb Hfrag]. unfold best_fit_step.
  destruct (is_free h k && (Process.size (procs h p) <=? Partition.size (parts h k)))
    eqn:Hel.
  - apply eligible_test in Hel.
    destruct acc as [[b|] m]; simpl in *; subst m; simpl.
    + destruct Hfb as (l1 & l2 & -> & Hb & Hlt & Hle).
      fold (leftover h p k). destruct (Z.ltb_spec (leftover h p k) (leftover h p b)) as [Hlt'|Hge].
      * split; [|done]. simpl. exists (l1 ++ b :: l2), []. split; [done|].
        split; [done|]. split; [|intros j Hj; by apply elem_of_nil in Hj].
        intros j Hj Hej. apply elem_of_app in Hj as [Hj|Hj].
        { specialize (Hlt j Hj Hej). lia. }
        apply elem_of_cons in Hj as [->|Hj]; [lia|].
        specialize (Hle j Hj Hej). lia.
      * split; [|done]. simpl. exists l1, (l2 ++ [k]).
        split; [by rewrite <- app_assoc|]. split; [done|]. split; [done|].
        intros j Hj Hej. apply elem_of_app in Hj as [Hj|Hj]; [by apply Hle|].
        apply list_elem_of_singleton in Hj as ->. lia.
    + split; [|done]. simpl. exists l, []. split; [done|]. split; [done|].
      split; [|intros j Hj; by apply elem_of_nil in Hj].
      intros j Hj Hej. by destruct (Hfb j Hj).
  - split; [|done]. destruct acc as [[b|] m]; simpl in *.
    + destruct Hfb as (l1 & l2 & -> & Hb & Hlt & Hle).
      exists l1, (l2 ++ [k]). split; [by rewrite <- app_assoc|].
      split; [done|]. split; [done|].
      intros j Hj Hej. apply elem_of_app in Hj as [Hj|Hj]; [by apply Hle|].
      apply list_elem_of_singleton in Hj as ->.
      apply eligible_test in Hej. congruence.
    + intros j Hj Hej. apply elem_of_app in Hj as [Hj|Hj]; [by apply (Hfb j)|].
      apply list_elem_of_singleton in Hj as ->.
      apply eligible_test in Hej. congruence.
Qed.

Lemma best_fit_fold_inv rest : forall l acc,
  best_fit_inv h p l acc ->
  best_fit_inv h p (l ++ rest) (fold_left (best_fit_step h p) rest acc).
Proof.
  induction rest as [|k rest IH]; intros l acc Hinv; simpl.
  - by rewrite app_nil_r.
  - replace (l ++ k :: rest) with ((l ++ [k]) ++ rest) by by rewrite <- app_assoc.
    apply IH. by apply best_fit_step_inv.
Qed.

Lemma find_best_fit_first_best partitions :
  first_best h p partitions (find_best_fit partitions h p).
Proof.
  unfold find_best_fit.
  apply (best_fit_fold_inv partitions [] (None, None)).
  split; [|done]. simpl. intros k Hk. by apply elem_of_nil in Hk.
Qed.

End BestFit.

(** C5.  For every process and partition list, [find_best_fit] returns,
    among the free partitions at least as large as the process, the first
    one in list order with the least [size - process.size]; it returns
    [None] (exactly) when no free partition is large enough. *)
Theorem find_best_fit_spec (partitions : list PartRef) (h : Heap) (p : ProcRef) :
  match MemoryManager.find_best_fit partitions h p with
  | None => forall k, k ∈ partitions -> ~ eligible h p k
  | Some k =>
      exists l1 l2, partitions = l1 ++ k :: l2 /\ eligible h p k
        /\ (forall j, j ∈ l1 -> eligible h p j -> leftover h p k < leftover h p j)
        /\ (forall j, j ∈ l2 -> eligible h p j -> leftover h p k <= leftover h p j)
  end.
Proof. exact (find_best_fit_first_best h p partitions). Qed.

(** ** Allocation *)

(** Reading an object back after in-place updates. *)
Ltac heap_simpl :=
  repeat first
    [ progress (cbn [procs parts upd_proc upd_part fst snd] in *)
    | rewrite upd_same in *
    | rewrite upd_other in * by (congruence || lia) ].

Section Allocation.

Import MemoryManager.

Lemma find_best_fit_None partitions h p :
  find_best_fit partitions h p = None <->
  (forall k, k ∈ partitions -> ~ eligible h p k).
Proof.
  pose proof (find_best_fit_first_best h p partitions) as Hfb.
  destruct (find_best_fit partitions h p) as [k|]; simpl in Hfb.
  - split; [done|]. intros Hno. destruct Hfb as (l1 & l2 & -> & Hk & _).
    destruct (Hno k); [|done]. apply elem_of_app. right. by left.
  - done.
Qed.

(** The partition [find_best_fit] returns is free: the loop skips the
    occupied ones. *)
Lemma find_best_fit_free partitions h p k :
  find_best_fit partitions h p = Some k ->
  k ∈ partitions /\ is_free h k = true
  /\ Process.size (procs h p) <= Partition.size (parts h k).
Proof.
  intros Hk. pose proof (find_best_fit_first_best h p partitions) as Hfb.
  rewrite Hk in Hfb. destruct Hfb as (l1 & l2 & -> & [Hfree Hsz] & _).
  split; [|done]. apply elem_of_app. right. by left.
Qed.

(** Assigning into a free, large enough partition. *)
Lemma allocate_at_free h p k :
  is_free h k = true ->
  Process.size (procs h p) <= Partition.size (parts h k) ->
  allocate_at (Some k) p h =
    (upd_proc p (Process.set_state READY)
       (upd_proc p (Process.set_partition (Some k))
          (upd_part k (Partition.set_internal_fragmentation
                         (Partition.size (parts h k) - Process.size (procs h p)))
             (upd_part k (Partition.set_process (Some p)) h))), true).
Proof.
  intros Hfree Hsz. unfold allocate_at. rewrite Hfree. cbn [negb].
  unfold assign_process. rewrite Hfree. cbn [negb].
  apply Z.ltb_ge in Hsz. rewrite Hsz. heap_simpl. cbn. done.
Qed.

(** The body of [allocate_process] for any partition [k] large enough,
    free or not: the process ends assigned to [k] and Ready, and a
    different process that occupied [k] has been suspended and has lost
    its partition. *)
Lemma allocate_at_fits h p k :
  Process.size (procs h p) <= Partition.size (parts h k) ->
  let h' := fst (allocate_at (Some k) p h) in
  snd (allocate_at (Some k) p h) = true
  /\ Partition.process (parts h' k) = Some p
  /\ Process.partition (procs h' p) = Some k
  /\ Process.state (procs h' p) = READY
  /\ (forall q, Partition.process (parts h k) = Some q -> q <> p ->
        Process.state (procs h' q) = SUSPENDED
        /\ Process.partition (procs h' q) = None).
Proof.
  intros Hsz. destruct (Partition.process (parts h k)) as [q|] eqn:Hocc.
  - unfold allocate_at, is_free, free. rewrite Hocc.
    cbn [negb]. unfold assign_process, is_free. heap_simpl. cbn.
    apply Z.ltb_ge in Hsz.
    destruct (decide (q = p)) as [->|Hne].
    + heap_simpl. cbn. rewrite Hsz. heap_simpl. cbn.
      repeat split; try done. all: congruence.
    + heap_simpl. rewrite Hsz. heap_simpl. cbn.
      repeat split; try done. all: intros; simplify_eq; by heap_simpl.
  - assert (Hfree : is_free h k = true) by by apply is_free_true.
    rewrite (allocate_at_free h p k Hfree Hsz). heap_simpl. cbn.
    repeat split; done.
Qed.

Lemma allocate_process_result partitions h p :
  snd (allocate_process partitions p h) = false <->
  find_best_fit partitions h p = None.
Proof.
  unfold allocate_process, allocate_at.
  by destruct (find_best_fit partitions h p).
Qed.

End Allocation.

(** C1 (as stated, refuted).  Partition 0, the only one, is large enough
    for process 1 and is held by a different process, process 0.
    [allocate_process] does not evict the occupant: it returns false and
    leaves the store as it is, the occupant still Ready in its partition
    and process 1 unassigned. *)
Lemma allocate_process_never_evicts :
  let h0 := store_of [Process.init 1 50 0 5; Process.init 2 60 0 3]
                     [Partition.init 1 100 100] in
  let h1 := fst (MemoryManager.allocate_process [0%nat] 0%nat h0) in
  Partition.process (parts h1 0%nat) = Some 0%nat
  /\ Process.size (procs h1 1%nat) <= Partition.size (parts h1 0%nat)
  /\ MemoryManager.allocate_process [0%nat] 1%nat h1 = (h1, false)
  /\ Process.state (procs h1 0%nat) = READY
  /\ Process.partition (procs h1 0%nat) = Some 0%nat
  /\ Process.state (procs h1 1%nat) = NEW
  /\ Process.partition (procs h1 1%nat) = None.
Proof.
  intros h0 h1.
  assert (Hnone : MemoryManager.find_best_fit [0%nat] h1 1%nat = None)
    by (vm_compute; reflexivity).
  split; [vm_compute; reflexivity|]. split; [vm_compute; discriminate|].
  split; [unfold MemoryManager.allocate_process; by rewrite Hnone|].
  vm_compute. repeat split.
Qed.

(** C1 (amended).  [allocate_process] searches the free partitions only.
    When [find_best_fit] finds a partition, that partition is one of the
    manager's, free and large enough, so there is no occupant to evict:
    the call returns true with the process assigned to it (links both
    ways, fragmentation recorded) and Ready, and no other process and no
    other partition is changed.  It returns false, changing nothing,
    exactly when no free partition is large enough; and whatever it
    returns, a partition held by another process keeps it, and that
    process is left as it was. *)
Theorem allocate_process_spec (partitions : list PartRef) (h : Heap) (p : ProcRef) :
  match MemoryManager.find_best_fit partitions h p with
  | Some k =>
      let h' := fst (MemoryManager.allocate_process partitions p h) in
      k ∈ partitions
      /\ Partition.process (parts h k) = None
      /\ Process.size (procs h p) <= Partition.size (parts h k)
      /\ snd (MemoryManager.allocate_process partitions p h) = true
      /\ Partition.process (parts h' k) = Some p
      /\ Partition.internal_fragmentation (parts h' k)
         = Partition.size (parts h k) - Process.size (procs h p)
      /\ Process.partition (procs h' p) = Some k
      /\ Process.state (procs h' p) = READY
      /\ (forall q, q <> p -> procs h' q = procs h q)
      /\ (forall j, j <> k -> parts h' j = parts h j)
  | None => MemoryManager.allocate_process partitions p h = (h, false)
  end
  /\ (snd (MemoryManager.allocate_process partitions p h) = false <->
      forall k, k ∈ partitions -> ~ eligible h p k)
  /\ (forall k q, Partition.process (parts h k) = Some q -> q <> p ->
        let h' := fst (MemoryManager.allocate_process partitions p h) in
        parts h' k = parts h k /\ procs h' q = procs h q).
Proof.
  assert (Hfound : forall k, MemoryManager.find_best_fit partitions h p = Some k ->
            k ∈ partitions /\ Partition.process (parts h k) = None
            /\ Process.size (procs h p) <= Partition.size (parts h k)
            /\ MemoryManager.allocate_process partitions p h
               = (upd_proc p (Process.set_state READY)
                    (upd_proc p (Process.set_partition (Some k))
                       (upd_part k (Partition.set_internal_fragmentation
                                      (Partition.size (parts h k)
                                       - Process.size (procs h p)))
                          (upd_part k (Partition.set_process (Some p)) h))), true)).
  { intros k Hk. destruct (find_best_fit_free _ _ _ _ Hk) as (Hin & Hfree & Hsz).
    split; [done|]. split; [by apply is_free_true|]. split; [done|].
    unfold MemoryManager.allocate_process. rewrite Hk.
    by apply allocate_at_free. }
  split; [|split].
  - destruct (MemoryManager.find_best_fit partitions h p) as [k|] eqn:Hk.
    + destruct (Hfound k eq_refl) as (Hin & Hnone & Hsz & ->).
      cbv zeta. cbn [fst snd]. heap_simpl. cbn.
      repeat split; try done.
      * intros q Hq. by heap_simpl.
      * intros j Hj. by heap_simpl.
    + unfold MemoryManager.allocate_process. by rewrite Hk.
  - rewrite allocate_process_result. apply find_best_fit_None.
  - intros k q Hocc Hq. cbv zeta.
    destruct (MemoryManager.find_best_fit partitions h p) as [k'|] eqn:Hk.
    + destruct (Hfound k' eq_refl) as (Hin & Hnone & Hsz & ->).
      cbn [fst]. assert (k <> k') by congruence. by heap_simpl.
    + unfold MemoryManager.allocate_process. by rewrite Hk.
Qed.

(** C9 (as stated, refuted).  A process that already occupies a partition
    is allocated again when another free partition fits: the second call
    returns true and the process ends up recorded in both partitions. *)
Lemma allocate_process_twice_accepted :
  let h1 := fst (MemoryManager.allocate_process [0; 1]%nat 0%nat two_slots) in
  let r2 := MemoryManager.allocate_process [0; 1]%nat 0%nat h1 in
  Process.partition (procs h1 0%nat) = Some 0%nat
  /\ Partition.process (parts h1 0%nat) = Some 0%nat
  /\ snd r2 = true
  /\ Partition.process (parts (fst r2) 0%nat) = Some 0%nat
  /\ Partition.process (parts (fst r2) 1%nat) = Some 0%nat
  /\ Process.partition (procs (fst r2) 0%nat) = Some 1%nat.
Proof. vm_compute. repeat split. Qed.

(** C9 (amended).  For a process [p] that already occupies partition [k]:
    [find_best_fit] never selects [k] again (it is occupied), and when no
    free partition is large enough for [p], [allocate_process] is
    rejected and leaves the whole store unchanged, so that [p] still
    occupies [k] and [k] only. *)
Theorem allocate_process_placed (partitions : list PartRef) (h : Heap)
    (p : ProcRef) (k : PartRef) :
  Process.partition (procs h p) = Some k ->
  Partition.process (parts h k) = Some p ->
  MemoryManager.find_best_fit partitions h p <> Some k
  /\ ((forall j, j ∈ partitions -> ~ eligible h p j) ->
      MemoryManager.allocate_process partitions p h = (h, false)
      /\ Process.partition
           (procs (fst (MemoryManager.allocate_process partitions p h)) p) = Some k
      /\ Partition.process
           (parts (fst (MemoryManager.allocate_process partitions p h)) k) = Some p).
Proof.
  intros Hpk Hkp. split.
  - intros Hk. apply find_best_fit_free in Hk as (_ & Hfree & _).
    apply is_free_true in Hfree. congruence.
  - intros Hno. apply find_best_fit_None in Hno.
    unfold MemoryManager.allocate_process. by rewrite Hno.
Qed.

Lemma allocate_process_placed_witness :
  let h1 := fst (MemoryManager.allocate_process [0]%nat 0%nat two_slots) in
  MemoryManager.allocate_process [0]%nat 0%nat h1 = (h1, false).
Proof.
  intros h1.
  apply (allocate_process_placed [0]%nat h1 0%nat 0%nat); [reflexivity..|].
  intros j Hj. apply list_elem_of_singleton in Hj as ->.
  intros [Hfree _]. vm_compute in Hfree. discriminate.
Defined.

(** ** Python list helpers *)

Lemma py_in_true x l : py_in x l = true <-> x ∈ l.
Proof. unfold py_in. apply bool_decide_eq_true. Qed.

Lemma py_in_false x l : py_in x l = false <-> x ∉ l.
Proof. unfold py_in. apply bool_decide_eq_false. Qed.

Lemma elem_of_py_remove x y l : y ∈ py_remove x l -> y ∈ l.
Proof.
  induction l as [|z l IH]; simpl; [done|].
  destruct (Nat.eqb_spec z x) as [->|Hne]; intros Hy.
  - by right.
  - apply elem_of_cons in Hy as [->|Hy]; [by left|right; auto].
Qed.

Lemma elem_of_py_remove_ne x y l : y <> x -> y ∈ l -> y ∈ py_remove x l.
Proof.
  intros Hne. induction l as [|z l IH]; simpl; [done|].
  intros Hy. destruct (Nat.eqb_spec z x) as [->|Hzx].
  - apply elem_of_cons in Hy as [->|Hy]; done.
  - apply elem_of_cons in Hy as [->|Hy]; [by left|right; auto].
Qed.

(** ** SRTF selection and preemption *)

Section Selection.

Import Scheduler.

Context {A : Type} (key : A -> Z).

Lemma min_from_elem x l : min_from key x l ∈ x :: l.
Proof.
  revert x. induction l as [|y l IH]; intros x; simpl; [by left|].
  destruct (key y <? key x).
  - right. apply IH.
  - specialize (IH x). apply elem_of_cons in IH as [->|IH]; [by left|].
    right. by right.
Qed.

Lemma min_from_le_start x l : key (min_from key x l) <= key x.
Proof.
  revert x. induction l as [|y l IH]; intros x; simpl; [lia|].
  destruct (Z.ltb_spec (key y) (key x)).
  - specialize (IH y). lia.
  - apply IH.
Qed.

Lemma min_from_least x l y : y ∈ x :: l -> key (min_from key x l) <= key y.
Proof.
  revert x. induction l as [|z l IH]; intros x Hy; simpl.
  - apply list_elem_of_singleton in Hy as ->. lia.
  - apply elem_of_cons in Hy as [->|Hy].
    + destruct (Z.ltb_spec (key z) (key x)).
      * pose proof (min_from_le_start z l). lia.
      * apply min_from_le_start.
    + destruct (Z.ltb_spec (key z) (key x)).
      * apply IH, Hy.
      * apply elem_of_cons in Hy as [->|Hy].
        -- pose proof (min_from_le_start x l). lia.
        -- apply IH. by right.
Qed.

End Selection.

Lemma should_preempt_iff (sc : Scheduler.t) (h : Heap) (ready_queue : list ProcRef) :
  Scheduler.should_preempt sc h ready_queue = true <->
  exists c, Scheduler.current_process sc = Some c
    /\ exists q, q ∈ ready_queue /\ Scheduler.remaining h q < Scheduler.remaining h c.
Proof.
  unfold Scheduler.should_preempt.
  destruct (Scheduler.current_process sc) as [c|]; [|split; [done|by intros (? & ? & _)]].
  destruct ready_queue as [|x l].
  { split; [done|]. intros (? & _ & q & Hq & _). by apply elem_of_nil in Hq. }
  destruct (Z.ltb_spec (Scheduler.remaining h (Scheduler.min_from (Scheduler.remaining h) x l))
                       (Scheduler.remaining h c)) as [Hlt|Hge].
  - split; [|done]. intros _. exists c. split; [done|].
    exists (Scheduler.min_from (Scheduler.remaining h) x l).
    split; [apply min_from_elem|done].
  - split; [done|]. intros (c' & [= <-] & q & Hq & Hlt).
    pose proof (min_from_least (Scheduler.remaining h) x l q Hq). lia.
Qed.

Lemma select_next_process_spec (h : Heap) (ready_queue : list ProcRef) n :
  Scheduler.select_next_process h ready_queue = Some n ->
  n ∈ ready_queue
  /\ forall y, y ∈ ready_queue -> Scheduler.remaining h n <= Scheduler.remaining h y.
Proof.
  destruct ready_queue as [|x l]; simpl; [done|]. intros [= <-].
  split; [apply min_from_elem|apply min_from_least].
Qed.

Lemma select_next_process_None (h : Heap) (ready_queue : list ProcRef) :
  Scheduler.select_next_process h ready_queue = None <-> ready_queue = [].
Proof. by destruct ready_queue. Qed.

(** ** What an allocation does to the store *)

Lemma allocate_process_cases partitions p h :
  (MemoryManager.find_best_fit partitions h p = None
   /\ MemoryManager.allocate_process partitions p h = (h, false))
  \/ (exists k, MemoryManager.find_best_fit partitions h p = Some k
        /\ k ∈ partitions /\ Partition.process (parts h k) = None
        /\ Process.size (procs h p) <= Partition.size (parts h k)
        /\ MemoryManager.allocate_process partitions p h = (placed k p h, true)).
Proof.
  unfold MemoryManager.allocate_process.
  destruct (MemoryManager.find_best_fit partitions h p) as [k|] eqn:Hk.
  - right. exists k. destruct (find_best_fit_free _ _ _ _ Hk) as (Hin & Hfree & Hsz).
    repeat split; try done.
    + by apply is_free_true.
    + by apply allocate_at_free.
  - left. done.
Qed.

Lemma placed_procs k p h q :
  procs (placed k p h) q =
  if decide (q = p)
  then Process.set_state READY (Process.set_partition (Some k) (procs h p))
  else procs h q.
Proof.
  unfold placed. case_decide as Hq; [subst q|]; heap_simpl; done.
Qed.

Lemma placed_parts k p h j :
  parts (placed k p h) j =
  if decide (j = k)
  then Partition.set_internal_fragmentation
         (Partition.size (parts h k) - Process.size (procs h p))
         (Partition.set_process (Some p) (parts h k))
  else parts h j.
Proof.
  unfold placed. case_decide as Hj; [subst j|]; heap_simpl; done.
Qed.

(** Projections of updated records. *)
Ltac sim_simpl :=
  cbn [Simulator.heap Simulator.partitions Simulator.degree_of_multiprogramming
       Simulator.clock Simulator.scheduler Simulator.all_processes
       Simulator.loaded_processes Simulator.new_queue Simulator.ready_queue
       Simulator.suspended_queue Simulator.terminated_queue
       Simulator.new_process_arrived Simulator.process_finished
       Simulator.set_heap Simulator.set_clock Simulator.set_scheduler
       Simulator.set_all_processes Simulator.set_ready_queue
       Simulator.set_suspended_queue Simulator.set_terminated_queue
       Simulator.set_new_process_arrived Simulator.set_process_finished
       Scheduler.current_process negb fst snd] in *.

Ltac obj_simpl :=
  cbn [Process.id Process.size Process.arrival_time Process.burst_time
       Process.state Process.remaining_time Process.partition Process.wait_time
       Process.finish_time Process.turnaround_time Process.first_execution_time
       Process.set_state Process.set_remaining_time Process.set_partition
       Process.set_wait_time Process.set_finish_time Process.set_turnaround_time
       Process.set_first_execution_time Process.calculate_statistics
       Partition.id Partition.size Partition.start_address Partition.process
       Partition.internal_fragmentation Partition.set_process
       Partition.set_internal_fragmentation] in *.

(** ** What the admission steps leave alone *)

Lemma only_placement_refl o : only_placement o o.
Proof. by destruct o. Qed.

Lemma only_placement_trans o1 o2 o3 :
  only_placement o1 o2 -> only_placement o2 o3 -> only_placement o1 o3.
Proof. unfold only_placement. intros H12 H23. rewrite H23 at 1. by rewrite H12. Qed.

Lemma only_placement_state st o : only_placement o (Process.set_state st o).
Proof. by destruct o. Qed.

Lemma only_placement_remaining o o' :
  only_placement o o' -> Process.remaining_time o' = Process.remaining_time o.
Proof. by intros ->. Qed.

Lemma only_placement_fet o o' :
  only_placement o o' ->
  Process.first_execution_time o' = Process.first_execution_time o.
Proof. by intros ->. Qed.

Lemma placed_only_placement k p h q :
  only_placement (procs h q) (procs (placed k p h) q).
Proof.
  rewrite placed_procs. case_decide; [subst|apply only_placement_refl].
  by destruct (procs h p).
Qed.

Lemma allocate_process_only_placement partitions p h q :
  only_placement (procs h q)
    (procs (fst (MemoryManager.allocate_process partitions p h)) q).
Proof.
  destruct (allocate_process_cases partitions p h)
    as [[_ ->]|(k & _ & _ & _ & _ & ->)];
    [apply only_placement_refl|apply placed_only_placement].
Qed.

(** An allocation only fills free partitions: occupied ones keep their
    occupant. *)
Lemma allocate_process_occupied partitions p h k q :
  Partition.process (parts h k) = Some q ->
  Partition.process (parts (fst (MemoryManager.allocate_process partitions p h)) k)
  = Some q.
Proof.
  intros Hocc. destruct (allocate_process_cases partitions p h)
    as [[_ ->]|(k' & _ & _ & Hfree & _ & ->)]; [done|].
  cbn [fst]. rewrite placed_parts. case_decide; [subst; congruence|done].
Qed.

Section AdmissionFrame.

Import Simulator.

Lemma admission_frame_refl s : admission_frame s s.
Proof. repeat split; try done. intros q. apply only_placement_refl. Qed.

Lemma admission_frame_trans s1 s2 s3 :
  admission_frame s1 s2 -> admission_frame s2 s3 -> admission_frame s1 s3.
Proof.
  intros (?&?&?&?&?&Hr1&Hm1&Ho1) (?&?&?&?&?&Hr2&Hm2&Ho2).
  repeat split; try congruence; [auto| |auto].
  intros q. eapply only_placement_trans; [apply Hm1|apply Hm2].
Qed.

Lemma admission_frame_remaining s s' q :
  admission_frame s s' ->
  Scheduler.remaining (heap s') q = Scheduler.remaining (heap s) q.
Proof.
  intros (_&_&_&_&_&_&Hm&_). apply only_placement_remaining, Hm.
Qed.

Lemma try_load_to_memory_frame p s : admission_frame s (_try_load_to_memory p s).
Proof.
  unfold _try_load_to_memory, admission_frame.
  destruct (degree_of_multiprogramming s <=? current_dom s).
  - sim_simpl. destruct (py_in p (suspended_queue s)); sim_simpl;
      repeat split; try done.
    all: intros q; heap_simpl; rewrite upd_case; case_decide; subst;
      auto using only_placement_refl, only_placement_state.
  - pose proof (allocate_process_only_placement (partitions s) p (heap s)) as Hrem.
    pose proof (allocate_process_occupied (partitions s) p (heap s)) as Hocc.
    destruct (MemoryManager.allocate_process (partitions s) p (heap s)) as [h1 [|]];
      sim_simpl.
    + destruct (py_in p (ready_queue s)); sim_simpl;
        destruct (py_in p (suspended_queue s)); sim_simpl; repeat split; try done.
      all: intros q Hq; apply elem_of_app; by left.
    + destruct (py_in p (suspended_queue s)); sim_simpl; repeat split; try done.
      all: intros q; heap_simpl; rewrite upd_case; case_decide; subst; auto.
      all: eapply only_placement_trans; [apply Hrem|apply only_placement_state].
Qed.

Lemma arrive_step_frame clk h arrived remaining flag p :
  let r := arrive_step clk (h, arrived, remaining, flag) p in
  (forall q, only_placement (procs h q) (procs r.1.1.1 q))
  /\ parts r.1.1.1 = parts h.
Proof.
  unfold arrive_step.
  destruct (Process.arrival_time (procs h p) =? clk); cbn [fst].
  - split; [|done]. intros q. heap_simpl. rewrite upd_case.
    case_decide; subst; auto using only_placement_refl, only_placement_state.
  - destruct (clk <? Process.arrival_time (procs h p)); cbn [fst];
      (split; [|done]); intros q; apply only_placement_refl.
Qed.

Lemma arrive_loop_frame clk l : forall h arrived remaining flag,
  let r := fold_left (arrive_step clk) l (h, arrived, remaining, flag) in
  (forall q, only_placement (procs h q) (procs r.1.1.1 q))
  /\ parts r.1.1.1 = parts h.
Proof.
  induction l as [|p l IH]; intros h arrived remaining flag; cbv zeta in *.
  { split; [|done]. intros q. apply only_placement_refl. }
  cbn [fold_left].
  pose proof (arrive_step_frame clk h arrived remaining flag p) as Hstep.
  destruct (arrive_step clk (h, arrived, remaining, flag) p)
    as [[[h1 arrived1] remaining1] flag1].
  cbv zeta in Hstep. cbn [fst] in Hstep. destruct Hstep as [Hm1 Hp1].
  destruct (IH h1 arrived1 remaining1 flag1) as [Hm Hp].
  split; [|congruence]. intros q.
  eapply only_placement_trans; [apply Hm1|apply Hm].
Qed.

Lemma try_load_fold_frame l : forall s,
  admission_frame s (fold_left (fun st p => _try_load_to_memory p st) l s).
Proof.
  induction l as [|p l IH]; intros s; [apply admission_frame_refl|].
  cbn [fold_left]. eapply admission_frame_trans; [|apply IH].
  apply try_load_to_memory_frame.
Qed.

Lemma arrive_new_processes_frame s : admission_frame s (_arrive_new_processes s).
Proof.
  unfold _arrive_new_processes.
  pose proof (arrive_loop_frame (clock s) (all_processes s) (heap s) [] []
                (new_process_arrived s)) as [Hrem Hparts].
  destruct (fold_left (arrive_step (clock s)) (all_processes s)
              (heap s, [], [], new_process_arrived s))
    as [[[h arrived] remaining] flag].
  eapply admission_frame_trans; [|apply try_load_fold_frame].
  unfold admission_frame. sim_simpl. repeat split; try done.
  intros k q. cbn [fst] in Hparts. by rewrite Hparts.
Qed.

Lemma load_suspended_loop_frame ps d queue : forall h ready to_remove dom,
  let r := load_suspended_loop ps d queue (h, ready, to_remove, dom) in
  (forall q, q ∈ ready -> q ∈ r.1.1.2)
  /\ (forall q, only_placement (procs h q) (procs r.1.1.1 q))
  /\ (forall k q, Partition.process (parts h k) = Some q ->
                  Partition.process (parts r.1.1.1 k) = Some q).
Proof.
  induction queue as [|p queue IH]; intros h ready to_remove dom; cbv zeta in *.
  { repeat split; try done. intros q. apply only_placement_refl. }
  cbn [load_suspended_loop]. destruct (d <=? dom).
  { repeat split; try done. intros q. apply only_placement_refl. }
  pose proof (allocate_process_only_placement ps p h) as Hrem.
  pose proof (allocate_process_occupied ps p h) as Hocc.
  destruct (MemoryManager.allocate_process ps p h) as [h1 [|]]; cbn [fst] in *.
  - destruct (IH h1 (if negb (py_in p ready) then ready ++ [p] else ready)
                (to_remove ++ [p]) (dom + 1)) as (Hr & Hm & Ho).
    repeat split.
    + intros q Hq. apply Hr. destruct (py_in p ready); cbn; [done|].
      apply elem_of_app. by left.
    + intros q. eapply only_placement_trans; [apply Hrem|apply Hm].
    + intros k q Hk. by apply Ho, Hocc.
  - destruct (IH h1 ready to_remove dom) as (Hr & Hm & Ho).
    repeat split; [done| |].
    + intros q. eapply only_placement_trans; [apply Hrem|apply Hm].
    + intros k q Hk. by apply Ho, Hocc.
Qed.

Lemma try_load_suspended_frame s : admission_frame s (_try_load_suspended s).
Proof.
  unfold _try_load_suspended.
  destruct (degree_of_multiprogramming s <=? current_dom s);
    [apply admission_frame_refl|].
  pose proof (load_suspended_loop_frame (partitions s) (degree_of_multiprogramming s)
                (suspended_queue s) (heap s) (ready_queue s) [] (current_dom s))
    as (Hr & Hm & Ho).
  destruct (load_suspended_loop (partitions s) (degree_of_multiprogramming s)
              (suspended_queue s) (heap s, ready_queue s, [], current_dom s))
    as [[[h ready] to_remove] dom].
  unfold admission_frame. sim_simpl. repeat split; done.
Qed.

End AdmissionFrame.

(** ** The scheduling step, in its two halves *)

Section SchedulingStep.

Import Simulator.

Lemma schedule_process_phases s :
  _schedule_process s = dispatch_phase (preempt_phase s).
Proof. reflexivity. Qed.

Lemma started_procs clk n h q :
  procs (started clk n h) q =
  if decide (q = n)
  then Process.set_state EXECUTING
         (match Process.first_execution_time (procs h n) with
          | None => Process.set_first_execution_time (Some clk) (procs h n)
          | Some _ => procs h n
          end)
  else procs h q.
Proof.
  unfold started. case_decide as Hq; [subst q|].
  - destruct (Process.first_execution_time (procs h n)); heap_simpl; done.
  - destruct (Process.first_execution_time (procs h n)); heap_simpl; done.
Qed.

Lemma started_parts clk n h : parts (started clk n h) = parts h.
Proof.
  unfold started. by destruct (Process.first_execution_time (procs h n)).
Qed.

(** With the processor idle and [n] selected, the dispatch starts [n]
    and takes it off the ready queue. *)
Lemma dispatch_phase_idle s1 n :
  Scheduler.current_process (scheduler s1) = None ->
  Scheduler.select_next_process (heap s1) (ready_queue s1) = Some n ->
  dispatch_phase s1 =
    set_ready_queue (py_remove n (ready_queue s1))
      (set_scheduler (Scheduler.mk (Some n))
         (set_heap (started (clock s1) n (heap s1)) s1)).
Proof.
  intros Hcur Hsel. unfold dispatch_phase. rewrite Hcur, Hsel.
  cbn [Scheduler.start_execution]. sim_simpl.
  apply select_next_process_spec in Hsel as [Hin _].
  apply py_in_true in Hin. rewrite Hin. done.
Qed.

(** When preemption is due, the first half puts the running process
    back on the ready queue, Ready, and leaves the processor idle. *)
Lemma preempt_phase_due s c :
  Scheduler.current_process (scheduler s) = Some c ->
  Scheduler.should_preempt (scheduler s) (heap s) (ready_queue s) = true ->
  preempt_phase s =
    set_ready_queue (if py_in c (ready_queue s) then ready_queue s
                     else ready_queue s ++ [c])
      (set_scheduler (Scheduler.mk None)
         (set_heap (upd_proc c (Process.set_state READY) (heap s)) s)).
Proof.
  intros Hcur Hpre. unfold preempt_phase, Scheduler.preempt_current.
  rewrite Hpre, Hcur. sim_simpl. by destruct (py_in c (ready_queue s)).
Qed.

Lemma preempt_phase_not_due s :
  Scheduler.should_preempt (scheduler s) (heap s) (ready_queue s) = false ->
  preempt_phase s = s.
Proof. intros Hpre. unfold preempt_phase. by rewrite Hpre. Qed.

End SchedulingStep.

(** ** Counting occurrences in the queues *)

Lemma occ_nil p : occ p [] = 0%nat.
Proof. done. Qed.

Lemma occ_cons p q l :
  occ p (q :: l) = ((if decide (q = p) then 1 else 0) + occ p l)%nat.
Proof.
  unfold occ. cbn [count_occ]. destruct (Nat.eq_dec q p); case_decide; done.
Qed.

Lemma occ_app p l1 l2 : occ p (l1 ++ l2) = (occ p l1 + occ p l2)%nat.
Proof. apply count_occ_app. Qed.

Lemma occ_elem p l : p ∈ l <-> (1 <= occ p l)%nat.
Proof. unfold occ. rewrite list_elem_of_In, (count_occ_In Nat.eq_dec). lia. Qed.

Lemma occ_not_elem p l : p ∉ l <-> occ p l = 0%nat.
Proof. rewrite occ_elem. lia. Qed.

Lemma occ_py_remove p x l :
  occ p (py_remove x l) = (if decide (p = x) then occ p l - 1 else occ p l)%nat.
Proof.
  induction l as [|y l IH]; cbn [py_remove].
  - rewrite occ_nil. by case_decide.
  - destruct (Nat.eqb_spec y x) as [->|Hne].
    + rewrite occ_cons. repeat case_decide; subst; try done; lia.
    + rewrite !occ_cons, IH. repeat case_decide; subst; try done; lia.
Qed.

Lemma occ_NoDup l : NoDup l <-> forall p, (occ p l <= 1)%nat.
Proof. rewrite NoDup_ListNoDup. apply (NoDup_count_occ Nat.eq_dec). Qed.

(** ** The engine invariant *)

(** Tactics for the invariant: splitting memberships, turning them into
    counts, and reading the store after an update. *)
Ltac mem_split :=
  repeat match goal with
  | H : _ ∈ _ ++ _ |- _ => apply elem_of_app in H as [H|H]
  | H : _ ∈ [_] |- _ => apply list_elem_of_singleton in H; subst
  | H : _ ∈ _ :: _ |- _ => apply elem_of_cons in H as [H|H]; subst
  | H : _ ∈ [] |- _ => by apply elem_of_nil in H
  end.

Ltac mem_count :=
  repeat match goal with
  | H : _ ∈ py_remove _ _ |- _ => apply occ_elem in H; rewrite occ_py_remove in H
  | H : _ ∈ _ |- _ => apply occ_elem in H
  | H : _ ∉ _ |- _ => apply occ_not_elem in H
  end.

Ltac mem_solve :=
  rewrite ?elem_of_app, ?elem_of_cons, ?list_elem_of_singleton in *; tauto.

Ltac places_arith :=
  unfold places, cur_occ in *; sim_simpl;
  repeat rewrite ?occ_app, ?occ_cons, ?occ_nil, ?occ_py_remove in *;
  repeat (case_decide; subst; try done); try lia.

Ltac places_all Hpl :=
  repeat match goal with
  | q : ProcRef |- _ =>
      lazymatch goal with
      | _ : (places _ _ _ _ _ _ q <= 1)%nat |- _ => fail
      | _ => pose proof (Hpl q)
      end
  end.

Ltac contra Hpl := exfalso; places_all Hpl; mem_count; places_arith.

Ltac read_heap :=
  heap_simpl;
  rewrite ?upd_case, ?placed_procs, ?placed_parts, ?started_procs,
          ?started_parts in *.

(** ** The invariant under the elementary moves *)

(** A process being admitted is sent to the suspended queue. *)
Lemma consistent_suspend positive pending p h cur all ready susp term :
  consistent positive (p :: pending) h cur all ready susp term ->
  consistent positive pending (upd_proc p (Process.set_state SUSPENDED) h) cur all ready
    (susp ++ [p]) term.
Proof.
  intros [Hpl Hnew Hrd Hsu Hcu Hte Hli Hlf].
  assert (Hp : p ∈ (p :: pending) ++ all) by (left).
  destruct (Hnew p Hp) as [Hst Hpt]. clear Hp.
  split.
  - intros q. pose proof (Hpl q). places_arith.
  - intros q Hq. read_heap. case_decide; [subst; mem_split; contra Hpl|].
    apply Hnew. mem_solve.
  - intros q Hq. read_heap. case_decide; [subst; mem_split; contra Hpl|]. auto.
  - intros q Hq. read_heap. case_decide; [subst; by obj_simpl|]. mem_split; auto; done.
  - intros q Hq. read_heap. case_decide; [subst; mem_split; contra Hpl|]. auto.
  - intros q Hq. read_heap. case_decide; [subst; mem_split; contra Hpl|]. auto.
  - intros q k. read_heap. case_decide; [subst; obj_simpl|]; apply Hli.
  - intros HL q. specialize (Hlf HL). read_heap. case_decide; [subst|apply Hlf].
    destruct (Hlf p) as [H1 H2]. split; obj_simpl; [done|]. rewrite H2, Hst. done.
Qed.

(** A process being admitted is placed in a free partition and made ready. *)
Lemma consistent_place positive pending p k h cur all ready susp term :
  consistent positive (p :: pending) h cur all ready susp term ->
  Partition.process (parts h k) = None ->
  consistent positive pending (placed k p h) cur all (ready ++ [p]) susp term.
Proof.
  intros [Hpl Hnew Hrd Hsu Hcu Hte Hli Hlf] Hfree.
  assert (Hp : p ∈ (p :: pending) ++ all) by (left).
  destruct (Hnew p Hp) as [Hst Hpt]. clear Hp.
  split.
  - intros q. pose proof (Hpl q). places_arith.
  - intros q Hq. read_heap. case_decide; [subst; mem_split; contra Hpl|].
    apply Hnew. mem_solve.
  - intros q Hq. read_heap. case_decide; [subst; by obj_simpl|]. mem_split; auto; done.
  - intros q Hq. read_heap. case_decide; [subst; mem_split; contra Hpl|]. auto.
  - intros q Hq. read_heap. case_decide; [subst; mem_split; contra Hpl|]. auto.
  - intros q Hq. read_heap. case_decide; [subst; mem_split; contra Hpl|]. auto.
  - intros q j. read_heap.
    repeat case_decide; subst; obj_simpl; [done| | |apply Hli].
    + split; intros Hx; [congruence|]. apply Hli in Hx. congruence.
    + split; intros Hx; [|congruence]. apply Hli in Hx. congruence.
  - intros HL q. specialize (Hlf HL). read_heap. case_decide; [subst|apply Hlf].
    destruct (Hlf p) as [H1 H2]. split; obj_simpl; [done|]. rewrite H2, Hst. done.
Qed.

(** A suspended process is placed in a free partition and made ready. *)
Lemma consistent_readmit positive p k h cur all ready susp term :
  consistent positive [] h cur all ready susp term ->
  p ∈ susp ->
  Partition.process (parts h k) = None ->
  consistent positive [] (placed k p h) cur all (ready ++ [p]) (py_remove p susp) term.
Proof.
  intros [Hpl Hnew Hrd Hsu Hcu Hte Hli Hlf] Hp Hfree.
  destruct (Hsu p Hp) as [Hst Hpt].
  split.
  - intros q. pose proof (Hpl q). mem_count. places_arith.
  - intros q Hq. read_heap. case_decide; [subst; mem_split; contra Hpl|]. auto.
  - intros q Hq. read_heap. case_decide; [subst; by obj_simpl|]. mem_split; auto; done.
  - intros q Hq. read_heap. case_decide; [subst; mem_split; contra Hpl|].
    eauto using elem_of_py_remove.
  - intros q Hq. read_heap. case_decide; [subst; mem_split; contra Hpl|]. auto.
  - intros q Hq. read_heap. case_decide; [subst; mem_split; contra Hpl|]. auto.
  - intros q j. read_heap.
    repeat case_decide; subst; obj_simpl; [done| | |apply Hli].
    + split; intros Hx; [congruence|]. apply Hli in Hx. congruence.
    + split; intros Hx; [|congruence]. apply Hli in Hx. congruence.
  - intros HL q. specialize (Hlf HL). read_heap. case_decide; [subst|apply Hlf].
    destruct (Hlf p) as [H1 H2]. split; obj_simpl; [done|]. rewrite H2, Hst. done.
Qed.

(** The running process goes back to the ready queue. *)
Lemma consistent_preempt positive c h all ready susp term :
  consistent positive [] h (Some c) all ready susp term ->
  consistent positive [] (upd_proc c (Process.set_state READY) h) None all (ready ++ [c]) susp term.
Proof.
  intros [Hpl Hnew Hrd Hsu Hcu Hte Hli Hlf].
  destruct (Hcu c eq_refl) as (Hst & Hpt & Hfet).
  split.
  - intros q. pose proof (Hpl q). places_arith.
  - intros q Hq. read_heap. case_decide; [subst; mem_split; contra Hpl|]. auto.
  - intros q Hq. read_heap. case_decide; [subst; by obj_simpl|]. mem_split; auto; done.
  - intros q Hq. read_heap. case_decide; [subst; mem_split; contra Hpl|]. auto.
  - done.
  - intros q Hq. read_heap. case_decide; [subst; mem_split; contra Hpl|]. auto.
  - intros q k. read_heap. case_decide; [subst; obj_simpl|]; apply Hli.
  - intros HL q. specialize (Hlf HL). read_heap. case_decide; [subst|apply Hlf].
    destruct (Hlf c) as [H1 H2]. split; obj_simpl; [done|]. rewrite H2, Hst. done.
Qed.

(** A ready process is given the processor. *)
Lemma consistent_dispatch positive clk n h all ready susp term :
  consistent positive [] h None all ready susp term ->
  n ∈ ready ->
  consistent positive [] (started clk n h) (Some n) all (py_remove n ready) susp term.
Proof.
  intros [Hpl Hnew Hrd Hsu Hcu Hte Hli Hlf] Hn.
  destruct (Hrd n Hn) as (Hst & Hpt).
  split.
  - intros q. pose proof (Hpl q). mem_count. places_arith.
  - intros q Hq. read_heap. case_decide; [subst; mem_split; contra Hpl|]. auto.
  - intros q Hq. read_heap. case_decide; [subst; mem_split; contra Hpl|].
    eauto using elem_of_py_remove.
  - intros q Hq. read_heap. case_decide; [subst; mem_split; contra Hpl|]. auto.
  - intros q [= <-]. read_heap. rewrite decide_True by done.
    destruct (Process.first_execution_time (procs h n)) eqn:Hf; obj_simpl; rewrite ?Hf; done.
  - intros q Hq. read_heap. case_decide; [subst; mem_split; contra Hpl|]. auto.
  - intros q k. read_heap. case_decide; [subst|apply Hli].
    destruct (Process.first_execution_time (procs h n)); obj_simpl; apply Hli.
  - intros HL q. specialize (Hlf HL). read_heap. case_decide; [subst|apply Hlf].
    destruct (Hlf n) as [H1 H2].
    destruct (Process.first_execution_time (procs h n)); split; obj_simpl; try done;
     rewrite H2, Hst; done.
Qed.

Lemma calculate_statistics_eq (o : Process.t) :
  Process.calculate_statistics o =
  Process.set_wait_time
    (match Process.first_execution_time o with
     | Some fet => fet - Process.arrival_time o
     | None => (Process.finish_time o - Process.arrival_time o) - Process.burst_time o
     end)
    (Process.set_turnaround_time (Process.finish_time o - Process.arrival_time o) o).
Proof. destruct o as [? ? ? ? ? ? ? ? ? ? [f|]]; reflexivity. Qed.

Lemma finished_procs clk c k h q :
  Process.partition (procs h c) = Some k ->
  Partition.process (parts h k) = Some c ->
  procs (finished clk c h) q =
  if decide (q = c) then finished_process clk (procs h c) else procs h q.
Proof.
  intros Hck Hkc. unfold finished, MemoryManager.free_process, ran.
  heap_simpl.
  rewrite calculate_statistics_eq. obj_simpl. rewrite Hck.
  unfold free. heap_simpl. rewrite Hkc. heap_simpl.
  case_decide as Hq; [subst q|]; heap_simpl; [|done].
  unfold finished_process. rewrite !calculate_statistics_eq. by destruct (procs h c).
Qed.

Lemma finished_parts clk c k h j :
  Process.partition (procs h c) = Some k ->
  Partition.process (parts h k) = Some c ->
  parts (finished clk c h) j =
  if decide (j = k)
  then Partition.set_internal_fragmentation 0 (Partition.set_process None (parts h k))
  else parts h j.
Proof.
  intros Hck Hkc. unfold finished, MemoryManager.free_process, ran.
  heap_simpl.
  rewrite calculate_statistics_eq. obj_simpl. rewrite Hck.
  unfold free. heap_simpl. rewrite Hkc. heap_simpl.
  case_decide as Hj; [subst j|]; heap_simpl; done.
Qed.

Lemma consistent_run positive c h all ready susp term :
  consistent positive [] h (Some c) all ready susp term ->
  1 < Process.remaining_time (procs h c) ->
  consistent positive [] (ran c h) (Some c) all ready susp term.
Proof.
  intros [Hpl Hnew Hrd Hsu Hcu Hte Hli Hlf] Hrem.
  destruct (Hcu c eq_refl) as (Hst & Hpt & Hfet). unfold ran.
  split.
  - done.
  - intros q Hq. read_heap. case_decide; [subst; mem_split; contra Hpl|]. auto.
  - intros q Hq. read_heap. case_decide; [subst; mem_split; contra Hpl|]. auto.
  - intros q Hq. read_heap. case_decide; [subst; mem_split; contra Hpl|]. auto.
  - intros q [= <-]. read_heap. by obj_simpl.
  - intros q Hq. read_heap. case_decide; [subst; mem_split; contra Hpl|]. auto.
  - intros q k. read_heap. case_decide; [subst; obj_simpl|]; apply Hli.
  - intros HL q. specialize (Hlf HL). read_heap. case_decide; [subst|apply Hlf].
    split; obj_simpl; [lia|]. rewrite Hst. split; [lia|done].
Qed.

Lemma consistent_finish positive clk c h all ready susp term :
  consistent positive [] h (Some c) all ready susp term ->
  Process.remaining_time (procs h c) <= 1 ->
  consistent positive [] (finished clk c h) None all ready susp (term ++ [c]).
Proof.
  intros [Hpl Hnew Hrd Hsu Hcu Hte Hli Hlf] Hrem.
  destruct (Hcu c eq_refl) as (Hst & Hpt & Hfet).
  destruct (Process.partition (procs h c)) as [k|] eqn:Hck; [clear Hpt|done].
  assert (Hkc : Partition.process (parts h k) = Some c) by by apply Hli.
  assert (Hfin : Process.state (finished_process clk (procs h c)) = TERMINATED
                 /\ Process.partition (finished_process clk (procs h c)) = None).
  { unfold finished_process. rewrite calculate_statistics_eq. by obj_simpl. }
  destruct Hfin as (Hfs & Hfp).
  split.
  - intros q. pose proof (Hpl q). places_arith.
  - intros q Hq. rewrite (finished_procs clk c k h q Hck Hkc).
    case_decide; [subst; mem_split; contra Hpl|]. auto.
  - intros q Hq. rewrite (finished_procs clk c k h q Hck Hkc).
    case_decide; [subst; mem_split; contra Hpl|]. auto.
  - intros q Hq. rewrite (finished_procs clk c k h q Hck Hkc).
    case_decide; [subst; mem_split; contra Hpl|]. auto.
  - done.
  - intros q Hq. rewrite (finished_procs clk c k h q Hck Hkc).
    case_decide; [by subst|]. mem_split; auto; done.
  - intros q j. rewrite (finished_procs clk c k h q Hck Hkc),
      (finished_parts clk c k h j Hck Hkc).
    repeat case_decide; subst; obj_simpl; rewrite ?Hfp; [done| | |apply Hli].
    + split; [done|]. intros Hx. apply Hli in Hx. congruence.
    + split; [|done]. intros Hx. apply Hli in Hx. congruence.
  - intros HL q. specialize (Hlf HL). rewrite (finished_procs clk c k h q Hck Hkc).
    case_decide; [subst|apply Hlf]. obj_simpl.
    assert (Hone : Process.remaining_time (procs h c) = 1).
    { destruct (Hlf c) as [H0 H1]. rewrite Hst in H1.
      assert (Process.remaining_time (procs h c) <> 0) by (intros E; by apply H1 in E).
      lia. }
    unfold alive_or_done, finished_process. rewrite calculate_statistics_eq.
    obj_simpl. rewrite Hone. done.
Qed.

Lemma consistent_same_core positive pending h h' cur all ready susp term :
  same_core h h' ->
  consistent positive pending h cur all ready susp term ->
  consistent positive pending h' cur all ready susp term.
Proof.
  intros [Hp Hk] [Hpl Hnew Hrd Hsu Hcu Hte Hli Hlf].
  split; try done.
  - intros q Hq. destruct (Hp q) as (-> & -> & _). auto.
  - intros q Hq. destruct (Hp q) as (-> & -> & _). auto.
  - intros q Hq. destruct (Hp q) as (-> & -> & _). auto.
  - intros q Hq. destruct (Hp q) as (-> & -> & _ & ->). auto.
  - intros q Hq. destruct (Hp q) as (-> & -> & _). auto.
  - intros q k. destruct (Hp q) as (_ & -> & _). rewrite Hk. apply Hli.
  - intros HL q. unfold alive_or_done. destruct (Hp q) as (-> & _ & -> & _).
    by apply Hlf.
Qed.

Lemma consistent_places_le positive pending pending' h cur all all' ready susp term :
  (forall q, (occ q pending' + occ q all' <= occ q pending + occ q all)%nat) ->
  consistent positive pending h cur all ready susp term ->
  consistent positive pending' h cur all' ready susp term.
Proof.
  intros Hle [Hpl Hnew Hrd Hsu Hcu Hte Hli Hlf].
  split; try done.
  - intros q. specialize (Hpl q). specialize (Hle q). unfold places in *. lia.
  - intros q Hq. apply Hnew. specialize (Hle q).
    apply occ_elem. apply occ_elem in Hq. rewrite occ_app in *. lia.
Qed.

(** ** The invariant under the engine's operations *)

Section EngineInvariant.

  Import Simulator.

Lemma Inv_try_load_to_memory positive pending p s :
  Inv positive (p :: pending) s -> Inv positive pending (_try_load_to_memory p s).
Proof.
  intros HI. unfold Inv in *.
  assert (Hsus : py_in p (suspended_queue s) = false).
  { apply py_in_false. intros Hin. destruct HI as [Hpl _ _ _ _ _ _ _]. contra Hpl. }
  assert (Hrdy : py_in p (ready_queue s) = false).
  { apply py_in_false. intros Hin. destruct HI as [Hpl _ _ _ _ _ _ _]. contra Hpl. }
  unfold _try_load_to_memory.
  destruct (degree_of_multiprogramming s <=? current_dom s).
  - sim_simpl. rewrite Hsus. sim_simpl. by apply consistent_suspend.
  - destruct (allocate_process_cases (partitions s) p (heap s))
      as [[_ ->]|(k & _ & _ & Hfree & _ & ->)].
    + sim_simpl. rewrite Hsus. sim_simpl. by apply consistent_suspend.
    + sim_simpl. rewrite Hrdy. sim_simpl. rewrite Hsus. sim_simpl.
      by apply consistent_place.
Qed.

Lemma Inv_try_load_fold positive pending : forall s,
  Inv positive pending s ->
  Inv positive [] (fold_left (fun st p => _try_load_to_memory p st) pending s).
Proof.
  induction pending as [|p pending IH]; intros s HI; [done|].
  cbn [fold_left]. by apply IH, Inv_try_load_to_memory.
Qed.

Lemma mark_new_procs l : forall h q,
  procs (mark_new l h) q =
  if decide (q ∈ l) then Process.set_state NEW (procs h q) else procs h q.
Proof.
  induction l as [|p l IH]; intros h q; cbn [mark_new fold_left].
  - rewrite decide_False; [done|]. apply not_elem_of_nil.
  - fold (mark_new l (upd_proc p (Process.set_state NEW) h)). rewrite IH.
    heap_simpl. rewrite !upd_case.
    repeat case_decide; subst; try done; exfalso; mem_solve.
Qed.

Lemma mark_new_parts l : forall h, parts (mark_new l h) = parts h.
Proof.
  induction l as [|p l IH]; intros h; cbn [mark_new fold_left]; [done|].
  fold (mark_new l (upd_proc p (Process.set_state NEW) h)). by rewrite IH.
Qed.

Lemma arrive_loop_closed clk l : forall h arrived remaining flag,
  exists flag',
  fold_left (arrive_step clk) l (h, arrived, remaining, flag) =
  (mark_new (filter (fun p => Process.arrival_time (procs h p) = clk) l) h,
   arrived ++ filter (fun p => Process.arrival_time (procs h p) = clk) l,
   remaining ++ filter (fun p => clk < Process.arrival_time (procs h p)) l,
   flag').
Proof.
  induction l as [|p l IH]; intros h arrived remaining flag.
  { exists flag. cbn. by rewrite !app_nil_r. }
  cbn [fold_left]. unfold arrive_step at 2.
  destruct (Z.eqb_spec (Process.arrival_time (procs h p)) clk) as [Heq|Hne].
  - destruct (IH (upd_proc p (Process.set_state NEW) h) (arrived ++ [p]) remaining true)
      as [flag' ->].
    exists flag'.
    assert (Hext : forall q, Process.arrival_time
                     (procs (upd_proc p (Process.set_state NEW) h) q)
                   = Process.arrival_time (procs h q)).
    { intros q. heap_simpl. rewrite upd_case. by case_decide; subst. }
    rewrite !filter_cons. rewrite decide_True by done.
    rewrite (decide_False (P := clk < _)) by lia.
    rewrite (list_filter_iff _ (fun p => Process.arrival_time (procs h p) = clk))
      by (intros q; by rewrite Hext).
    rewrite (list_filter_iff (fun p0 => clk < Process.arrival_time (procs (upd_proc p (Process.set_state NEW) h) p0)) (fun p => clk < Process.arrival_time (procs h p)))
      by (intros q; by rewrite Hext).
    rewrite <- app_assoc. done.
  - destruct (Z.ltb_spec clk (Process.arrival_time (procs h p))) as [Hlt|Hge].
    + destruct (IH h arrived (remaining ++ [p]) flag) as [flag' ->].
      exists flag'. rewrite !filter_cons. rewrite decide_False by done.
      rewrite decide_True by done. by rewrite <- app_assoc.
    + destruct (IH h arrived remaining flag) as [flag' ->].
      exists flag'. rewrite !filter_cons. rewrite decide_False by done.
      rewrite decide_False by lia. done.
Qed.

Lemma occ_filter_excl (P Q : ProcRef -> Prop) `{!forall x, Decision (P x)}
    `{!forall x, Decision (Q x)} (l : list ProcRef) (q : ProcRef) :
  (forall x, P x -> Q x -> False) ->
  (occ q (filter P l) + occ q (filter Q l) <= occ q l)%nat.
Proof.
  intros Hex. induction l as [|x l IH]; [done|].
  rewrite !filter_cons, occ_cons.
  destruct (decide (P x)), (decide (Q x)); rewrite ?occ_cons; try lia.
  by destruct (Hex x).
Qed.

Lemma Inv_arrive_new_processes positive s : Inv positive [] s -> Inv positive [] (_arrive_new_processes s).
Proof.
  intros HI. unfold _arrive_new_processes.
  destruct (arrive_loop_closed (clock s) (all_processes s) (heap s) [] []
              (new_process_arrived s)) as [flag ->].
  apply Inv_try_load_fold. unfold Inv in *. sim_simpl. rewrite !app_nil_l.
  set (arrived := filter _ _). set (remaining := filter _ _).
  apply (consistent_same_core positive _ (heap s)).
  - split; [|intros k; by rewrite mark_new_parts].
    intros q. rewrite mark_new_procs. case_decide as Hq; [|done].
    obj_simpl. repeat split; try done.
    apply list_elem_of_filter in Hq as [_ Hq].
    destruct HI as [_ Hnew _ _ _ _ _ _]. symmetry. by apply Hnew.
  - eapply consistent_places_le; [|exact HI].
    intros q. rewrite occ_nil. apply occ_filter_excl. intros x; lia.
Qed.

Lemma without_snoc to_remove p susp :
  without (to_remove ++ [p]) susp = py_remove p (without to_remove susp).
Proof. unfold without. by rewrite fold_left_app. Qed.

Lemma load_suspended_loop_consistent positive ps d cur all term susp queue :
  forall h ready to_remove dom,
  consistent positive [] h cur all ready (without to_remove susp) term ->
  (forall q, (occ q queue <= occ q (without to_remove susp))%nat) ->
  let r := load_suspended_loop ps d queue (h, ready, to_remove, dom) in
  consistent positive [] r.1.1.1 cur all r.1.1.2 (without r.1.2 susp) term.
Proof.
  induction queue as [|p queue IH]; intros h ready to_remove dom HI Hocc;
    cbv zeta in *; [done|].
  cbn [load_suspended_loop]. destruct (d <=? dom); [done|].
  assert (Hp : p ∈ without to_remove susp).
  { apply occ_elem. specialize (Hocc p). rewrite occ_cons, decide_True in Hocc by done.
    lia. }
  assert (Hrdy : py_in p ready = false).
  { apply py_in_false. intros Hin. destruct HI as [Hpl _ _ _ _ _ _ _]. contra Hpl. }
  destruct (allocate_process_cases ps p h)
    as [[_ ->]|(k & _ & _ & Hfree & _ & ->)].
  - apply IH; [done|]. intros q. specialize (Hocc q). rewrite occ_cons in Hocc. lia.
  - rewrite Hrdy. cbn [negb]. apply IH.
    + rewrite without_snoc. by apply consistent_readmit.
    + intros q. rewrite without_snoc, occ_py_remove. specialize (Hocc q).
      rewrite occ_cons in Hocc. repeat case_decide; subst; try done; lia.
Qed.

Lemma Inv_try_load_suspended positive s : Inv positive [] s -> Inv positive [] (_try_load_suspended s).
Proof.
  intros HI. unfold _try_load_suspended.
  destruct (degree_of_multiprogramming s <=? current_dom s); [done|].
  pose proof (load_suspended_loop_consistent positive (partitions s)
                (degree_of_multiprogramming s)
                (Scheduler.current_process (scheduler s)) (all_processes s)
                (terminated_queue s) (suspended_queue s) (suspended_queue s)
                (heap s) (ready_queue s) [] (current_dom s) HI (fun q => le_n _)) as Hloop.
  destruct (load_suspended_loop (partitions s) (degree_of_multiprogramming s)
              (suspended_queue s) (heap s, ready_queue s, [], current_dom s))
    as [[[h ready] to_remove] dom].
  unfold Inv. sim_simpl. exact Hloop.
Qed.

Lemma Inv_schedule_process positive s : Inv positive [] s -> Inv positive [] (_schedule_process s).
Proof.
  intros HI. rewrite schedule_process_phases.
  assert (HI1 : Inv positive [] (preempt_phase s)).
  { destruct (Scheduler.should_preempt (scheduler s) (heap s) (ready_queue s)) eqn:Hpre.
    - pose proof Hpre as Hpre'. apply should_preempt_iff in Hpre' as (c & Hc & _).
      rewrite (preempt_phase_due s c Hc Hpre).
      assert (Hrdy : py_in c (ready_queue s) = false).
      { apply py_in_false. intros Hin. unfold Inv in HI. rewrite Hc in HI.
        destruct HI as [Hpl _ _ _ _ _ _ _]. contra Hpl. }
      rewrite Hrdy. unfold Inv in *. sim_simpl. rewrite Hc in HI.
      by apply consistent_preempt.
    - by rewrite preempt_phase_not_due. }
  revert HI1. generalize (preempt_phase s). clear s HI. intros s HI.
  destruct (Scheduler.current_process (scheduler s)) as [c|] eqn:Hc.
  { unfold dispatch_phase. by rewrite Hc. }
  destruct (Scheduler.select_next_process (heap s) (ready_queue s)) as [n|] eqn:Hn.
  - rewrite (dispatch_phase_idle s n Hc Hn).
    apply select_next_process_spec in Hn as [Hin _].
    unfold Inv in *. sim_simpl. rewrite Hc in HI. by apply consistent_dispatch.
  - unfold dispatch_phase. by rewrite Hc, Hn.
Qed.

Lemma only_wait_refl o : only_wait o o.
Proof. by destruct o. Qed.

Lemma only_wait_trans o1 o2 o3 : only_wait o1 o2 -> only_wait o2 o3 -> only_wait o1 o3.
Proof. unfold only_wait. intros H12 H23. rewrite H23 at 1. by rewrite H12. Qed.

Lemma wait_step_only_wait eid h p :
  (forall q, only_wait (procs h q) (procs (wait_step eid h p) q))
  /\ parts (wait_step eid h p) = parts h.
Proof.
  unfold wait_step.
  destruct (_ && _); (split; [|done]); intros q; [|apply only_wait_refl].
  heap_simpl. rewrite upd_case. case_decide; [subst|apply only_wait_refl].
  by destruct (procs h p).
Qed.

Lemma wait_fold_only_wait eid l : forall h,
  (forall q, only_wait (procs h q) (procs (fold_left (wait_step eid) l h) q))
  /\ parts (fold_left (wait_step eid) l h) = parts h.
Proof.
  induction l as [|p l IH]; intros h.
  { split; [|done]. intros q. apply only_wait_refl. }
  cbn [fold_left]. destruct (IH (wait_step eid h p)) as [Hq Hp].
  destruct (wait_step_only_wait eid h p) as [Hq1 Hp1].
  split; [|congruence]. intros q. eapply only_wait_trans; [apply Hq1|apply Hq].
Qed.

Lemma only_wait_same_core h h' :
  (forall q, only_wait (procs h q) (procs h' q)) -> parts h' = parts h ->
  same_core h h'.
Proof.
  intros Hq Hp. split; [|intros k; by rewrite Hp].
  intros q. rewrite (Hq q). done.
Qed.

Lemma update_wait_times_frame s :
  (forall q, only_wait (procs (heap s) q) (procs (heap (_update_wait_times s)) q))
  /\ parts (heap (_update_wait_times s)) = parts (heap s)
  /\ _update_wait_times s = set_heap (heap (_update_wait_times s)) s.
Proof.
  unfold _update_wait_times. sim_simpl.
  destruct (wait_fold_only_wait
              (match Scheduler.current_process (scheduler s) with
               | Some c => Some (Process.id (procs (heap s) c))
               | None => None
               end) (ready_queue s ++ suspended_queue s) (heap s)) as [Hq Hp].
  done.
Qed.

Lemma Inv_update_wait_times positive s : Inv positive [] s -> Inv positive [] (_update_wait_times s).
Proof.
  intros HI. destruct (update_wait_times_frame s) as (Hq & Hp & ->).
  unfold Inv in *. sim_simpl.
  eapply consistent_same_core; [|exact HI]. by apply only_wait_same_core.
Qed.

Lemma execute_tick_idle s :
  Scheduler.current_process (scheduler s) = None ->
  _execute_tick s = set_scheduler (scheduler s) (set_heap (heap s) s).
Proof.
  intros Hc. unfold _execute_tick, Scheduler.execute_tick. by rewrite Hc.
Qed.

Lemma execute_tick_run s c :
  Scheduler.current_process (scheduler s) = Some c ->
  1 < Scheduler.remaining (heap s) c ->
  _execute_tick s = set_scheduler (scheduler s) (set_heap (ran c (heap s)) s).
Proof.
  intros Hc Hrem. unfold _execute_tick, Scheduler.execute_tick. rewrite Hc.
  heap_simpl. obj_simpl. unfold Scheduler.remaining in Hrem.
  destruct (Z.leb_spec (Process.remaining_time (procs (heap s) c) - 1) 0); [lia|].
  done.
Qed.

Lemma execute_tick_finish s c :
  Scheduler.current_process (scheduler s) = Some c ->
  Scheduler.remaining (heap s) c <= 1 ->
  _execute_tick s =
    set_process_finished true
      (set_scheduler (Scheduler.mk None)
         (set_terminated_queue
            (if py_in c (terminated_queue s) then terminated_queue s
             else terminated_queue s ++ [c])
            (set_heap (finished (clock s) c (heap s)) s))).
Proof.
  intros Hc Hrem. unfold _execute_tick, Scheduler.execute_tick. rewrite Hc.
  heap_simpl. obj_simpl. unfold Scheduler.remaining in Hrem.
  destruct (Z.leb_spec (Process.remaining_time (procs (heap s) c) - 1) 0) as [Hle|]; [|lia].
  heap_simpl. obj_simpl.
  destruct (Z.leb_spec (Process.remaining_time (procs (heap s) c) - 1) 0); [|lia].
  rewrite bool_decide_eq_true_2 by reflexivity. cbn [andb]. sim_simpl.
  unfold finished, ran.
  destruct (py_in c (terminated_queue s)); sim_simpl; reflexivity.
Qed.

Lemma Inv_execute_tick positive s : Inv positive [] s -> Inv positive [] (_execute_tick s).
Proof.
  intros HI.
  destruct (Scheduler.current_process (scheduler s)) as [c|] eqn:Hc.
  - destruct (Z.lt_ge_cases 1 (Scheduler.remaining (heap s) c)) as [Hrun|Hfin].
    + rewrite (execute_tick_run s c Hc Hrun). unfold Inv in *. sim_simpl.
      rewrite Hc in *. by apply consistent_run.
    + rewrite (execute_tick_finish s c Hc Hfin).
      assert (Hterm : py_in c (terminated_queue s) = false).
      { apply py_in_false. intros Hin. unfold Inv in HI. rewrite Hc in HI.
        destruct HI as [Hpl _ _ _ _ _ _ _]. contra Hpl. }
      rewrite Hterm. unfold Inv in *. sim_simpl. rewrite Hc in HI.
      by apply consistent_finish.
  - by rewrite (execute_tick_idle s Hc).
Qed.

Lemma tick_stages s :
  tick s = set_clock (clock (_execute_tick (before_execute s)) + 1)
             (_execute_tick (before_execute s)).
Proof. unfold tick, before_execute. reflexivity. Qed.

Lemma Inv_set_clock positive pending v s : Inv positive pending s -> Inv positive pending (set_clock v s).
Proof. done. Qed.

Lemma Inv_reset_flags positive pending s :
  Inv positive pending s ->
  Inv positive pending (set_process_finished false (set_new_process_arrived false s)).
Proof. done. Qed.

Lemma Inv_before_execute positive s : Inv positive [] s -> Inv positive [] (before_execute s).
Proof.
  intros HI. unfold before_execute.
  apply Inv_update_wait_times, Inv_schedule_process, Inv_try_load_suspended,
    Inv_arrive_new_processes, Inv_reset_flags. exact HI.
Qed.

Lemma Inv_tick positive s : Inv positive [] s -> Inv positive [] (tick s).
Proof.
  intros HI. rewrite tick_stages.
  apply Inv_set_clock, Inv_execute_tick, Inv_before_execute. exact HI.
Qed.

Lemma store_of_new_process rows ks q :
  let o := procs (store_of (map new_process rows) ks) q in
  Process.state o = NEW /\ Process.partition o = None
  /\ Process.first_execution_time o = None
  /\ Process.remaining_time o = Process.burst_time o
  /\ (positive_bursts rows -> 0 < Process.burst_time o).
Proof.
  cbn [procs store_of]. revert q.
  induction rows as [|[[[i sz] a] b] rows IH]; intros q.
  - destruct q; cbn; repeat split; done.
  - destruct q as [|q]; cbn [map nth].
    + cbn. repeat split; try done. intros Hpos. by inversion Hpos.
    + destruct (IH q) as (?&?&?&?&Hb). repeat split; try done.
      intros Hpos. apply Hb. by inversion Hpos.
Qed.

Lemma store_of_new_partition ps config k :
  Partition.process (parts (store_of ps (map new_partition config)) k) = None.
Proof.
  cbn [parts store_of]. revert k.
  induction config as [|[[i sz] a] config IH]; intros k.
  - by destruct k.
  - destruct k as [|k]; cbn [map nth]; [done|apply IH].
Qed.

Lemma Inv_startup rows config degree :
  Inv (positive_bursts rows) [] (startup rows config degree).
Proof.
  unfold Inv, startup, load_processes. sim_simpl.
  split.
  - intros p. unfold places, cur_occ. rewrite !occ_nil.
    pose proof (proj1 (occ_NoDup (seq 0 (length rows))) (NoDup_seq _ _) p). lia.
  - intros p _. destruct (store_of_new_process rows (map new_partition config) p)
      as (?&?&_). done.
  - intros p Hp. by apply elem_of_nil in Hp.
  - intros p Hp. by apply elem_of_nil in Hp.
  - done.
  - intros p Hp. by apply elem_of_nil in Hp.
  - intros p k.
    destruct (store_of_new_process rows (map new_partition config) p) as (_&->&_).
    by rewrite store_of_new_partition.
  - intros Hpos p.
    destruct (store_of_new_process rows (map new_partition config) p)
      as (Hst&_&_&Hrem&Hb).
    specialize (Hb Hpos). unfold alive_or_done. rewrite Hrem, Hst.
    split; [lia|]. split; [lia|done].
Qed.

Lemma Inv_reachable rows config degree s :
  reachable (startup rows config degree) s -> Inv (positive_bursts rows) [] s.
Proof.
  induction 1 as [|s _ IH]; [apply Inv_startup|by apply Inv_tick].
Qed.

Lemma Inv_operation positive s s' :
  operation s s' -> Inv positive [] s -> Inv positive [] s'.
Proof.
  destruct 1; auto using Inv_reset_flags, Inv_arrive_new_processes,
    Inv_try_load_suspended, Inv_schedule_process, Inv_update_wait_times,
    Inv_execute_tick, Inv_set_clock.
Qed.

Lemma Inv_running positive s0 s :
  Inv positive [] s0 -> running s0 s -> Inv positive [] s.
Proof.
  intros H0. induction 1 as [|s s' _ IH Hop]; [done|].
  by apply (Inv_operation positive s s').
Qed.

Lemma running_trans s0 s1 s2 : running s0 s1 -> running s1 s2 -> running s0 s2.
Proof.
  intros H1. induction 1 as [|s s' _ IH Hop]; [done|].
  by apply (running_step s0 s s').
Qed.

Lemma running_tick s : running s (tick s).
Proof.
  rewrite tick_stages. unfold before_execute.
  eapply running_step; [|apply op_clock].
  eapply running_step; [|apply op_execute].
  eapply running_step; [|apply op_wait].
  eapply running_step; [|apply op_schedule].
  eapply running_step; [|apply op_load_suspended].
  eapply running_step; [|apply op_arrive].
  eapply running_step; [|apply op_reset].
  apply running_start.
Qed.

Lemma reachable_running s0 s : reachable s0 s -> running s0 s.
Proof.
  induction 1 as [|s _ IH]; [apply running_start|].
  eapply running_trans; [exact IH|apply running_tick].
Qed.

End EngineInvariant.

(** ** Queue membership *)

Import Simulator.

(** A process held in one place is in no other, and in no queue twice. *)
Lemma consistent_disjoint positive h cur all ready susp term :
  consistent positive [] h cur all ready susp term ->
  (forall p, p ∈ ready -> p ∉ susp)
  /\ (forall p, p ∈ ready -> p ∉ term)
  /\ (forall p, p ∈ susp -> p ∉ term)
  /\ (forall p, cur = Some p -> (p ∉ ready) /\ (p ∉ susp) /\ (p ∉ term))
  /\ NoDup ready /\ NoDup susp /\ NoDup term.
Proof.
  intros [Hpl _ _ _ _ _ _ _].
  split; [intros p H1 H2; contra Hpl|].
  split; [intros p H1 H2; contra Hpl|].
  split; [intros p H1 H2; contra Hpl|].
  split; [intros p ->; repeat split; intros H1; contra Hpl|].
  repeat split; apply occ_NoDup; intros p; specialize (Hpl p);
    unfold places in Hpl; lia.
Qed.

(** C7.  In every state the engine reaches at a tick boundary, the ready
    queue, the suspended queue, the terminated queue and the scheduler's
    current process are pairwise disjoint (and no queue holds a process
    twice). *)
Theorem queues_pairwise_disjoint (rows : list process_row)
    (config : list partition_row) (degree : Z) (s : Simulator.t) :
  reachable (startup rows config degree) s ->
  (forall p, p ∈ ready_queue s -> p ∉ suspended_queue s)
  /\ (forall p, p ∈ ready_queue s -> p ∉ terminated_queue s)
  /\ (forall p, p ∈ suspended_queue s -> p ∉ terminated_queue s)
  /\ (forall p, Scheduler.current_process (scheduler s) = Some p ->
        (p ∉ ready_queue s) /\ (p ∉ suspended_queue s)
        /\ (p ∉ terminated_queue s))
  /\ NoDup (ready_queue s) /\ NoDup (suspended_queue s)
  /\ NoDup (terminated_queue s).
Proof.
  intros Hreach. apply Inv_reachable in Hreach.
  exact (consistent_disjoint _ _ _ _ _ _ _ Hreach).
Qed.

Lemma queues_pairwise_disjoint_witness :
  Scheduler.current_process (scheduler (tick (tick short_arrival))) = Some 1%nat
  /\ ready_queue (tick (tick short_arrival)) = [0%nat]
  /\ (1%nat ∉ ready_queue (tick (tick short_arrival))).
Proof.
  pose proof (queues_pairwise_disjoint
                [(1, 50, 0, 10); (2, 50, 1, 3)] [(1, 100, 100); (2, 100, 200)] 5
                (tick (tick short_arrival))
                (reachable_tick _ _ (reachable_tick _ _ (reachable_start _))))
    as (_ & _ & _ & Hcur & _).
  assert (Hc : Scheduler.current_process (scheduler (tick (tick short_arrival)))
               = Some 1%nat) by (vm_compute; reflexivity).
  split; [exact Hc|]. split; [vm_compute; reflexivity|].
  exact (proj1 (Hcur 1%nat Hc)).
Defined.

(** ** First execution times *)

Lemma fet_kept_refl h : fet_kept h h.
Proof. by intros q f. Qed.

Lemma fet_kept_trans h1 h2 h3 : fet_kept h1 h2 -> fet_kept h2 h3 -> fet_kept h1 h3.
Proof. intros H12 H23 q f Hq. by apply H23, H12. Qed.

Lemma admission_frame_fet_kept s s' : admission_frame s s' -> fet_kept (heap s) (heap s').
Proof.
  intros (_&_&_&_&_&_&Hm&_) q f Hq. by rewrite (only_placement_fet _ _ (Hm q)).
Qed.

Lemma preempt_phase_procs s q :
  exists st, procs (heap (preempt_phase s)) q = Process.set_state st (procs (heap s) q).
Proof.
  destruct (Scheduler.should_preempt (scheduler s) (heap s) (ready_queue s)) eqn:Hpre.
  - pose proof Hpre as Hpre'. apply should_preempt_iff in Hpre' as (c & Hc & _).
    rewrite (preempt_phase_due s c Hc Hpre). sim_simpl. heap_simpl.
    rewrite upd_case. case_decide; [by eexists|].
    exists (Process.state (procs (heap s) q)). by destruct (procs (heap s) q).
  - rewrite (preempt_phase_not_due s Hpre).
    exists (Process.state (procs (heap s) q)). by destruct (procs (heap s) q).
Qed.

Lemma preempt_phase_parts s : parts (heap (preempt_phase s)) = parts (heap s).
Proof.
  destruct (Scheduler.should_preempt (scheduler s) (heap s) (ready_queue s)) eqn:Hpre.
  - pose proof Hpre as Hpre'. apply should_preempt_iff in Hpre' as (c & Hc & _).
    by rewrite (preempt_phase_due s c Hc Hpre).
  - by rewrite (preempt_phase_not_due s Hpre).
Qed.

Lemma dispatch_phase_cases s :
  dispatch_phase s = s
  \/ exists n, Scheduler.current_process (scheduler s) = None
       /\ Scheduler.select_next_process (heap s) (ready_queue s) = Some n
       /\ dispatch_phase s =
            set_ready_queue (py_remove n (ready_queue s))
              (set_scheduler (Scheduler.mk (Some n))
                 (set_heap (started (clock s) n (heap s)) s)).
Proof.
  destruct (Scheduler.current_process (scheduler s)) as [c|] eqn:Hc.
  { left. unfold dispatch_phase. by rewrite Hc. }
  destruct (Scheduler.select_next_process (heap s) (ready_queue s)) as [n|] eqn:Hn.
  - right. exists n. repeat split; try done. by apply dispatch_phase_idle.
  - left. unfold dispatch_phase. by rewrite Hc, Hn.
Qed.

Lemma schedule_process_fet_kept s : fet_kept (heap s) (heap (_schedule_process s)).
Proof.
  rewrite schedule_process_phases. intros q f Hq.
  assert (Hq1 : Process.first_execution_time (procs (heap (preempt_phase s)) q) = Some f).
  { destruct (preempt_phase_procs s q) as [st ->]. by obj_simpl. }
  revert Hq1. generalize (preempt_phase s). clear s Hq. intros s Hq.
  destruct (dispatch_phase_cases s) as [->|(n & _ & _ & ->)]; [done|].
  sim_simpl. rewrite started_procs. case_decide; [subst|done].
  rewrite Hq. by obj_simpl.
Qed.

Lemma schedule_process_parts s :
  parts (heap (_schedule_process s)) = parts (heap s).
Proof.
  rewrite schedule_process_phases. rewrite <- (preempt_phase_parts s).
  generalize (preempt_phase s). clear s. intros s.
  destruct (dispatch_phase_cases s) as [->|(n & _ & _ & ->)]; [done|].
  sim_simpl. apply started_parts.
Qed.

Lemma update_wait_times_fet_kept s : fet_kept (heap s) (heap (_update_wait_times s)).
Proof.
  destruct (update_wait_times_frame s) as (Hq & _ & _). intros q f Hf.
  rewrite (Hq q). by obj_simpl.
Qed.

Lemma execute_tick_fet_kept positive s :
  Inv positive [] s -> fet_kept (heap s) (heap (_execute_tick s)).
Proof.
  intros HI q f Hf.
  destruct (Scheduler.current_process (scheduler s)) as [c|] eqn:Hc.
  - destruct (Z.lt_ge_cases 1 (Scheduler.remaining (heap s) c)) as [Hrun|Hfin].
    + rewrite (execute_tick_run s c Hc Hrun). sim_simpl. unfold ran. heap_simpl.
      rewrite upd_case. case_decide; [subst|done]. by obj_simpl.
    + rewrite (execute_tick_finish s c Hc Hfin). sim_simpl.
      unfold Inv in HI. rewrite Hc in HI. destruct HI as [_ _ _ _ Hcu _ Hli _].
      destruct (Hcu c eq_refl) as (_ & Hpt & _).
      destruct (Process.partition (procs (heap s) c)) as [k|] eqn:Hck; [|done].
      rewrite (finished_procs (clock s) c k (heap s) q Hck); [|by apply Hli].
      case_decide; [subst|done]. unfold finished_process.
      rewrite calculate_statistics_eq. by obj_simpl.
  - by rewrite (execute_tick_idle s Hc).
Qed.

Lemma operation_fet_kept positive s s' :
  Inv positive [] s -> operation s s' -> fet_kept (heap s) (heap s').
Proof.
  intros HI Hop. destruct Hop.
  - apply fet_kept_refl.
  - apply admission_frame_fet_kept, arrive_new_processes_frame.
  - apply admission_frame_fet_kept, try_load_suspended_frame.
  - apply schedule_process_fet_kept.
  - apply update_wait_times_fet_kept.
  - by apply (execute_tick_fet_kept positive).
  - apply fet_kept_refl.
Qed.

Lemma running_fet_kept positive s s' :
  Inv positive [] s -> running s s' -> fet_kept (heap s) (heap s').
Proof.
  intros HI. induction 1 as [|s1 s2 Hrun IH Hop]; [apply fet_kept_refl|].
  eapply fet_kept_trans; [exact IH|].
  apply (operation_fet_kept positive); [|done]. by apply (Inv_running positive s).
Qed.

(** C8.  With positive burst times, in every state the engine goes through
    (at tick boundaries and inside the ticks) every process has
    [remaining_time >= 0], has [remaining_time = 0] exactly when it is
    Terminated, and a [first_execution_time] that is set is left unchanged
    by every later operation. *)
Theorem process_lifecycle (rows : list process_row) (config : list partition_row)
    (degree : Z) (s : Simulator.t) :
  positive_bursts rows ->
  running (startup rows config degree) s ->
  (forall p, 0 <= Process.remaining_time (procs (heap s) p)
             /\ (Process.remaining_time (procs (heap s) p) = 0
                 <-> Process.state (procs (heap s) p) = TERMINATED))
  /\ (forall s' p f, running s s' ->
        Process.first_execution_time (procs (heap s) p) = Some f ->
        Process.first_execution_time (procs (heap s') p) = Some f).
Proof.
  intros Hpos Hrun.
  assert (HI : Inv (positive_bursts rows) [] s).
  { eapply Inv_running; [apply Inv_startup|exact Hrun]. }
  split.
  - intros p. destruct HI as [_ _ _ _ _ _ _ Hlf]. exact (Hlf Hpos p).
  - intros s' p f Hrun' Hf. exact (running_fet_kept _ s s' HI Hrun' p f Hf).
Qed.

Lemma process_lifecycle_witness :
  Process.remaining_time
    (procs (heap (tick (tick (tick (tick (tick single)))))) 0%nat) = 0
  <-> Process.state
        (procs (heap (tick (tick (tick (tick (tick single)))))) 0%nat) = TERMINATED.
Proof.
  assert (Hpos : positive_bursts [(1, 50, 0, 5)]).
  { unfold positive_bursts. repeat constructor. }
  assert (Hrun : running (startup [(1, 50, 0, 5)] [(1, 100, 100)] 5)
                   (tick (tick (tick (tick (tick single)))))).
  { apply reachable_running. do 5 apply reachable_tick. apply reachable_start. }
  exact (proj2 (proj1 (process_lifecycle _ _ _ _ Hpos Hrun) 0%nat)).
Defined.

(** ** Process and partition links *)

Lemma occupants_kept_trans h1 h2 h3 :
  occupants_kept h1 h2 -> occupants_kept h2 h3 -> occupants_kept h1 h3.
Proof. intros H12 H23 k p Hk. by apply H23, H12. Qed.

Lemma occupants_kept_parts h h' : parts h' = parts h -> occupants_kept h h'.
Proof. intros Hp k p. by rewrite Hp. Qed.

Lemma occupants_kept_released h h' : occupants_kept h h' -> released_on_termination h h'.
Proof. intros Hk k p Hocc Hfree. apply Hk in Hocc. congruence. Qed.

Lemma admission_frame_occupants s s' :
  admission_frame s s' -> occupants_kept (heap s) (heap s').
Proof. by intros (_&_&_&_&_&_&_&Ho). Qed.

Lemma before_execute_occupants s : occupants_kept (heap s) (heap (before_execute s)).
Proof.
  unfold before_execute.
  set (s0 := set_process_finished false (set_new_process_arrived false s)).
  eapply occupants_kept_trans;
    [apply (admission_frame_occupants s0), arrive_new_processes_frame|].
  eapply occupants_kept_trans;
    [apply admission_frame_occupants, try_load_suspended_frame|].
  eapply occupants_kept_trans;
    [apply occupants_kept_parts, schedule_process_parts|].
  apply occupants_kept_parts. by destruct (update_wait_times_frame
    (_schedule_process (_try_load_suspended (_arrive_new_processes s0)))) as (_&->&_).
Qed.

Lemma execute_tick_released positive s :
  Inv positive [] s -> released_on_termination (heap s) (heap (_execute_tick s)).
Proof.
  intros HI.
  destruct (Scheduler.current_process (scheduler s)) as [c|] eqn:Hc.
  - destruct (Z.lt_ge_cases 1 (Scheduler.remaining (heap s) c)) as [Hrun|Hfin].
    + rewrite (execute_tick_run s c Hc Hrun). by apply occupants_kept_released, occupants_kept_parts.
    + rewrite (execute_tick_finish s c Hc Hfin). sim_simpl.
      unfold Inv in HI. rewrite Hc in HI. destruct HI as [_ _ _ _ Hcu _ Hli _].
      destruct (Hcu c eq_refl) as (_ & Hpt & _).
      destruct (Process.partition (procs (heap s) c)) as [k|] eqn:Hck; [|done].
      assert (Hkc : Partition.process (parts (heap s) k) = Some c) by by apply Hli.
      intros j p Hocc Hfree.
      rewrite (finished_parts (clock s) c k (heap s) j Hck Hkc) in Hfree.
      rewrite (finished_procs (clock s) c k (heap s) p Hck Hkc).
      case_decide; [subst j|congruence].
      assert (p = c) as -> by congruence. rewrite decide_True by done.
      unfold finished_process. rewrite calculate_statistics_eq. by obj_simpl.
  - rewrite (execute_tick_idle s Hc). by apply occupants_kept_released, occupants_kept_parts.
Qed.

Lemma operation_released positive s s' :
  Inv positive [] s -> operation s s' -> released_on_termination (heap s) (heap s').
Proof.
  intros HI Hop. destruct Hop.
  - by apply occupants_kept_released, occupants_kept_parts.
  - apply occupants_kept_released, admission_frame_occupants, arrive_new_processes_frame.
  - apply occupants_kept_released, admission_frame_occupants, try_load_suspended_frame.
  - apply occupants_kept_released, occupants_kept_parts, schedule_process_parts.
  - apply occupants_kept_released, occupants_kept_parts.
    by destruct (update_wait_times_frame s) as (_&->&_).
  - by apply (execute_tick_released positive).
  - by apply occupants_kept_released, occupants_kept_parts.
Qed.

Lemma heap_set_clock v s : heap (set_clock v s) = heap s.
Proof. reflexivity. Qed.

Lemma tick_released positive s :
  Inv positive [] s -> released_on_termination (heap s) (heap (tick s)).
Proof.
  intros HI k p Hocc Hfree. rewrite tick_stages, heap_set_clock in *.
  apply (before_execute_occupants s) in Hocc.
  apply (Inv_before_execute positive) in HI.
  exact (execute_tick_released positive _ HI k p Hocc Hfree).
Qed.

(** [Scheduler.preempt_current] writes no partition reference. *)
Lemma preempt_current_partitions sc h :
  let h' := (Scheduler.preempt_current sc h).1.2 in
  parts h' = parts h
  /\ forall q, Process.partition (procs h' q) = Process.partition (procs h q).
Proof.
  unfold Scheduler.preempt_current.
  destruct (Scheduler.current_process sc) as [c|]; cbn [fst snd]; [|done].
  split; [done|]. intros q. heap_simpl. rewrite upd_case. by case_decide; subst.
Qed.

(** C10.  In every state the engine goes through, a process refers to a
    partition exactly when that partition refers back to it, and every
    process that is executing or in the ready queue holds such a
    partition; every operation of the engine leads to a state where this
    is again so; preemption leaves all partition references as they are;
    and a partition that an operation (or a whole tick) frees belonged to
    a process that is then Terminated. *)
Theorem partition_links (rows : list process_row) (config : list partition_row)
    (degree : Z) (s : Simulator.t) :
  running (startup rows config degree) s ->
  linked (heap s)
  /\ (forall p, p ∈ ready_queue s \/ Scheduler.current_process (scheduler s) = Some p ->
        exists k, Process.partition (procs (heap s) p) = Some k
                  /\ Partition.process (parts (heap s) k) = Some p)
  /\ (forall s', operation s s' -> linked (heap s'))
  /\ (let h' := (Scheduler.preempt_current (scheduler s) (heap s)).1.2 in
      parts h' = parts (heap s)
      /\ forall q, Process.partition (procs h' q) = Process.partition (procs (heap s) q))
  /\ (forall s', operation s s' \/ s' = tick s ->
        released_on_termination (heap s) (heap s')).
Proof.
  intros Hrun.
  assert (HI : Inv (positive_bursts rows) [] s).
  { eapply Inv_running; [apply Inv_startup|exact Hrun]. }
  split; [by destruct HI|].
  split.
  { intros p Hp. destruct HI as [_ _ Hrd _ Hcu _ Hli _].
    assert (Hpt : Process.partition (procs (heap s) p) <> None).
    { destruct Hp as [Hp|Hp]; [by apply Hrd|by apply Hcu]. }
    destruct (Process.partition (procs (heap s) p)) as [k|] eqn:Hk; [|done].
    exists k. split; [done|]. by apply Hli. }
  split.
  { intros s' Hop. by destruct (Inv_operation _ s s' Hop HI). }
  split; [apply preempt_current_partitions|].
  intros s' [Hop| ->].
  - by apply (operation_released (positive_bursts rows)).
  - by apply (tick_released (positive_bursts rows)).
Qed.

Lemma partition_links_witness :
  exists k, Process.partition (procs (heap (tick (tick short_arrival))) 0%nat) = Some k
    /\ Partition.process (parts (heap (tick (tick short_arrival))) k) = Some 0%nat.
Proof.
  assert (Hrun : running (startup [(1, 50, 0, 10); (2, 50, 1, 3)]
                            [(1, 100, 100); (2, 100, 200)] 5)
                   (tick (tick short_arrival))).
  { apply reachable_running. do 2 apply reachable_tick. apply reachable_start. }
  apply (proj1 (proj2 (partition_links _ _ _ _ Hrun)) 0%nat).
  left. vm_compute. left.
Defined.

(** ** The clock *)

Lemma preempt_phase_clock s : clock (preempt_phase s) = clock s.
Proof.
  destruct (Scheduler.should_preempt (scheduler s) (heap s) (ready_queue s)) eqn:Hpre.
  - pose proof Hpre as Hpre'. apply should_preempt_iff in Hpre' as (c & Hc & _).
    by rewrite (preempt_phase_due s c Hc Hpre).
  - by rewrite (preempt_phase_not_due s Hpre).
Qed.

Lemma schedule_process_clock s : clock (_schedule_process s) = clock s.
Proof.
  rewrite schedule_process_phases, <- (preempt_phase_clock s).
  generalize (preempt_phase s). clear s. intros s.
  by destruct (dispatch_phase_cases s) as [->|(n & _ & _ & ->)].
Qed.

Lemma update_wait_times_clock s : clock (_update_wait_times s) = clock s.
Proof. by destruct (update_wait_times_frame s) as (_ & _ & ->). Qed.

Lemma admission_frame_clock s s' : admission_frame s s' -> clock s' = clock s.
Proof. by intros (_&?&_). Qed.

Lemma before_execute_clock s : clock (before_execute s) = clock s.
Proof.
  unfold before_execute.
  rewrite update_wait_times_clock, schedule_process_clock.
  rewrite (admission_frame_clock _ _ (try_load_suspended_frame _)).
  by rewrite (admission_frame_clock _ _ (arrive_new_processes_frame _)).
Qed.

Lemma execute_tick_clock s : clock (_execute_tick s) = clock s.
Proof.
  destruct (Scheduler.current_process (scheduler s)) as [c|] eqn:Hc.
  - destruct (Z.lt_ge_cases 1 (Scheduler.remaining (heap s) c)) as [Hrun|Hfin].
    + by rewrite (execute_tick_run s c Hc Hrun).
    + by rewrite (execute_tick_finish s c Hc Hfin).
  - by rewrite (execute_tick_idle s Hc).
Qed.

Lemma clock_set_clock v s : clock (set_clock v s) = v.
Proof. reflexivity. Qed.

Lemma tick_clock s : clock (tick s) = clock s + 1.
Proof.
  rewrite tick_stages, clock_set_clock, execute_tick_clock, before_execute_clock.
  done.
Qed.

(** ** Completion *)

Lemma terminated_set_clock v s : terminated_queue (set_clock v s) = terminated_queue s.
Proof. reflexivity. Qed.

Lemma scheduler_set_clock v s : scheduler (set_clock v s) = scheduler s.
Proof. reflexivity. Qed.

(** C4.  When the process [c] that runs in a tick started at time
    [clock s] reaches a remaining time of 0 in the execution step, the
    engine sets [finish_time = clock s + 1],
    [turnaround_time = finish_time - arrival_time] and
    [wait_time = first_execution_time - arrival_time] (whatever the
    accrued counter was), frees its partition and moves it to the
    terminated queue. *)
Theorem completion_bookkeeping (rows : list process_row)
    (config : list partition_row) (degree : Z) (s : Simulator.t) (c : ProcRef) :
  reachable (startup rows config degree) s ->
  Scheduler.current_process (scheduler (before_execute s)) = Some c ->
  Scheduler.remaining (heap (before_execute s)) c - 1 <= 0 ->
  let o := procs (heap (tick s)) c in
  Process.finish_time o = clock s + 1
  /\ Process.turnaround_time o = Process.finish_time o - Process.arrival_time o
  /\ (exists fet, Process.first_execution_time o = Some fet
                  /\ Process.wait_time o = fet - Process.arrival_time o)
  /\ Process.state o = TERMINATED
  /\ Process.partition o = None
  /\ (exists k, Process.partition (procs (heap (before_execute s)) c) = Some k
                /\ Partition.process (parts (heap (tick s)) k) = None
                /\ Partition.internal_fragmentation (parts (heap (tick s)) k) = 0)
  /\ c ∈ terminated_queue (tick s)
  /\ Scheduler.current_process (scheduler (tick s)) = None.
Proof.
  intros Hreach Hc Hrem o. subst o.
  assert (HI : Inv (positive_bursts rows) [] (before_execute s)).
  { by apply Inv_before_execute, (Inv_reachable rows config degree). }
  rewrite tick_stages, heap_set_clock, terminated_set_clock, scheduler_set_clock.
  rewrite <- (before_execute_clock s).
  revert Hc Hrem HI. generalize (before_execute s). clear s Hreach. intros s Hc Hrem HI.
  rewrite (execute_tick_finish s c Hc) by lia. sim_simpl.
  unfold Inv in HI. rewrite Hc in HI. destruct HI as [Hpl _ _ _ Hcu _ Hli _].
  destruct (Hcu c eq_refl) as (_ & Hpt & Hfet).
  destruct (Process.partition (procs (heap s) c)) as [k|] eqn:Hck; [|done].
  assert (Hkc : Partition.process (parts (heap s) k) = Some c) by by apply Hli.
  rewrite (finished_procs (clock s) c k (heap s) c Hck Hkc), decide_True by done.
  unfold finished_process. rewrite calculate_statistics_eq. obj_simpl.
  destruct (Process.first_execution_time (procs (heap s) c)) as [f|] eqn:Hf; [|done].
  repeat split; try done.
  - by exists f.
  - exists k. rewrite (finished_parts (clock s) c k (heap s) k Hck Hkc),
      decide_True by done. by obj_simpl.
  - destruct (py_in c (terminated_queue s)) eqn:Hin; [by apply py_in_true|].
    apply elem_of_app. right. by left.
Qed.

Lemma completion_bookkeeping_witness :
  Process.finish_time (procs (heap (tick (tick (tick (tick (tick single)))))) 0%nat)
  = clock (tick (tick (tick (tick single)))) + 1
  /\ 0%nat ∈ terminated_queue (tick (tick (tick (tick (tick single))))).
Proof.
  assert (Hreach : reachable (startup [(1, 50, 0, 5)] [(1, 100, 100)] 5)
                     (tick (tick (tick (tick single))))).
  { do 4 apply reachable_tick. apply reachable_start. }
  destruct (completion_bookkeeping _ _ _ _ 0%nat Hreach)
    as (Hfin & _ & _ & _ & _ & _ & Hterm & _).
  { vm_compute. reflexivity. }
  { vm_compute. discriminate. }
  split; [exact Hfin|exact Hterm].
Defined.

(** ** Preemption *)

Lemma before_schedule_frame s : admission_frame s (before_schedule s).
Proof.
  unfold before_schedule.
  eapply admission_frame_trans; [|apply try_load_suspended_frame].
  eapply admission_frame_trans; [|apply arrive_new_processes_frame].
  unfold admission_frame. sim_simpl. repeat split; try done.
  intros q. apply only_placement_refl.
Qed.

Lemma before_execute_schedule s :
  before_execute s = _update_wait_times (_schedule_process (before_schedule s)).
Proof. reflexivity. Qed.

Lemma ready_set_clock v s : ready_queue (set_clock v s) = ready_queue s.
Proof. reflexivity. Qed.

(** The state of another process is not touched when [c] finishes. *)
Lemma finished_state_other clk c h q :
  q <> c -> Process.state (procs (finished clk c h) q) = Process.state (procs h q).
Proof.
  intros Hne. unfold finished, MemoryManager.free_process, ran. heap_simpl.
  rewrite calculate_statistics_eq. obj_simpl.
  destruct (Process.partition (procs h c)) as [k|]; [|by heap_simpl].
  unfold free. heap_simpl.
  destruct (Partition.process (parts h k)) as [q'|]; heap_simpl; [|done].
  rewrite upd_case. case_decide; [subst|]; heap_simpl; by obj_simpl.
Qed.

Lemma execute_tick_other s c :
  Scheduler.current_process (scheduler s) <> Some c ->
  ready_queue (_execute_tick s) = ready_queue s
  /\ Process.state (procs (heap (_execute_tick s)) c) = Process.state (procs (heap s) c)
  /\ Scheduler.current_process (scheduler (_execute_tick s)) <> Some c.
Proof.
  intros Hne.
  destruct (Scheduler.current_process (scheduler s)) as [n|] eqn:Hn.
  - assert (c <> n) by congruence.
    destruct (Z.lt_ge_cases 1 (Scheduler.remaining (heap s) n)) as [Hrun|Hfin].
    + rewrite (execute_tick_run s n Hn Hrun). sim_simpl. rewrite Hn.
      repeat split; try done. unfold ran. by heap_simpl.
    + rewrite (execute_tick_finish s n Hn Hfin). sim_simpl.
      repeat split; try done. by apply finished_state_other.
  - rewrite (execute_tick_idle s Hn). sim_simpl. by rewrite Hn.
Qed.

(** When a ready process has less remaining time than the running one,
    the scheduling step preempts, then selects. *)
Lemma schedule_process_preempts s c q :
  Scheduler.current_process (scheduler s) = Some c ->
  q ∈ ready_queue s ->
  Scheduler.remaining (heap s) q < Scheduler.remaining (heap s) c ->
  Scheduler.current_process (scheduler (preempt_phase s)) = None
  /\ c ∈ ready_queue (preempt_phase s)
  /\ Process.state (procs (heap (preempt_phase s)) c) = READY
  /\ exists n,
       Scheduler.select_next_process (heap (preempt_phase s))
         (ready_queue (preempt_phase s)) = Some n
       /\ n <> c
       /\ Scheduler.current_process (scheduler (_schedule_process s)) = Some n
       /\ c ∈ ready_queue (_schedule_process s)
       /\ Process.state (procs (heap (_schedule_process s)) c) = READY.
Proof.
  intros Hc Hq Hlt.
  assert (Hpre : Scheduler.should_preempt (scheduler s) (heap s) (ready_queue s) = true).
  { apply should_preempt_iff. exists c. split; [done|]. by exists q. }
  rewrite schedule_process_phases, (preempt_phase_due s c Hc Hpre).
  set (rq := if py_in c (ready_queue s) then ready_queue s else ready_queue s ++ [c]).
  set (h1 := upd_proc c (Process.set_state READY) (heap s)).
  set (s1 := set_ready_queue rq _).
  assert (Hcin : c ∈ rq).
  { subst rq. destruct (py_in c (ready_queue s)) eqn:Hin; [by apply py_in_true|].
    apply elem_of_app. right. by left. }
  assert (Hqin : q ∈ rq).
  { subst rq. destruct (py_in c (ready_queue s)); [done|]. apply elem_of_app. by left. }
  assert (Hrem : forall x, Scheduler.remaining h1 x = Scheduler.remaining (heap s) x).
  { intros x. unfold Scheduler.remaining. subst h1. heap_simpl. rewrite upd_case.
    by case_decide; subst. }
  split; [done|]. split; [done|].
  split; [subst s1 h1; sim_simpl; by heap_simpl|].
  destruct (Scheduler.select_next_process (heap s1) (ready_queue s1)) as [n|] eqn:Hn.
  2:{ apply select_next_process_None in Hn. subst s1. sim_simpl.
      rewrite Hn in Hqin. by apply elem_of_nil in Hqin. }
  exists n. split; [done|].
  pose proof Hn as Hn'. apply select_next_process_spec in Hn' as [Hnin Hmin].
  assert (Hnc : n <> c).
  { intros ->. specialize (Hmin q Hqin). subst s1. sim_simpl. rewrite !Hrem in Hmin. lia. }
  split; [done|].
  rewrite (dispatch_phase_idle s1 n eq_refl Hn). subst s1. sim_simpl.
  split; [done|]. split; [by apply elem_of_py_remove_ne|].
  rewrite started_procs, decide_False by done. subst h1. by heap_simpl.
Qed.

(** C3.  [should_preempt] is true exactly when a process is executing and
    some ready process has a strictly smaller remaining time.  When that
    is so as the scheduling step of a tick starts (in particular when it
    is already so as the tick starts), the tick preempts the running
    process, which becomes Ready and returns to the ready queue, and only
    then selects the next candidate, among the ready queue that holds it. *)
Theorem srtf_preemption (s : Simulator.t) :
  (Scheduler.should_preempt (scheduler s) (heap s) (ready_queue s) = true <->
   exists c, Scheduler.current_process (scheduler s) = Some c
     /\ exists q, q ∈ ready_queue s
          /\ Scheduler.remaining (heap s) q < Scheduler.remaining (heap s) c)
  /\ (forall c q,
        Scheduler.current_process (scheduler s) = Some c ->
        q ∈ ready_queue s ->
        Scheduler.remaining (heap s) q < Scheduler.remaining (heap s) c ->
        Scheduler.current_process (scheduler (before_schedule s)) = Some c
        /\ q ∈ ready_queue (before_schedule s)
        /\ Scheduler.remaining (heap (before_schedule s)) q
           < Scheduler.remaining (heap (before_schedule s)) c)
  /\ (forall c q,
        Scheduler.current_process (scheduler (before_schedule s)) = Some c ->
        q ∈ ready_queue (before_schedule s) ->
        Scheduler.remaining (heap (before_schedule s)) q
        < Scheduler.remaining (heap (before_schedule s)) c ->
        Scheduler.should_preempt (scheduler (before_schedule s))
          (heap (before_schedule s)) (ready_queue (before_schedule s)) = true
        /\ Scheduler.current_process (scheduler (preempt_phase (before_schedule s)))
           = None
        /\ c ∈ ready_queue (preempt_phase (before_schedule s))
        /\ Process.state (procs (heap (preempt_phase (before_schedule s))) c) = READY
        /\ (exists n,
              Scheduler.select_next_process (heap (preempt_phase (before_schedule s)))
                (ready_queue (preempt_phase (before_schedule s))) = Some n
              /\ n <> c
              /\ Scheduler.current_process
                   (scheduler (_schedule_process (before_schedule s))) = Some n)
        /\ c ∈ ready_queue (tick s)
        /\ Process.state (procs (heap (tick s)) c) = READY
        /\ Scheduler.current_process (scheduler (tick s)) <> Some c).
Proof.
  split; [apply should_preempt_iff|]. split.
  - intros c q Hc Hq Hlt.
    pose proof (before_schedule_frame s) as Hfr.
    rewrite !(admission_frame_remaining s (before_schedule s)) by done.
    destruct Hfr as (Hsc & _ & _ & _ & _ & Hrd & _).
    rewrite Hsc. auto.
  - intros c q Hc Hq Hlt.
    split. { apply should_preempt_iff. exists c. split; [done|]. by exists q. }
    destruct (schedule_process_preempts (before_schedule s) c q Hc Hq Hlt)
      as (Hidle & Hcin & Hcst & n & Hsel & Hnc & Hcur & Hcin' & Hcst').
    split; [done|]. split; [done|]. split; [done|].
    split. { exists n. done. }
    rewrite tick_stages, heap_set_clock, scheduler_set_clock, ready_set_clock.
    rewrite before_execute_schedule.
    revert Hcur Hcin' Hcst'. generalize (_schedule_process (before_schedule s)).
    intros s3 Hcur Hcin' Hcst'.
    destruct (update_wait_times_frame s3) as (Hq3 & _ & Heq).
    assert (Hne : Scheduler.current_process (scheduler (_update_wait_times s3)) <> Some c).
    { rewrite Heq. sim_simpl. congruence. }
    destruct (execute_tick_other _ c Hne) as (-> & -> & Hcur5).
    split; [by rewrite Heq|]. split; [|done].
    rewrite (Hq3 c). by obj_simpl.
Qed.

Lemma srtf_preemption_witness :
  0%nat ∈ ready_queue (tick (tick short_arrival))
  /\ Process.state (procs (heap (tick (tick short_arrival))) 0%nat) = READY
  /\ Scheduler.current_process (scheduler (tick (tick short_arrival))) <> Some 0%nat.
Proof.
  assert (Hc : Scheduler.current_process
                 (scheduler (before_schedule (tick short_arrival))) = Some 0%nat)
    by (vm_compute; reflexivity).
  assert (Hq : 1%nat ∈ ready_queue (before_schedule (tick short_arrival)))
    by (vm_compute; left).
  assert (Hlt : Scheduler.remaining (heap (before_schedule (tick short_arrival))) 1%nat
                < Scheduler.remaining (heap (before_schedule (tick short_arrival))) 0%nat)
    by (vm_compute; reflexivity).
  exact (proj2 (proj2 (proj2 (proj2 (proj2
           (proj2 (proj2 (srtf_preemption (tick short_arrival))) 0%nat 1%nat
              Hc Hq Hlt)))))).
Defined.

(** ** Admission *)

Lemma current_dom_resident s :
  current_dom s = resident (ready_queue s) (Scheduler.current_process (scheduler s)).
Proof. reflexivity. Qed.

Lemma resident_snoc ready cur p : resident (ready ++ [p]) cur = resident ready cur + 1.
Proof. unfold resident. rewrite length_app. cbn [length]. lia. Qed.

(** C2 (as stated, refuted).  With a degree of 1 and two processes
    arriving together, the resident count before the tick's admissions is
    0 and the allocator would place the second process (before and after
    the first is admitted), yet the second process is suspended without a
    partition: the count that decides is the one at its own turn. *)
Lemma admission_counts_earlier_arrivals :
  let s := set_process_finished false (set_new_process_arrived false degree_one) in
  let s' := _arrive_new_processes s in
  current_dom s = 0 /\ degree_of_multiprogramming s = 1
  /\ snd (MemoryManager.allocate_process (partitions s) 1%nat (heap s)) = true
  /\ snd (MemoryManager.allocate_process (partitions s') 1%nat (heap s')) = true
  /\ ready_queue s' = [0%nat] /\ suspended_queue s' = [1%nat]
  /\ Process.state (procs (heap s') 1%nat) = SUSPENDED
  /\ Process.partition (procs (heap s') 1%nat) = None.
Proof. vm_compute. repeat split. Qed.

Lemma try_load_to_memory_full s p :
  degree_of_multiprogramming s <= current_dom s ->
  p ∈ suspended_queue (_try_load_to_memory p s)
  /\ Process.state (procs (heap (_try_load_to_memory p s)) p) = SUSPENDED
  /\ parts (heap (_try_load_to_memory p s)) = parts (heap s)
  /\ ready_queue (_try_load_to_memory p s) = ready_queue s
  /\ (forall q, Process.partition (procs (heap (_try_load_to_memory p s)) q)
                = Process.partition (procs (heap s) q)).
Proof.
  intros Hfull. unfold _try_load_to_memory.
  apply Z.leb_le in Hfull. rewrite Hfull. sim_simpl.
  destruct (py_in p (suspended_queue s)) eqn:Hin; sim_simpl; heap_simpl.
  - apply py_in_true in Hin. repeat split; try done.
    intros q. rewrite upd_case. by case_decide; subst.
  - repeat split; try done.
    + apply elem_of_app. right. by left.
    + intros q. rewrite upd_case. by case_decide; subst.
Qed.

Lemma try_load_to_memory_placed s p h1 :
  current_dom s < degree_of_multiprogramming s ->
  MemoryManager.allocate_process (partitions s) p (heap s) = (h1, true) ->
  p ∈ ready_queue (_try_load_to_memory p s)
  /\ heap (_try_load_to_memory p s) = h1.
Proof.
  intros Hroom Halloc. unfold _try_load_to_memory.
  apply Z.leb_gt in Hroom. rewrite Hroom, Halloc. sim_simpl.
  destruct (py_in p (ready_queue s)) eqn:Hin; sim_simpl;
    destruct (py_in p (suspended_queue s)); sim_simpl; split; try done.
  1,2: by apply py_in_true.
  all: apply elem_of_app; right; by left.
Qed.

Lemma try_load_to_memory_no_fit s p h1 :
  current_dom s < degree_of_multiprogramming s ->
  MemoryManager.allocate_process (partitions s) p (heap s) = (h1, false) ->
  p ∈ suspended_queue (_try_load_to_memory p s)
  /\ Process.state (procs (heap (_try_load_to_memory p s)) p) = SUSPENDED
  /\ ready_queue (_try_load_to_memory p s) = ready_queue s.
Proof.
  intros Hroom Halloc. unfold _try_load_to_memory.
  apply Z.leb_gt in Hroom. rewrite Hroom, Halloc. sim_simpl.
  destruct (py_in p (suspended_queue s)) eqn:Hin; sim_simpl; heap_simpl.
  - apply py_in_true in Hin. done.
  - repeat split; try done. apply elem_of_app. right. by left.
Qed.

(** Each suspended process ends in the ready queue or stays suspended. *)
Lemma load_suspended_loop_members ps d susp queue p :
  forall h ready to_remove dom,
  p ∈ ready \/ p ∈ without to_remove susp ->
  let r := load_suspended_loop ps d queue (h, ready, to_remove, dom) in
  p ∈ r.1.1.2 \/ p ∈ without r.1.2 susp.
Proof.
  induction queue as [|x queue IH]; intros h ready to_remove dom Hp; cbv zeta in *;
    [done|].
  cbn [load_suspended_loop]. destruct (d <=? dom); [done|].
  destruct (MemoryManager.allocate_process ps x h) as [h1 [|]]; [|by apply IH].
  apply IH. rewrite without_snoc.
  destruct (decide (p = x)) as [->|Hne].
  - left. destruct (py_in x ready) eqn:Hin; cbn [negb]; [by apply py_in_true|].
    apply elem_of_app. right. by left.
  - destruct Hp as [Hp|Hp].
    + left. destruct (py_in x ready); cbn [negb]; [done|]. apply elem_of_app. by left.
    + right. by apply elem_of_py_remove_ne.
Qed.

Lemma try_load_suspended_members s p :
  p ∈ suspended_queue s ->
  p ∈ ready_queue (_try_load_suspended s) \/ p ∈ suspended_queue (_try_load_suspended s).
Proof.
  intros Hp. unfold _try_load_suspended.
  destruct (degree_of_multiprogramming s <=? current_dom s); [by right|].
  pose proof (load_suspended_loop_members (partitions s) (degree_of_multiprogramming s)
                (suspended_queue s) (suspended_queue s) p (heap s) (ready_queue s) []
                (current_dom s) (or_intror Hp)) as Hloop.
  destruct (load_suspended_loop (partitions s) (degree_of_multiprogramming s)
              (suspended_queue s) (heap s, ready_queue s, [], current_dom s))
    as [[[h ready] to_remove] dom].
  sim_simpl. exact Hloop.
Qed.

Lemma load_suspended_loop_readmission ps d cur susp0 queue : forall h ready to_remove,
  NoDup queue -> (forall q, q ∈ queue -> q ∉ ready) ->
  readmission ps d cur queue (h, ready, without to_remove susp0)
    ((load_suspended_loop ps d queue (h, ready, to_remove, resident ready cur)).1.1.1,
     (load_suspended_loop ps d queue (h, ready, to_remove, resident ready cur)).1.1.2,
     without (load_suspended_loop ps d queue
                (h, ready, to_remove, resident ready cur)).1.2 susp0).
Proof.
  induction queue as [|p queue IH]; intros h ready to_remove Hnd Hout.
  { cbn [load_suspended_loop fst snd]. apply readmission_end. }
  cbn [load_suspended_loop].
  destruct (Z.leb_spec d (resident ready cur)) as [Hfull|Hroom].
  { cbn [fst snd]. by apply readmission_full. }
  apply NoDup_cons in Hnd as [Hp Hnd].
  assert (Hin : py_in p ready = false).
  { apply py_in_false, Hout. by left. }
  destruct (MemoryManager.allocate_process ps p h) as [h1 [|]] eqn:Halloc.
  - rewrite Hin. cbn [negb]. rewrite <- (resident_snoc ready cur p).
    apply (readmission_placed ps d cur p queue h ready _ h1); [done|done|].
    replace (py_remove p (without to_remove susp0))
      with (without (to_remove ++ [p]) susp0)
      by (unfold without; by rewrite fold_left_app).
    apply IH; [done|]. intros q Hq Hqr.
    apply elem_of_app in Hqr as [Hqr|Hqr].
    + apply (Hout q); [by right|done].
    + apply list_elem_of_singleton in Hqr as ->. done.
  - apply (readmission_no_fit ps d cur p queue h ready _ h1); [done|done|].
    apply IH; [done|]. intros q Hq. apply Hout. by right.
Qed.

(** C2 (amended).  The resident count that decides an admission is the
    one at the moment the process is considered.  For an arrival: if it
    is at least the degree, the process goes to the suspended queue,
    Suspended, and no partition is touched; otherwise the allocator is
    called, and the process ends in the ready queue on success, in the
    suspended queue on failure.  For the suspended processes, in every
    state the engine goes through, [_try_load_suspended] applies the
    rule along the suspended queue, from the store and the queues of
    the state: it stops at the first process at whose turn the resident
    count is at least the degree, leaving it and the following ones
    where they are, and otherwise calls the allocator, moving the
    process to the end of the ready queue on success and leaving it
    suspended on failure; nothing else of the state changes, and each
    suspended process ends either Ready in the ready queue or
    Suspended in the suspended queue. *)
Theorem admission_rule (s : Simulator.t) (p : ProcRef) :
  (degree_of_multiprogramming s <= current_dom s ->
     p ∈ suspended_queue (_try_load_to_memory p s)
     /\ Process.state (procs (heap (_try_load_to_memory p s)) p) = SUSPENDED
     /\ parts (heap (_try_load_to_memory p s)) = parts (heap s)
     /\ ready_queue (_try_load_to_memory p s) = ready_queue s
     /\ (forall q, Process.partition (procs (heap (_try_load_to_memory p s)) q)
                   = Process.partition (procs (heap s) q)))
  /\ (forall h1, current_dom s < degree_of_multiprogramming s ->
        MemoryManager.allocate_process (partitions s) p (heap s) = (h1, true) ->
        p ∈ ready_queue (_try_load_to_memory p s)
        /\ heap (_try_load_to_memory p s) = h1)
  /\ (forall h1, current_dom s < degree_of_multiprogramming s ->
        MemoryManager.allocate_process (partitions s) p (heap s) = (h1, false) ->
        p ∈ suspended_queue (_try_load_to_memory p s)
        /\ Process.state (procs (heap (_try_load_to_memory p s)) p) = SUSPENDED
        /\ ready_queue (_try_load_to_memory p s) = ready_queue s)
  /\ (forall rows config degree,
        running (startup rows config degree) s ->
        readmission (partitions s) (degree_of_multiprogramming s)
          (Scheduler.current_process (scheduler s)) (suspended_queue s)
          (heap s, ready_queue s, suspended_queue s)
          (heap (_try_load_suspended s), ready_queue (_try_load_suspended s),
           suspended_queue (_try_load_suspended s))
        /\ _try_load_suspended s
           = set_suspended_queue (suspended_queue (_try_load_suspended s))
               (set_ready_queue (ready_queue (_try_load_suspended s))
                  (set_heap (heap (_try_load_suspended s)) s))
        /\ (p ∈ suspended_queue s ->
            (p ∈ ready_queue (_try_load_suspended s)
             /\ (p ∉ suspended_queue (_try_load_suspended s))
             /\ Process.state (procs (heap (_try_load_suspended s)) p) = READY)
            \/ (p ∈ suspended_queue (_try_load_suspended s)
                /\ (p ∉ ready_queue (_try_load_suspended s))
                /\ Process.state (procs (heap (_try_load_suspended s)) p)
                   = SUSPENDED))).
Proof.
  split; [apply try_load_to_memory_full|].
  split; [intros h1; apply try_load_to_memory_placed|].
  split; [intros h1; apply try_load_to_memory_no_fit|].
  intros rows config degree Hrun.
  assert (HI0 : Inv (positive_bursts rows) [] s).
  { eapply Inv_running; [apply Inv_startup|exact Hrun]. }
  split; [|split].
  - destruct (consistent_disjoint _ _ _ _ _ _ _ HI0) as (Hrs & _ & _ & _ & _ & Hnd & _).
    unfold _try_load_suspended.
    destruct (Z.leb_spec (degree_of_multiprogramming s) (current_dom s)) as [Hfull|Hroom].
    + destruct (suspended_queue s) as [|q queue]; [apply readmission_end|].
      by apply readmission_full.
    + pose proof (load_suspended_loop_readmission (partitions s)
                    (degree_of_multiprogramming s)
                    (Scheduler.current_process (scheduler s)) (suspended_queue s)
                    (suspended_queue s) (heap s) (ready_queue s) [] Hnd) as Hloop.
      rewrite <- current_dom_resident in Hloop.
      destruct (load_suspended_loop (partitions s) (degree_of_multiprogramming s)
                  (suspended_queue s) (heap s, ready_queue s, [], current_dom s))
        as [[[h ready] to_remove] dom].
      sim_simpl. apply Hloop. intros q Hq Hqr. by apply (Hrs q).
  - unfold _try_load_suspended.
    destruct (degree_of_multiprogramming s <=? current_dom s); [by destruct s|].
    destruct (load_suspended_loop (partitions s) (degree_of_multiprogramming s)
                (suspended_queue s) (heap s, ready_queue s, [], current_dom s))
      as [[[h ready] to_remove] dom].
    by destruct s.
  - intros Hp.
    assert (HI : Inv (positive_bursts rows) [] (_try_load_suspended s))
      by by apply Inv_try_load_suspended.
    destruct (consistent_disjoint _ _ _ _ _ _ _ HI) as (Hrs & _).
    destruct HI as [_ _ Hrd Hsu _ _ _ _].
    destruct (try_load_suspended_members s p Hp) as [Hin|Hin].
    + left. split; [done|]. split; [by apply Hrs|]. by apply Hrd.
    + right. split; [done|]. split; [|by apply Hsu]. intros Hin'. by apply (Hrs p).
Qed.

Lemma admission_rule_witness :
  let s := set_process_finished false (set_new_process_arrived false degree_one) in
  let s1 := _try_load_to_memory 0%nat s in
  let s2 := _arrive_new_processes
              (set_process_finished false
                 (set_new_process_arrived false
                    (tick (tick (tick (tick (tick (tick (tick (tick (tick (tick degree_one)))))))))))) in
  (1%nat ∈ suspended_queue (_try_load_to_memory 1%nat s1)
   /\ Process.state (procs (heap (_try_load_to_memory 1%nat s1)) 1%nat) = SUSPENDED
   /\ parts (heap (_try_load_to_memory 1%nat s1)) = parts (heap s1))
  /\ readmission (partitions s2) (degree_of_multiprogramming s2)
       (Scheduler.current_process (scheduler s2)) (suspended_queue s2)
       (heap s2, ready_queue s2, suspended_queue s2)
       (heap (_try_load_suspended s2), ready_queue (_try_load_suspended s2),
        suspended_queue (_try_load_suspended s2)).
Proof.
  intros s s1 s2.
  assert (Hfull : degree_of_multiprogramming s1 <= current_dom s1)
    by (vm_compute; discriminate).
  assert (Hrun : running (startup [(1, 50, 0, 10); (2, 50, 0, 3)]
                            [(1, 100, 100); (2, 100, 200)] 1) s2).
  { eapply running_step; [|apply op_arrive].
    eapply running_step; [|apply op_reset].
    apply reachable_running. do 10 apply reachable_tick. apply reachable_start. }
  split.
  - destruct (proj1 (admission_rule s1 1%nat) Hfull) as (H1 & H2 & H3 & _). done.
  - exact (proj1 (proj2 (proj2 (proj2 (admission_rule s2 1%nat))) _ _ _ Hrun)).
Defined.

(** The re-admission at work: once the first process has finished, the
    second one, suspended since its arrival, is given a partition. *)
Example readmission_after_completion :
  let s2 := _arrive_new_processes
              (set_process_finished false
                 (set_new_process_arrived false
                    (tick (tick (tick (tick (tick (tick (tick (tick (tick (tick degree_one)))))))))))) in
  suspended_queue s2 = [1%nat] /\ ready_queue s2 = []
  /\ suspended_queue (_try_load_suspended s2) = []
  /\ ready_queue (_try_load_suspended s2) = [1%nat]
  /\ Process.state (procs (heap (_try_load_suspended s2)) 1%nat) = READY.
Proof. vm_compute. repeat split. Qed.

(** ** The run *)

Lemma reachable_after_tick s s' : reachable (tick s) s' -> reachable s s'.
Proof.
  induction 1 as [|s1 _ IH].
  - apply reachable_tick, reachable_start.
  - by apply reachable_tick.
Qed.

(** The loop of [run] stops: the clock grows by one at each pass and the
    loop is left at [max_ticks]. *)
Lemma run_loop_enough total fuel : forall s,
  (Z.to_nat (max_ticks - clock s) <= fuel)%nat ->
  exists s' w, run_loop fuel total s = Some (s', w)
    /\ reachable s s'
    /\ (w = false -> (total <= length (terminated_queue s'))%nat)
    /\ (w = true -> max_ticks <= clock s'
                    /\ (length (terminated_queue s') < total)%nat).
Proof.
  induction fuel as [|fuel IH]; intros s Hfuel.
  - exists s. cbn [run_loop].
    destruct (Nat.ltb_spec (length (terminated_queue s)) total) as [Hlt|Hge]; cbn [negb].
    + destruct (Z.leb_spec max_ticks (clock s)) as [Hmax|Hmax]; [|lia].
      exists true. repeat split; try done. apply reachable_start.
    + exists false. repeat split; try done. apply reachable_start.
  - cbn [run_loop].
    destruct (Nat.ltb_spec (length (terminated_queue s)) total) as [Hlt|Hge]; cbn [negb].
    + destruct (Z.leb_spec max_ticks (clock s)) as [Hmax|Hmax].
      * exists s, true. repeat split; try done. apply reachable_start.
      * destruct (IH (tick s)) as (s' & w & Hrun & Hreach & Hpost).
        { rewrite tick_clock. lia. }
        exists s', w. split; [done|]. split; [|done]. by apply reachable_after_tick.
    + exists s, false. repeat split; try done. apply reachable_start.
Qed.

(** ** The statistical report *)

Lemma calculate_statistics_idem o :
  Process.calculate_statistics (Process.calculate_statistics o)
  = Process.calculate_statistics o.
Proof. destruct o as [? ? ? ? ? ? ? ? ? ? [f|]]; reflexivity. Qed.

Lemma calculate_statistics_state o :
  Process.state (Process.calculate_statistics o) = Process.state o.
Proof. destruct o as [? ? ? ? ? ? ? ? ? ? [f|]]; reflexivity. Qed.

Lemma elem_of_insert_by {A : Type} (key : A -> Z) x y l :
  y ∈ insert_by key x l <-> y = x \/ y ∈ l.
Proof.
  induction l as [|z l IH]; cbn [insert_by].
  - rewrite list_elem_of_singleton, elem_of_nil. tauto.
  - destruct (key x <? key z).
    + by rewrite elem_of_cons.
    + rewrite !elem_of_cons, IH. tauto.
Qed.

Lemma elem_of_py_sorted {A : Type} (key : A -> Z) y l :
  y ∈ py_sorted key l <-> y ∈ l.
Proof.
  unfold py_sorted.
  assert (Hgen : forall acc, y ∈ fold_left (fun acc x => insert_by key x acc) l acc
                             <-> y ∈ acc \/ y ∈ l).
  { induction l as [|x l IH]; intros acc; cbn [fold_left].
    - rewrite elem_of_nil. tauto.
    - rewrite IH, elem_of_insert_by, elem_of_cons. tauto. }
  rewrite Hgen, elem_of_nil. tauto.
Qed.

Lemma recomputed_state h seen h' q :
  recomputed h seen h' -> Process.state (procs h' q) = Process.state (procs h q).
Proof.
  intros [_ Hq]. rewrite Hq. case_decide; [apply calculate_statistics_state|done].
Qed.

Lemma statistics_step_eq h' table x :
  statistics_step (h', table) x =
  if bool_decide (Process.state (procs h' x) = TERMINATED)
  then (upd_proc x Process.calculate_statistics h',
        table ++ [row_of (Process.calculate_statistics (procs h' x))])
  else (h', table).
Proof.
  unfold statistics_step.
  destruct (bool_decide (Process.state (procs h' x) = TERMINATED)); [|done].
  by heap_simpl.
Qed.

Lemma statistics_fold h l : forall seen h' table,
  recomputed h seen h' ->
  let r := fold_left statistics_step l (h', table) in
  recomputed h (seen ++ l) r.1
  /\ (forall x, x ∈ table -> x ∈ r.2)
  /\ (forall p, p ∈ l -> Process.state (procs h p) = TERMINATED ->
        row_of (Process.calculate_statistics (procs h p)) ∈ r.2).
Proof.
  induction l as [|x l IH]; intros seen h' table Hrec; cbv zeta in *.
  { cbn [fold_left fst snd]. rewrite app_nil_r. split; [done|]. split; [done|].
    intros p Hp. by apply elem_of_nil in Hp. }
  cbn [fold_left]. rewrite statistics_step_eq.
  rewrite (recomputed_state h seen h' x Hrec).
  replace (seen ++ x :: l) with ((seen ++ [x]) ++ l) by by rewrite <- app_assoc.
  destruct (decide (Process.state (procs h x) = TERMINATED)) as [Hx|Hx].
  - rewrite bool_decide_eq_true_2 by done.
    assert (Hcalc : Process.calculate_statistics (procs h' x)
                    = Process.calculate_statistics (procs h x)).
    { destruct Hrec as [_ Hq]. rewrite Hq.
      case_decide; [apply calculate_statistics_idem|done]. }
    assert (Hrec' : recomputed h (seen ++ [x])
                      (upd_proc x Process.calculate_statistics h')).
    { split; [by destruct Hrec|]. intros q.
      destruct (decide (q = x)) as [->|Hne].
      - heap_simpl. rewrite Hcalc, decide_True; [done|]. split; [|done].
        apply elem_of_app. right. by left.
      - heap_simpl. destruct Hrec as [_ Hq]. rewrite Hq.
        apply decide_ext. rewrite elem_of_app, list_elem_of_singleton. tauto. }
    rewrite Hcalc.
    destruct (IH (seen ++ [x]) _
                (table ++ [row_of (Process.calculate_statistics (procs h x))]) Hrec')
      as (Hr & Htab & Hrows).
    split; [done|]. split.
    + intros y Hy. apply Htab, elem_of_app. by left.
    + intros p Hp Hst. apply elem_of_cons in Hp as [->|Hp]; [|by apply Hrows].
      apply Htab, elem_of_app. right. by left.
  - rewrite bool_decide_eq_false_2 by done.
    assert (Hrec' : recomputed h (seen ++ [x]) h').
    { split; [by destruct Hrec|]. intros q. destruct Hrec as [_ Hq]. rewrite Hq.
      apply decide_ext. rewrite elem_of_app, list_elem_of_singleton.
      split; [tauto|]. intros [[?| ->] ?]; [tauto|done]. }
    destruct (IH (seen ++ [x]) h' table Hrec') as (Hr & Htab & Hrows).
    split; [done|]. split; [done|].
    intros p Hp Hst. apply elem_of_cons in Hp as [->|Hp]; [done|by apply Hrows].
Qed.

(** The report has the line of every Terminated process, read from the
    store the report leaves. *)
Lemma show_statistics_terminated h processes p :
  p ∈ processes ->
  Process.state (procs (show_statistics h processes).1 p) = TERMINATED ->
  row_of (procs (show_statistics h processes).1 p) ∈ (show_statistics h processes).2.
Proof.
  intros Hp Hst. unfold show_statistics in *.
  assert (Hrec0 : recomputed h [] h).
  { split; [done|]. intros q. rewrite decide_False; [done|].
    intros [Hq _]. by apply elem_of_nil in Hq. }
  destruct (statistics_fold h (py_sorted (fun p => Process.id (procs h p)) processes)
              [] h [] Hrec0) as (Hrec & _ & Hrows).
  rewrite app_nil_l in Hrec.
  rewrite (recomputed_state _ _ _ p Hrec) in Hst.
  destruct Hrec as [_ Hq]. rewrite (Hq p), decide_True.
  - apply Hrows; [|done]. by apply elem_of_py_sorted.
  - split; [|done]. by apply elem_of_py_sorted.
Qed.

Lemma row_of_calculate_statistics o :
  row_of (Process.calculate_statistics o) = report_line o.
Proof. by destruct o as [? ? ? ? ? ? ? ? ? ? [f|]]. Qed.

(** The lines of the report, in closed form. *)
Lemma statistics_fold_table h l : forall seen h' table,
  recomputed h seen h' ->
  (fold_left statistics_step l (h', table)).2
  = table ++ map (fun p => report_line (procs h p))
               (filter (fun p => Process.state (procs h p) = TERMINATED) l).
Proof.
  induction l as [|x l IH]; intros seen h' table Hrec.
  { cbn [fold_left snd]. by rewrite filter_nil, app_nil_r. }
  cbn [fold_left]. rewrite statistics_step_eq.
  rewrite (recomputed_state h seen h' x Hrec), filter_cons.
  destruct (decide (Process.state (procs h x) = TERMINATED)) as [Hx|Hx].
  - rewrite bool_decide_eq_true_2 by done.
    assert (Hcalc : Process.calculate_statistics (procs h' x)
                    = Process.calculate_statistics (procs h x)).
    { destruct Hrec as [_ Hq]. rewrite Hq.
      case_decide; [apply calculate_statistics_idem|done]. }
    assert (Hrec' : recomputed h (seen ++ [x])
                      (upd_proc x Process.calculate_statistics h')).
    { split; [by destruct Hrec|]. intros q.
      destruct (decide (q = x)) as [->|Hne].
      - heap_simpl. rewrite Hcalc, decide_True; [done|]. split; [|done].
        apply elem_of_app. right. by left.
      - heap_simpl. destruct Hrec as [_ Hq]. rewrite Hq.
        apply decide_ext. rewrite elem_of_app, list_elem_of_singleton. tauto. }
    rewrite (IH _ _ _ Hrec'), Hcalc, row_of_calculate_statistics.
    cbn [map]. by rewrite <- app_assoc.
  - rewrite bool_decide_eq_false_2 by done.
    assert (Hrec' : recomputed h (seen ++ [x]) h').
    { split; [by destruct Hrec|]. intros q. destruct Hrec as [_ Hq]. rewrite Hq.
      apply decide_ext. rewrite elem_of_app, list_elem_of_singleton.
      split; [tauto|]. intros [[?| ->] ?]; [tauto|done]. }
    by rewrite (IH _ _ _ Hrec').
Qed.

Lemma show_statistics_table h processes :
  (show_statistics h processes).2
  = map (fun p => report_line (procs h p))
      (filter (fun p => Process.state (procs h p) = TERMINATED)
         (py_sorted (fun p => Process.id (procs h p)) processes)).
Proof.
  unfold show_statistics.
  assert (Hrec0 : recomputed h [] h).
  { split; [done|]. intros q. rewrite decide_False; [done|].
    intros [Hq _]. by apply elem_of_nil in Hq. }
  by rewrite (statistics_fold_table h _ [] h [] Hrec0).
Qed.

Lemma show_statistics_store h processes :
  recomputed h (py_sorted (fun p => Process.id (procs h p)) processes)
    (show_statistics h processes).1.
Proof.
  unfold show_statistics.
  assert (Hrec0 : recomputed h [] h).
  { split; [done|]. intros q. rewrite decide_False; [done|].
    intros [Hq _]. by apply elem_of_nil in Hq. }
  destruct (statistics_fold h (py_sorted (fun p => Process.id (procs h p)) processes)
              [] h [] Hrec0) as (Hrec & _ & _).
  by rewrite app_nil_l in Hrec.
Qed.

(** The loop of [run] stops at the first tick boundary at which the
    terminated queue is full or the clock has reached the limit. *)
Lemma run_loop_stops total fuel : forall s,
  (Z.to_nat (max_ticks - clock s) <= fuel)%nat ->
  exists n w,
    run_loop fuel total s = Some (Nat.iter n tick s, w)
    /\ (forall m, (m < n)%nat ->
          (length (terminated_queue (Nat.iter m tick s)) < total)%nat
          /\ clock (Nat.iter m tick s) < max_ticks)
    /\ ((w = false /\ (total <= length (terminated_queue (Nat.iter n tick s)))%nat)
        \/ (w = true
            /\ (length (terminated_queue (Nat.iter n tick s)) < total)%nat
            /\ max_ticks <= clock (Nat.iter n tick s))).
Proof.
  induction fuel as [|fuel IH]; intros s Hfuel; cbn [run_loop].
  - exists 0%nat. cbn [Nat.iter].
    destruct (Nat.ltb_spec (length (terminated_queue s)) total) as [Hlt|Hge]; cbn [negb].
    + destruct (Z.leb_spec max_ticks (clock s)) as [Hmax|Hmax]; [|lia].
      exists true. split; [done|]. split; [lia|]. right. done.
    + exists false. split; [done|]. split; [lia|]. left. done.
  - destruct (Nat.ltb_spec (length (terminated_queue s)) total) as [Hlt|Hge]; cbn [negb].
    + destruct (Z.leb_spec max_ticks (clock s)) as [Hmax|Hmax].
      * exists 0%nat, true. cbn [Nat.iter]. split; [done|]. split; [lia|]. right. done.
      * destruct (IH (tick s)) as (n & w & Hrun & Hbefore & Hstop).
        { rewrite tick_clock. lia. }
        exists (S n), w. rewrite Nat.iter_succ_r. split; [done|]. split; [|done].
        intros [|m] Hm; [done|]. rewrite Nat.iter_succ_r. apply Hbefore. lia.
    + exists 0%nat, false. cbn [Nat.iter]. split; [done|]. split; [lia|]. left. done.
Qed.

(** C6.  A run always terminates: given as much fuel as there are ticks
    left before [max_ticks] (1000), [run] returns.  The loop goes through
    whole ticks and stops at the first tick boundary at which the
    terminated queue has as many processes as were loaded, or, failing
    that, the clock has reached the limit: at no earlier boundary did
    either hold.  The warning is raised exactly on the exit through the
    limit.  In both cases the report has, in increasing order of id, the
    line of each loaded process that is Terminated, and nothing else:
    its id, arrival, burst and finish times, the finish time minus the
    arrival time, and the first execution time minus the arrival time;
    the state left is the one the loop stopped in, with the statistics
    of those processes recomputed. *)
Theorem run_terminates (s : Simulator.t) (fuel : nat) :
  (Z.to_nat (max_ticks - clock s) <= fuel)%nat ->
  exists out n s',
    run fuel s = Some out
    /\ s' = Nat.iter n tick s
    /\ (forall m, (m < n)%nat ->
          (length (terminated_queue (Nat.iter m tick s)) < length (all_processes s))%nat
          /\ clock (Nat.iter m tick s) < max_ticks)
    /\ ((warning out = false
         /\ (length (all_processes s) <= length (terminated_queue s'))%nat)
        \/ (warning out = true
            /\ (length (terminated_queue s') < length (all_processes s))%nat
            /\ max_ticks <= clock s'))
    /\ final out = set_heap (heap (final out)) s'
    /\ recomputed (heap s')
         (py_sorted (fun p => Process.id (procs (heap s') p)) (loaded_processes s'))
         (heap (final out))
    /\ report out
       = map (fun p => report_line (procs (heap s') p))
           (filter (fun p => Process.state (procs (heap s') p) = TERMINATED)
              (py_sorted (fun p => Process.id (procs (heap s') p))
                 (loaded_processes s')))
    /\ (forall p, p ∈ loaded_processes (final out) ->
          Process.state (procs (heap (final out)) p) = TERMINATED ->
          row_of (procs (heap (final out)) p) ∈ report out).
Proof.
  intros Hfuel. unfold run.
  destruct (run_loop_stops (length (all_processes s)) fuel s Hfuel)
    as (n & w & -> & Hbefore & Hstop).
  pose proof (show_statistics_terminated (heap (Nat.iter n tick s))
                (loaded_processes (Nat.iter n tick s))) as Hrep.
  pose proof (show_statistics_table (heap (Nat.iter n tick s))
                (loaded_processes (Nat.iter n tick s))) as Htab.
  pose proof (show_statistics_store (heap (Nat.iter n tick s))
                (loaded_processes (Nat.iter n tick s))) as Hsto.
  destruct (show_statistics (heap (Nat.iter n tick s))
              (loaded_processes (Nat.iter n tick s))) as [h table].
  eexists _, n, _. split; [done|]. split; [done|].
  cbn [final warning report fst snd] in *. sim_simpl.
  split; [done|]. split; [done|]. split; [done|]. split; [done|]. split; [done|].
  exact Hrep.
Qed.

Lemma run_terminates_witness : exists out, run 1000 oversized = Some out.
Proof.
  assert (Hfuel : (Z.to_nat (max_ticks - clock oversized) <= 1000)%nat)
    by (vm_compute; apply le_n).
  destruct (run_terminates oversized 1000 Hfuel) as (out & n & s' & Hrun & _).
  by exists out.
Defined.

(** * The engine as a whole *)

Import Simulator.

(** ** The moves a tick is made of *)

Lemma moves_trans K p1 s1 p2 s2 p3 s3 :
  moves K p1 s1 p2 s2 -> moves K p2 s2 p3 s3 -> moves K p1 s1 p3 s3.
Proof.
  intros H1. induction 1 as [|k pa sa pb sb pc sc _ IH Hk Hm]; [done|].
  eapply moves_step; [apply IH; exact H1|exact Hk|exact Hm].
Qed.

Lemma moves_one (K : kind -> Prop) k p1 s1 p2 s2 :
  K k -> move k p1 s1 p2 s2 -> moves K p1 s1 p2 s2.
Proof. intros Hk Hm. eapply moves_step; [apply moves_refl|exact Hk|exact Hm]. Qed.

Lemma moves_weaken (K K' : kind -> Prop) p1 s1 p2 s2 :
  (forall k, K k -> K' k) -> moves K p1 s1 p2 s2 -> moves K' p1 s1 p2 s2.
Proof.
  intros HK. induction 1 as [|k pa sa pb sb pc sc _ IH Hk Hm]; [apply moves_refl|].
  eapply moves_step; [exact IH|by apply HK|exact Hm].
Qed.

(** The invariant is kept by every move. *)
Lemma Inv_move positive k pending s pending' s' :
  move k pending s pending' s' -> Inv positive pending s -> Inv positive pending' s'.
Proof.
  destruct 1 as [s|s flag|p pending s Hwhy|p k pending s Hroom Hk|p k s Hp Hroom Hk
                |c s Hc Hpre|n s Hc Hn|s|s Hc|c s Hc Hrem|c s Hc Hrem|s]; intros HI.
  - done.
  - unfold Inv in *. sim_simpl. unfold arriving, to_come.
    apply (consistent_same_core positive _ (heap s)).
    + split; [|intros k; by rewrite mark_new_parts].
      intros q. rewrite mark_new_procs. case_decide as Hq; [|done].
      obj_simpl. repeat split; try done.
      apply list_elem_of_filter in Hq as [_ Hq].
      destruct HI as [_ Hnew _ _ _ _ _ _]. symmetry. by apply Hnew.
    + eapply consistent_places_le; [|exact HI].
      intros q. rewrite occ_nil. apply occ_filter_excl. intros x; lia.
  - unfold Inv in *. sim_simpl. by apply consistent_suspend.
  - unfold Inv in *. sim_simpl. apply consistent_place; [done|].
    apply find_best_fit_free in Hk as (_ & Hfree & _). by apply is_free_true.
  - unfold Inv in *. sim_simpl. apply consistent_readmit; [done|done|].
    apply find_best_fit_free in Hk as (_ & Hfree & _). by apply is_free_true.
  - unfold Inv in *. sim_simpl. rewrite Hc in HI. by apply consistent_preempt.
  - unfold Inv in *. sim_simpl. rewrite Hc in HI.
    apply select_next_process_spec in Hn as [Hin _]. by apply consistent_dispatch.
  - by apply Inv_update_wait_times.
  - done.
  - unfold Inv in *. sim_simpl. rewrite Hc in *. by apply consistent_run.
  - unfold Inv in *. sim_simpl. rewrite Hc in HI. by apply consistent_finish.
  - done.
Qed.

Lemma Inv_moves positive K pending s pending' s' :
  moves K pending s pending' s' -> Inv positive pending s -> Inv positive pending' s'.
Proof.
  induction 1 as [|k pa sa pb sb pc sc _ IH Hk Hm]; [done|].
  intros HI. eapply Inv_move; [exact Hm|by apply IH].
Qed.

(** An admission is one move. *)
Lemma try_load_to_memory_move positive pending p s :
  Inv positive (p :: pending) s ->
  move Quiet (p :: pending) s pending (_try_load_to_memory p s).
Proof.
  intros HI. unfold Inv in *.
  assert (Hsus : py_in p (suspended_queue s) = false).
  { apply py_in_false. intros Hin. destruct HI as [Hpl _ _ _ _ _ _ _]. contra Hpl. }
  assert (Hrdy : py_in p (ready_queue s) = false).
  { apply py_in_false. intros Hin. destruct HI as [Hpl _ _ _ _ _ _ _]. contra Hpl. }
  clear HI. unfold _try_load_to_memory.
  destruct (Z.leb_spec (degree_of_multiprogramming s) (current_dom s)) as [Hfull|Hroom].
  - sim_simpl. rewrite Hsus. cbn [negb]. apply mv_suspend. by left.
  - destruct (allocate_process_cases (partitions s) p (heap s))
      as [[Hno ->]|(k & Hk & _ & _ & _ & ->)].
    + sim_simpl. rewrite Hsus. cbn [negb]. apply mv_suspend. by right.
    + sim_simpl. rewrite Hrdy. sim_simpl. rewrite Hsus. by apply mv_place.
Qed.

Lemma try_load_fold_moves positive pending : forall s,
  Inv positive pending s ->
  moves (eq Quiet) pending s [] (fold_left (fun st p => _try_load_to_memory p st) pending s).
Proof.
  induction pending as [|p pending IH]; intros s HI; [apply moves_refl|].
  cbn [fold_left].
  eapply moves_trans; [|apply IH; by apply Inv_try_load_to_memory].
  eapply moves_one; [done|]. by eapply try_load_to_memory_move.
Qed.

Lemma arrive_loop_taken s :
  exists flag,
    fold_left (arrive_step (clock s)) (all_processes s)
      (heap s, [], [], new_process_arrived s)
    = (mark_new (arriving s) (heap s), arriving s, to_come s, flag).
Proof.
  destruct (arrive_loop_closed (clock s) (all_processes s) (heap s) [] []
              (new_process_arrived s)) as [flag ->].
  by exists flag.
Qed.

(** The arrivals: the processes of the current time are taken out of
    the waiting list, then admitted one by one. *)
Lemma arrive_new_processes_moves positive s :
  Inv positive [] s ->
  exists flag,
    let s1 := set_all_processes (to_come s)
                (set_new_process_arrived flag
                   (set_heap (mark_new (arriving s) (heap s)) s)) in
    move Take [] s (arriving s) s1
    /\ moves (eq Quiet) (arriving s) s1 [] (_arrive_new_processes s).
Proof.
  intros HI. unfold _arrive_new_processes.
  destruct (arrive_loop_taken s) as [flag ->]. exists flag. cbv zeta.
  split; [apply mv_take|].
  apply (try_load_fold_moves positive).
  eapply Inv_move; [apply (mv_take s flag)|exact HI].
Qed.

Lemma current_dom_loop_state s h ready to_remove dom :
  current_dom (loop_state s (h, ready, to_remove, dom))
  = resident ready (Scheduler.current_process (scheduler s)).
Proof. reflexivity. Qed.

(** The re-admission loop: one move for each process it places. *)
Lemma load_suspended_loop_moves positive s queue :
  forall h ready to_remove dom,
  Inv positive [] (loop_state s (h, ready, to_remove, dom)) ->
  dom = resident ready (Scheduler.current_process (scheduler s)) ->
  (forall q, (occ q queue <= occ q (without to_remove (suspended_queue s)))%nat) ->
  moves (eq Quiet) [] (loop_state s (h, ready, to_remove, dom)) []
    (loop_state s (load_suspended_loop (partitions s) (degree_of_multiprogramming s)
                     queue (h, ready, to_remove, dom))).
Proof.
  induction queue as [|p queue IH]; intros h ready to_remove dom HI Hdom Hocc;
    [apply moves_refl|].
  cbn [load_suspended_loop].
  destruct (Z.leb_spec (degree_of_multiprogramming s) dom) as [Hfull|Hroom];
    [apply moves_refl|].
  assert (Hp : p ∈ without to_remove (suspended_queue s)).
  { apply occ_elem. specialize (Hocc p). rewrite occ_cons, decide_True in Hocc by done.
    lia. }
  assert (Hrdy : py_in p ready = false).
  { apply py_in_false. intros Hin. unfold Inv, loop_state in HI. sim_simpl.
    destruct HI as [Hpl _ _ _ _ _ _ _]. contra Hpl. }
  destruct (allocate_process_cases (partitions s) p h)
    as [[_ ->]|(k & Hk & _ & _ & _ & ->)].
  - apply IH; [done|done|]. intros q. specialize (Hocc q). rewrite occ_cons in Hocc. lia.
  - rewrite Hrdy. cbn [negb].
    assert (Hmove : move Quiet [] (loop_state s (h, ready, to_remove, dom)) []
                      (loop_state s (placed k p h, ready ++ [p], to_remove ++ [p], dom + 1))).
    { unfold loop_state. cbn [fst snd]. rewrite without_snoc.
      apply (mv_readmit p k (set_suspended_queue (without to_remove (suspended_queue s))
                               (set_ready_queue ready (set_heap h s)))); sim_simpl.
      - done.
      - unfold current_dom. sim_simpl. subst dom. unfold resident in Hroom. lia.
      - done. }
    eapply moves_trans; [eapply moves_one; [done|exact Hmove]|].
    apply IH.
    + eapply Inv_move; [exact Hmove|exact HI].
    + subst dom. by rewrite resident_snoc.
    + intros q. rewrite without_snoc, occ_py_remove. specialize (Hocc q).
      rewrite occ_cons in Hocc. repeat case_decide; subst; try done; lia.
Qed.

Lemma try_load_suspended_moves positive s :
  Inv positive [] s -> moves (eq Quiet) [] s [] (_try_load_suspended s).
Proof.
  intros HI. unfold _try_load_suspended.
  destruct (degree_of_multiprogramming s <=? current_dom s); [apply moves_refl|].
  pose proof (load_suspended_loop_moves positive s (suspended_queue s) (heap s)
                (ready_queue s) [] (current_dom s)) as Hloop.
  destruct s as [h ps d clk sc all loaded nq ready susp term f1 f2].
  unfold loop_state in Hloop. sim_simpl. cbn [without fold_left] in Hloop.
  specialize (Hloop HI eq_refl (fun q => le_n _)).
  destruct (load_suspended_loop ps d susp (h, ready, [], _))
    as [[[h' ready'] to_remove'] dom'].
  exact Hloop.
Qed.

Lemma schedule_process_moves positive s :
  Inv positive [] s -> moves (eq Quiet) [] s [] (_schedule_process s).
Proof.
  intros HI. rewrite schedule_process_phases.
  assert (H1 : moves (eq Quiet) [] s [] (preempt_phase s)).
  { destruct (Scheduler.should_preempt (scheduler s) (heap s) (ready_queue s)) eqn:Hpre.
    - pose proof Hpre as Hpre'. apply should_preempt_iff in Hpre' as (c & Hc & _).
      rewrite (preempt_phase_due s c Hc Hpre).
      assert (Hrdy : py_in c (ready_queue s) = false).
      { apply py_in_false. intros Hin. unfold Inv in HI. rewrite Hc in HI.
        destruct HI as [Hpl _ _ _ _ _ _ _]. contra Hpl. }
      rewrite Hrdy. eapply moves_one; [done|]. by apply mv_preempt.
    - rewrite preempt_phase_not_due by done. apply moves_refl. }
  eapply moves_trans; [exact H1|].
  generalize (preempt_phase s). clear s HI H1. intros s.
  destruct (Scheduler.current_process (scheduler s)) as [c|] eqn:Hc.
  { unfold dispatch_phase. rewrite Hc. apply moves_refl. }
  destruct (Scheduler.select_next_process (heap s) (ready_queue s)) as [n|] eqn:Hn.
  - rewrite (dispatch_phase_idle s n Hc Hn). eapply moves_one; [done|]. by apply mv_dispatch.
  - unfold dispatch_phase. rewrite Hc, Hn. apply moves_refl.
Qed.

Lemma execute_tick_move positive s :
  Inv positive [] s -> move Exec [] s [] (_execute_tick s).
Proof.
  intros HI.
  destruct (Scheduler.current_process (scheduler s)) as [c|] eqn:Hc.
  - destruct (Z.lt_ge_cases 1 (Scheduler.remaining (heap s) c)) as [Hrun|Hfin].
    + rewrite (execute_tick_run s c Hc Hrun).
      pose proof (mv_run c s Hc Hrun) as Hm. by destruct s.
    + rewrite (execute_tick_finish s c Hc Hfin).
      assert (Hterm : py_in c (terminated_queue s) = false).
      { apply py_in_false. intros Hin. unfold Inv in HI. rewrite Hc in HI.
        destruct HI as [Hpl _ _ _ _ _ _ _]. contra Hpl. }
      rewrite Hterm. by apply mv_finish.
  - rewrite (execute_tick_idle s Hc). by apply mv_idle.
Qed.

(** Every operation of the engine is a sequence of moves. *)
Lemma operation_moves positive s s' :
  Inv positive [] s -> operation s s' -> moves (fun _ => True) [] s [] s'.
Proof.
  intros HI Hop. destruct Hop.
  - eapply moves_one; [done|apply mv_flags].
  - destruct (arrive_new_processes_moves positive s HI) as (flag & Htake & Hrest).
    eapply moves_trans; [eapply moves_one; [done|exact Htake]|].
    eapply moves_weaken; [|exact Hrest]. done.
  - eapply moves_weaken; [|by eapply try_load_suspended_moves]. done.
  - eapply moves_weaken; [|by eapply schedule_process_moves]. done.
  - eapply moves_one; [done|apply mv_wait].
  - eapply moves_one; [done|by eapply execute_tick_move].
  - eapply moves_one; [done|apply mv_clock].
Qed.

(** A property kept by every move (in the states of the invariant) holds
    in every state the engine goes through. *)
Section MoveInduction.

Variable positive : Prop.
Variable J : list ProcRef -> t -> Prop.
Variable K : kind -> Prop.

Hypothesis J_move : forall k pending s pending' s',
  K k -> Inv positive pending s -> J pending s -> move k pending s pending' s' ->
  J pending' s'.

Lemma kept_by_moves pending s pending' s' :
  moves K pending s pending' s' -> Inv positive pending s -> J pending s ->
  J pending' s'.
Proof.
  induction 1 as [|k pa sa pb sb pc sc Hms IH Hk Hm]; [done|].
  intros HI HJ. eapply J_move; [exact Hk| |by apply IH|exact Hm].
  eapply Inv_moves; [exact Hms|exact HI].
Qed.

End MoveInduction.

Lemma kept_by_running positive (J : list ProcRef -> t -> Prop) s0 s :
  (forall k pending s pending' s',
     Inv positive pending s -> J pending s -> move k pending s pending' s' ->
     J pending' s') ->
  Inv positive [] s0 -> J [] s0 -> running s0 s -> J [] s.
Proof.
  intros HJ HI H0. induction 1 as [|s s' Hrun IH Hop]; [done|].
  assert (HIs : Inv positive [] s) by by eapply Inv_running.
  eapply (kept_by_moves positive J (fun _ => True)).
  - intros k pending s1 pending' s1' _. apply HJ.
  - eapply operation_moves; [exact HIs|exact Hop].
  - exact HIs.
  - exact IH.
Qed.

(** The moves of a whole tick, in their order. *)
Lemma tick_moves positive s :
  Inv positive [] s ->
  exists s0 s1 s2 s3 s4,
    move Flags [] s [] s0
    /\ move Take [] s0 (arriving s0) s1
    /\ moves (eq Quiet) (arriving s0) s1 [] s2
    /\ move Wait [] s2 [] s3
    /\ move Exec [] s3 [] s4
    /\ move Clock [] s4 [] (tick s).
Proof.
  intros HI. rewrite tick_stages. unfold before_execute.
  set (s0 := set_process_finished false (set_new_process_arrived false s)).
  assert (HI0 : Inv positive [] s0) by done.
  destruct (arrive_new_processes_moves positive s0 HI0) as (flag & Htake & Hadm).
  cbv zeta in *.
  set (s1 := set_all_processes _ _) in *.
  assert (HI1 : Inv positive [] (_arrive_new_processes s0)) by by apply Inv_arrive_new_processes.
  assert (HI2 : Inv positive [] (_try_load_suspended (_arrive_new_processes s0)))
    by by apply Inv_try_load_suspended.
  assert (HI3 : Inv positive [] (_schedule_process (_try_load_suspended (_arrive_new_processes s0))))
    by by apply Inv_schedule_process.
  assert (HI4 : Inv positive [] (_update_wait_times (_schedule_process (_try_load_suspended (_arrive_new_processes s0)))))
    by by apply Inv_update_wait_times.
  exists s0, s1,
    (_schedule_process (_try_load_suspended (_arrive_new_processes s0))),
    (_update_wait_times (_schedule_process (_try_load_suspended (_arrive_new_processes s0)))),
    (_execute_tick (_update_wait_times (_schedule_process (_try_load_suspended (_arrive_new_processes s0))))).
  split; [apply mv_flags|]. split; [exact Htake|]. split.
  { eapply moves_trans; [exact Hadm|].
    eapply moves_trans; [by eapply try_load_suspended_moves|].
    by eapply schedule_process_moves. }
  split; [apply mv_wait|]. split; [by eapply execute_tick_move|]. apply mv_clock.
Qed.

(** A property of the tick boundaries, with the properties it turns
    into inside the tick, holds in every state the engine reaches. *)
Section TickInduction.

Variable positive : Prop.
Variable K0 : t -> Prop.
Variable K1 : list ProcRef -> t -> Prop.
Variable K2 K3 : t -> Prop.

Hypothesis K_flags : forall s s',
  Inv positive [] s -> K0 s -> move Flags [] s [] s' -> K0 s'.
Hypothesis K_take : forall s pending s',
  Inv positive [] s -> K0 s -> move Take [] s pending s' -> K1 pending s'.
Hypothesis K_quiet : forall pending s pending' s',
  Inv positive pending s -> K1 pending s -> move Quiet pending s pending' s' ->
  K1 pending' s'.
Hypothesis K_wait : forall s s',
  Inv positive [] s -> K1 [] s -> move Wait [] s [] s' -> K2 s'.
Hypothesis K_exec : forall s s',
  Inv positive [] s -> K2 s -> move Exec [] s [] s' -> K3 s'.
Hypothesis K_clock : forall s s',
  Inv positive [] s -> K3 s -> move Clock [] s [] s' -> K0 s'.

Lemma kept_by_tick s : Inv positive [] s -> K0 s -> K0 (tick s).
Proof.
  intros HI H0.
  destruct (tick_moves positive s HI)
    as (s0 & s1 & s2 & s3 & s4 & Hf & Ht & Hq & Hw & He & Hc).
  assert (HI0 : Inv positive [] s0) by (eapply Inv_move; [exact Hf|exact HI]).
  assert (HI1 : Inv positive (arriving s0) s1) by (eapply Inv_move; [exact Ht|exact HI0]).
  assert (HI2 : Inv positive [] s2) by (eapply Inv_moves; [exact Hq|exact HI1]).
  assert (HI3 : Inv positive [] s3) by (eapply Inv_move; [exact Hw|exact HI2]).
  assert (HI4 : Inv positive [] s4) by (eapply Inv_move; [exact He|exact HI3]).
  eapply K_clock; [exact HI4| |exact Hc].
  eapply K_exec; [exact HI3| |exact He].
  eapply K_wait; [exact HI2| |exact Hw].
  eapply (kept_by_moves positive K1 (eq Quiet)); [|exact Hq|exact HI1|].
  - intros k pending x pending' x' <-. apply K_quiet.
  - eapply K_take; [exact HI0| |exact Ht]. eapply K_flags; [exact HI|exact H0|exact Hf].
Qed.

Lemma kept_by_reachable s0 s :
  Inv positive [] s0 -> K0 s0 -> reachable s0 s -> K0 s /\ Inv positive [] s.
Proof.
  intros HI H0. induction 1 as [|s _ IH]; [done|].
  destruct IH as [IH1 IH2]. split; [by apply kept_by_tick|by apply Inv_tick].
Qed.

End TickInduction.

Lemma same_identity_refl h : same_identity h h.
Proof. done. Qed.

Lemma same_identity_trans h1 h2 h3 :
  same_identity h1 h2 -> same_identity h2 h3 -> same_identity h1 h3.
Proof.
  intros [Hp1 Hk1] [Hp2 Hk2]. split.
  - intros q. by rewrite Hp2, Hp1.
  - intros k. by rewrite Hk2, Hk1.
Qed.

Lemma process_identity_state st o :
  process_identity (Process.set_state st o) = process_identity o.
Proof. done. Qed.

Lemma only_wait_identity o o' : only_wait o o' -> process_identity o' = process_identity o.
Proof. by intros ->. Qed.

(** The case analysis on a move, with the names used below. *)
Ltac move_cases Hm :=
  destruct Hm as [s|s flag|p pending s Hwhy|p k pending s Hroom Hk|p k s Hp Hroom Hk
                 |c s Hc Hpre|n s Hc Hn|s|s Hc|c s Hc Hrem|c s Hc Hrem|s].

(** The partition held by the running process. *)
Lemma Inv_current_partition positive pending s c :
  Inv positive pending s ->
  Scheduler.current_process (scheduler s) = Some c ->
  exists k, Process.partition (procs (heap s) c) = Some k
    /\ Partition.process (parts (heap s) k) = Some c.
Proof.
  intros [_ _ _ _ Hcu _ Hli _] Hc. destruct (Hcu c Hc) as (_ & Hpt & _).
  destruct (Process.partition (procs (heap s) c)) as [k|] eqn:Hck; [|done].
  exists k. split; [done|]. by apply Hli.
Qed.

Lemma move_identity positive k pending s pending' s' :
  Inv positive pending s -> move k pending s pending' s' ->
  same_identity (heap s) (heap s') /\ same_configuration s s' .
Proof.
  intros HI Hm. move_cases Hm; sim_simpl; (split; [|done]).
  - done.
  - split; [|intros k; by rewrite mark_new_parts].
    intros q. rewrite mark_new_procs. by case_decide.
  - split; [|done]. intros q. read_heap. by case_decide; subst.
  - split.
    + intros q. read_heap. by case_decide; subst.
    + intros j. read_heap. by case_decide; subst.
  - split.
    + intros q. read_heap. by case_decide; subst.
    + intros j. read_heap. by case_decide; subst.
  - split; [|done]. intros q. read_heap. by case_decide; subst.
  - split; [|intros j; by rewrite started_parts].
    intros q. read_heap. case_decide; subst; [|done].
    by destruct (Process.first_execution_time (procs (heap s) n)).
  - destruct (update_wait_times_frame s) as (Hq & Hp & _).
    split; [|intros k; by rewrite Hp].
    intros q. by apply only_wait_identity.
  - done.
  - split; [|done]. intros q. unfold ran. read_heap. by case_decide; subst.
  - destruct (Inv_current_partition positive _ s c HI Hc) as (k & Hck & Hkc).
    split.
    + intros q. rewrite (finished_procs _ c k _ q Hck Hkc).
      case_decide; subst; [|done]. unfold finished_process.
      by rewrite calculate_statistics_eq.
    + intros j. rewrite (finished_parts _ c k _ j Hck Hkc). by case_decide; subst.
  - done.
Qed.

(** ** The store at start-up *)

Lemma startup_process rows config degree q :
  procs (heap (startup rows config degree)) q
  = new_process (nth q rows (0, 0, 0, 1)).
Proof.
  unfold startup, load_processes, store_of. sim_simpl. cbn [procs].
  revert q. induction rows as [|r rows IH]; intros [|q]; cbn [map nth]; done.
Qed.

Lemma startup_partition rows config degree k :
  parts (heap (startup rows config degree)) k
  = new_partition (nth k config (0, 0, 0)).
Proof.
  unfold startup, load_processes, store_of. sim_simpl. cbn [parts].
  revert k. induction config as [|r config IH]; intros [|k]; cbn [map nth]; done.
Qed.

Lemma new_process_identity r : process_identity (new_process r) = r.
Proof. by destruct r as [[[i sz] a] b]. Qed.

Lemma new_partition_identity r : partition_identity (new_partition r) = r.
Proof. by destruct r as [[i sz] a]. Qed.

(** ** Kept by the engine: identities and configuration *)

Lemma identity_running positive s0 s :
  Inv positive [] s0 -> running s0 s ->
  same_identity (heap s0) (heap s) /\ same_configuration s0 s.
Proof.
  intros HI Hrun.
  apply (kept_by_running positive
           (fun _ s => same_identity (heap s0) (heap s) /\ same_configuration s0 s) s0 s);
    try done.
  intros k pending s1 pending' s1' HI1 [Hid (?&?&?&?)] Hm.
  destruct (move_identity positive k pending s1 pending' s1' HI1 Hm) as [Hid' (?&?&?&?)].
  split; [by eapply same_identity_trans|]. repeat split; congruence.
Qed.

(** The simulation never rewrites what identifies a process (its id, size,
    arrival time and burst time) or a partition (its id, size and start
    address), nor the configuration of the engine. *)
Theorem identity_kept (rows : list process_row) (config : list partition_row)
    (degree : Z) (s : Simulator.t) :
  running (startup rows config degree) s ->
  (forall q, process_identity (procs (heap s) q) = nth q rows (0, 0, 0, 1))
  /\ (forall k, partition_identity (parts (heap s) k) = nth k config (0, 0, 0))
  /\ partitions s = seq 0 (length config)
  /\ loaded_processes s = seq 0 (length rows)
  /\ degree_of_multiprogramming s = degree
  /\ new_queue s = [].
Proof.
  intros Hrun.
  destruct (identity_running (positive_bursts rows) _ s (Inv_startup rows config degree) Hrun)
    as [[Hp Hk] (Hps & Hd & Hl & Hn)].
  split; [intros q; by rewrite Hp, startup_process, new_process_identity|].
  split; [intros k; by rewrite Hk, startup_partition, new_partition_identity|].
  done.
Qed.

Lemma identity_kept_witness :
  process_identity (procs (heap (tick (tick short_arrival))) 1%nat) = (2, 50, 1, 3)
  /\ partition_identity (parts (heap (tick (tick short_arrival))) 0%nat) = (1, 100, 100).
Proof.
  pose proof (identity_kept [(1, 50, 0, 10); (2, 50, 1, 3)] [(1, 100, 100); (2, 100, 200)] 5
                (tick (tick short_arrival))
                (reachable_running _ _
                   (reachable_tick _ _ (reachable_tick _ _ (reachable_start _)))))
    as (Hp & Hk & _).
  split; [exact (Hp 1%nat)|exact (Hk 0%nat)].
Defined.

Lemma process_identity_size o o' :
  process_identity o' = process_identity o -> Process.size o' = Process.size o.
Proof. unfold process_identity. congruence. Qed.

Lemma well_fitted_same ps h h' :
  (forall k, parts h' k = parts h k) -> same_identity h h' ->
  well_fitted ps h -> well_fitted ps h'.
Proof.
  intros Hk [Hid _] Hw k. specialize (Hw k). rewrite Hk.
  destruct (Partition.process (parts h k)) as [p|]; [|done].
  by rewrite (process_identity_size _ _ (Hid p)).
Qed.

Lemma well_fitted_placed ps h p k :
  MemoryManager.find_best_fit ps h p = Some k ->
  well_fitted ps h -> well_fitted ps (placed k p h).
Proof.
  intros Hk Hw j. apply find_best_fit_free in Hk as (Hin & Hfree & Hsz).
  specialize (Hw j). rewrite placed_parts. case_decide as Hj; [subst j|].
  - obj_simpl. rewrite placed_procs, decide_True by done. by obj_simpl.
  - destruct (Partition.process (parts h j)) as [q|]; [|done].
    rewrite placed_procs. by case_decide; subst; obj_simpl.
Qed.

Lemma move_well_fitted positive k pending s pending' s' :
  Inv positive pending s -> move k pending s pending' s' ->
  well_fitted (partitions s) (heap s) -> well_fitted (partitions s') (heap s').
Proof.
  intros HI Hm.
  destruct (move_identity positive k pending s pending' s' HI Hm) as [Hid (Hps & _)].
  rewrite Hps. clear Hps. revert Hid.
  move_cases Hm; sim_simpl; intros Hid Hw.
  - done.
  - apply (well_fitted_same _ (heap s)); [|done|done].
    intros k. by rewrite mark_new_parts.
  - by apply (well_fitted_same _ (heap s)).
  - by apply well_fitted_placed.
  - by apply well_fitted_placed.
  - by apply (well_fitted_same _ (heap s)).
  - apply (well_fitted_same _ (heap s)); [|done|done].
    intros k. by rewrite started_parts.
  - apply (well_fitted_same _ (heap s)); [|done|done].
    destruct (update_wait_times_frame s) as (_ & Hp & _). intros k. by rewrite Hp.
  - done.
  - by apply (well_fitted_same _ (heap s)).
  - destruct (Inv_current_partition positive _ s c HI Hc) as (k & Hck & Hkc).
    intros j. specialize (Hw j). rewrite (finished_parts _ c k _ j Hck Hkc).
    case_decide as Hj; [subst j; by obj_simpl|].
    destruct (Partition.process (parts (heap s) j)) as [q|] eqn:Hq; [|done].
    rewrite (finished_procs _ c k _ q Hck Hkc).
    case_decide; [subst q|done].
    destruct HI as [_ _ _ _ _ _ Hli _]. apply Hli in Hq. congruence.
  - done.
Qed.

Lemma move_residents_only positive k pending s pending' s' :
  Inv positive pending s -> move k pending s pending' s' ->
  residents_only s -> residents_only s'.
Proof.
  intros HI Hm. unfold residents_only.
  move_cases Hm; sim_simpl; intros Hr q.
  - apply Hr.
  - rewrite mark_new_procs. case_decide; obj_simpl; apply Hr.
  - read_heap. case_decide; subst; obj_simpl; apply Hr.
  - read_heap. case_decide; subst; obj_simpl.
    + intros _. left. apply elem_of_app. right. by left.
    + intros Hq. destruct (Hr q Hq); [left|by right]. apply elem_of_app. by left.
  - read_heap. case_decide; subst; obj_simpl.
    + intros _. left. apply elem_of_app. right. by left.
    + intros Hq. destruct (Hr q Hq); [left|by right]. apply elem_of_app. by left.
  - read_heap. intros Hq. left. apply elem_of_app.
    case_decide; subst; [right; by left|].
    destruct (Hr q Hq) as [?|?]; [by left|congruence].
  - read_heap. case_decide; subst; [by right|].
    intros Hq. destruct (Hr q Hq) as [?|?]; [|congruence].
    left. by apply elem_of_py_remove_ne.
  - destruct (update_wait_times_frame s) as (Hq & _ & Heq). rewrite Heq. sim_simpl.
    rewrite (Hq q). obj_simpl. apply Hr.
  - apply Hr.
  - unfold ran. read_heap. case_decide; subst; obj_simpl; apply Hr.
  - destruct (Inv_current_partition positive _ s c HI Hc) as (k & Hck & Hkc).
    rewrite (finished_procs _ c k _ q Hck Hkc). case_decide; [subst q|].
    + unfold finished_process. rewrite calculate_statistics_eq. by obj_simpl.
    + intros Hq. destruct (Hr q Hq) as [?|?]; [by left|congruence].
  - apply Hr.
Qed.

Lemma length_py_remove x l : x ∈ l -> length l = S (length (py_remove x l)).
Proof.
  induction l as [|y l IH]; intros Hx; [by apply elem_of_nil in Hx|].
  cbn [py_remove]. destruct (Nat.eqb_spec y x) as [->|Hne]; [done|].
  cbn [length]. f_equal. apply IH. apply elem_of_cons in Hx as [->|Hx]; done.
Qed.

Lemma move_within_degree k pending s pending' s' :
  move k pending s pending' s' -> within_degree s -> within_degree s'.
Proof.
  intros Hm. unfold within_degree, current_dom.
  move_cases Hm; sim_simpl; intros Hw; try exact Hw.
  - unfold current_dom in Hroom. rewrite length_app. cbn [length]. lia.
  - unfold current_dom in Hroom. rewrite length_app. cbn [length]. lia.
  - rewrite Hc in Hw. rewrite length_app. cbn [length]. lia.
  - rewrite Hc in Hw. apply select_next_process_spec in Hn as [Hin _].
    pose proof (length_py_remove n (ready_queue s) Hin) as Hlen.
    unfold ProcRef in *. lia.
  - rewrite Hc in Hw. lia.
Qed.

Lemma move_arrival positive k pending s pending' s' p :
  Inv positive pending s -> move k pending s pending' s' ->
  arrival s' p = arrival s p.
Proof.
  intros HI Hm. destruct (move_identity positive k pending s pending' s' HI Hm)
    as [[Hid _] _].
  specialize (Hid p). unfold process_identity in Hid. unfold arrival. congruence.
Qed.

Lemma update_wait_times_queues s :
  _update_wait_times s = set_heap (heap (_update_wait_times s)) s.
Proof. by destruct (update_wait_times_frame s) as (_ & _ & Heq). Qed.

(** Outside the taking of the arrivals, a move keeps the waiting list and
    the active processes. *)
Lemma move_active k pending s pending' s' x :
  move k pending s pending' s' -> k <> Take ->
  all_processes s' = all_processes s
  /\ clock s <= clock s'
  /\ (k <> Clock -> clock s' = clock s)
  /\ (active pending s x <-> active pending' s' x).
Proof.
  intros Hm. unfold active.
  move_cases Hm; sim_simpl; intros Hkd; try done;
    (split; [done|]); (split; [lia|]); (split; [done|]).
  - rewrite !elem_of_cons, elem_of_app, list_elem_of_singleton. tauto.
  - rewrite !elem_of_cons, elem_of_app, list_elem_of_singleton. tauto.
  - rewrite elem_of_app, list_elem_of_singleton.
    split.
    + intros [?|[?|[Hs|?]]]; try tauto.
      destruct (decide (x = p)) as [->|Hne]; [tauto|].
      right. right. left. by apply elem_of_py_remove_ne.
    + intros [?|[[?|?]|[Hs|?]]]; try tauto; [subst; tauto|].
      right. right. left. by eapply elem_of_py_remove.
  - rewrite Hc, elem_of_app, list_elem_of_singleton.
    split.
    + intros [?|[?|[?|[?|Hx]]]]; try tauto. injection Hx as <-. tauto.
    + intros [?|[[?|?]|[?|[?|?]]]]; try tauto; [subst; tauto|done].
  - rewrite Hc. apply select_next_process_spec in Hn as [Hin _].
    split.
    + intros [?|[Hr|[?|[?|?]]]]; try tauto; [|done].
      destruct (decide (x = n)) as [->|Hne]; [tauto|].
      right. left. by apply elem_of_py_remove_ne.
    + intros [?|[Hr|[?|[?|Hx]]]]; try tauto.
      * right. left. by eapply elem_of_py_remove.
      * injection Hx as <-. tauto.
  - rewrite Hc, elem_of_app, list_elem_of_singleton.
    split.
    + intros [?|[?|[?|[?|Hx]]]]; try tauto. injection Hx as <-. tauto.
    + intros [?|[?|[?|[[?|?]|?]]]]; try tauto; [subst; tauto|done].
  - done.
Qed.

Lemma move_take_active s pending s' p :
  move Take [] s pending s' ->
  clock s' = clock s
  /\ (p ∈ all_processes s' <-> p ∈ all_processes s /\ clock s < arrival s p)
  /\ (active pending s' p <->
      active [] s p \/ (p ∈ all_processes s /\ arrival s p = clock s)).
Proof.
  inversion 1; subst. sim_simpl. unfold active, to_come, arriving, arrival. sim_simpl.
  split; [done|]. rewrite !list_elem_of_filter, elem_of_nil. tauto.
Qed.

Lemma move_members_loaded positive k pending s pending' s' :
  Inv positive pending s -> move k pending s pending' s' ->
  members_loaded pending s -> members_loaded pending' s'.
Proof.
  intros HI Hm HM p Hp.
  destruct (move_identity positive k pending s pending' s' HI Hm) as [_ (_ & _ & -> & _)].
  apply HM. destruct (decide (k = Take)) as [->|Hk].
  - assert (pending = []) as -> by by inversion Hm.
    destruct (move_take_active s pending' s' p Hm) as (_ & Hall & Hact).
    rewrite Hall, Hact in Hp. tauto.
  - destruct (move_active k pending s pending' s' p Hm Hk) as (Hall & _ & _ & Hact).
    rewrite Hall, <- Hact in Hp. tauto.
Qed.

(** ** No process is lost *)

Section NoneLost.

Variable positive : Prop.

Lemma none_lost_weaken s : none_lost_inside [] s -> forall s',
  move Clock [] s [] s' -> Inv positive [] s -> none_lost s'.
Proof.
  intros HK s' Hm HI p.
  destruct (move_identity positive _ _ _ _ _ HI Hm) as [_ (_ & _ & -> & _)].
  rewrite (move_arrival positive _ _ _ _ _ p HI Hm).
  destruct (move_active _ _ _ _ _ p Hm) as (-> & _ & _ & <-); [done|].
  inversion Hm; subst. sim_simpl. intros Hp Ha.
  destruct (HK p Hp Ha) as [[? ?]|[? ?]]; [left|right]; (split; [lia|done]).
Qed.

Lemma none_lost_reachable s0 s :
  Inv positive [] s0 -> none_lost s0 -> reachable s0 s -> none_lost s.
Proof.
  intros HI H0 Hreach.
  apply (kept_by_reachable positive none_lost none_lost_inside
           (none_lost_inside []) (none_lost_inside []) ) with (s0 := s0); try done.
  - intros x x' HIx HK Hm p.
    destruct (move_identity positive _ _ _ _ _ HIx Hm) as [_ (_ & _ & -> & _)].
    rewrite (move_arrival positive _ _ _ _ _ p HIx Hm).
    destruct (move_active _ _ _ _ _ p Hm) as (-> & _ & -> & <-); try done.
    apply HK.
  - intros x pending x' HIx HK Hm p.
    destruct (move_identity positive _ _ _ _ _ HIx Hm) as [_ (_ & _ & -> & _)].
    rewrite (move_arrival positive _ _ _ _ _ p HIx Hm).
    destruct (move_take_active x pending x' p Hm) as (-> & -> & ->).
    intros Hp Ha. destruct (HK p Hp Ha) as [[Hle Hall]|[Hlt Hact]].
    + destruct (decide (arrival x p = clock x)) as [Heq|Hne].
      * right. split; [lia|]. right. done.
      * left. split; [lia|]. split; [done|lia].
    + right. split; [lia|]. by left.
  - intros pending x pending' x' HIx HK Hm p.
    destruct (move_identity positive _ _ _ _ _ HIx Hm) as [_ (_ & _ & -> & _)].
    rewrite (move_arrival positive _ _ _ _ _ p HIx Hm).
    destruct (move_active _ _ _ _ _ p Hm) as (-> & _ & -> & <-); try done.
    apply HK.
  - intros x x' HIx HK Hm p.
    destruct (move_identity positive _ _ _ _ _ HIx Hm) as [_ (_ & _ & -> & _)].
    rewrite (move_arrival positive _ _ _ _ _ p HIx Hm).
    destruct (move_active _ _ _ _ _ p Hm) as (-> & _ & -> & <-); try done.
    apply HK.
  - intros x x' HIx HK Hm p.
    destruct (move_identity positive _ _ _ _ _ HIx Hm) as [_ (_ & _ & -> & _)].
    rewrite (move_arrival positive _ _ _ _ _ p HIx Hm).
    destruct (move_active _ _ _ _ _ p Hm) as (-> & _ & -> & <-); try done.
    apply HK.
  - intros x x' HIx HK Hm. by eapply none_lost_weaken.
Qed.

End NoneLost.

Lemma startup_loaded rows config degree :
  loaded_processes (startup rows config degree) = seq 0 (length rows)
  /\ all_processes (startup rows config degree) = seq 0 (length rows)
  /\ ready_queue (startup rows config degree) = []
  /\ suspended_queue (startup rows config degree) = []
  /\ terminated_queue (startup rows config degree) = []
  /\ Scheduler.current_process (scheduler (startup rows config degree)) = None
  /\ clock (startup rows config degree) = 0
  /\ partitions (startup rows config degree) = seq 0 (length config)
  /\ degree_of_multiprogramming (startup rows config degree) = degree.
Proof. done. Qed.

Lemma members_loaded_running positive s0 s :
  Inv positive [] s0 -> members_loaded [] s0 -> running s0 s -> members_loaded [] s.
Proof.
  intros HI H0 Hrun.
  apply (kept_by_running positive members_loaded s0 s); try done.
  intros k pending s1 pending' s1' HI1 HM Hm. by eapply move_members_loaded.
Qed.

Lemma members_loaded_startup rows config degree :
  members_loaded [] (startup rows config degree).
Proof.
  intros p. destruct (startup_loaded rows config degree)
    as (-> & -> & Hr & Hs & Ht & Hc & _).
  unfold active. rewrite Hr, Hs, Ht, Hc. rewrite !elem_of_nil.
  intros [?|[?|[?|[?|[?|?]]]]]; done.
Qed.

Lemma none_lost_startup rows config degree : none_lost (startup rows config degree).
Proof.
  intros p. destruct (startup_loaded rows config degree)
    as (-> & -> & _ & _ & _ & _ & -> & _).
  intros Hp Ha. by left.
Qed.

Lemma active_count s p :
  active [] s p <->
  (1 <= occ p (ready_queue s) + occ p (suspended_queue s) + occ p (terminated_queue s)
        + cur_occ (Scheduler.current_process (scheduler s)) p)%nat.
Proof.
  unfold active, cur_occ. rewrite elem_of_nil, !occ_elem.
  destruct (Scheduler.current_process (scheduler s)) as [c|].
  - case_decide; [subst|]; split; try lia.
    + intros _. right. right. right. by right.
    + intros [?|[?|[?|[?|?]]]]; try done; try lia. congruence.
  - split; [|lia]. intros [?|[?|[?|[?|?]]]]; try done; lia.
Qed.

Lemma held_split s p :
  held s p = (occ p (all_processes s)
              + (occ p (ready_queue s) + occ p (suspended_queue s)
                 + occ p (terminated_queue s)
                 + cur_occ (Scheduler.current_process (scheduler s)) p))%nat.
Proof. unfold held, places. rewrite occ_nil. lia. Qed.

Lemma loaded_process_place (rows : list process_row) (config : list partition_row)
    (degree : Z) (s : Simulator.t) (p : ProcRef) :
  reachable (startup rows config degree) s ->
  (p < length rows)%nat ->
  0 <= Process.arrival_time (procs (heap s) p) ->
  held s p = 1%nat
  /\ (p ∈ all_processes s <-> clock s <= Process.arrival_time (procs (heap s) p))
  /\ (active [] s p <-> Process.arrival_time (procs (heap s) p) < clock s).
Proof.
  intros Hreach Hp Ha.
  set (positive := positive_bursts rows).
  pose proof (Inv_startup rows config degree) as HI0. fold positive in HI0.
  pose proof (none_lost_reachable positive _ s HI0
                (none_lost_startup rows config degree) Hreach) as HN.
  assert (HI : Inv positive [] s) by by eapply Inv_reachable.
  destruct (identity_running positive _ s HI0 (reachable_running _ _ Hreach))
    as [_ (_ & _ & Hl & _)].
  assert (Hpl : p ∈ loaded_processes s).
  { rewrite Hl. destruct (startup_loaded rows config degree) as (-> & _).
    apply elem_of_seq. lia. }
  assert (Hle : (held s p <= 1)%nat) by (destruct HI as [Hpl' _ _ _ _ _ _ _]; apply Hpl').
  rewrite held_split in *. rewrite active_count, occ_elem.
  destruct (HN p Hpl Ha) as [[Hc Hall]|[Hc Hact]]; unfold arrival in *.
  - apply occ_elem in Hall. lia.
  - apply active_count in Hact. lia.
Qed.

(** No process is lost: at every tick boundary a loaded process whose
    arrival time is not negative is held in exactly one place: the list
    of the processes still to arrive until the clock reaches its arrival
    time, and a queue or the processor afterwards. *)
Theorem no_process_lost (rows : list process_row) (config : list partition_row)
    (degree : Z) (s : Simulator.t) (p : ProcRef) :
  reachable (startup rows config degree) s ->
  (p < length rows)%nat ->
  0 <= Process.arrival_time (procs (heap s) p) ->
  held s p = 1%nat
  /\ (p ∈ all_processes s <-> clock s <= Process.arrival_time (procs (heap s) p))
  /\ (active [] s p <-> Process.arrival_time (procs (heap s) p) < clock s).
Proof. apply loaded_process_place. Qed.

Lemma no_process_lost_witness :
  held (tick (tick short_arrival)) 1%nat = 1%nat
  /\ active [] (tick (tick short_arrival)) 1%nat.
Proof.
  assert (Ha : 0 <= Process.arrival_time (procs (heap (tick (tick short_arrival))) 1%nat))
    by (vm_compute; discriminate).
  assert (Hp : (1 < 2)%nat) by lia.
  pose proof (no_process_lost
                [(1, 50, 0, 10); (2, 50, 1, 3)] [(1, 100, 100); (2, 100, 200)] 5
                (tick (tick short_arrival)) 1%nat
                (reachable_tick _ _ (reachable_tick _ _ (reachable_start _))) Hp Ha)
    as (Hheld & _ & Hact).
  split; [exact Hheld|]. apply Hact. vm_compute. reflexivity.
Defined.

Lemma never_arrives_reachable positive s0 s :
  Inv positive [] s0 -> never_arrives s0 -> reachable s0 s -> never_arrives s.
Proof.
  intros HI H0 Hreach.
  apply (kept_by_reachable positive never_arrives never_arrives_inside
           (never_arrives_inside []) (never_arrives_inside [])) with (s0 := s0);
    try done.
  - intros x x' HIx [Hc HK] Hm.
    destruct (move_active _ _ _ _ _ 0%nat Hm) as (_ & _ & Hclk & _); [done|].
    split; [rewrite Hclk; done|]. intros p.
    rewrite (move_arrival positive _ _ _ _ _ p HIx Hm).
    destruct (move_active _ _ _ _ _ p Hm) as (-> & _ & -> & <-); try done.
    apply HK.
  - intros x pending x' HIx [Hc HK] Hm.
    destruct (move_take_active x pending x' 0%nat Hm) as (Hclk & _).
    split; [by rewrite Hclk|]. intros p.
    rewrite (move_arrival positive _ _ _ _ _ p HIx Hm).
    destruct (move_take_active x pending x' p Hm) as (_ & -> & ->).
    intros Ha. destruct (HK p Ha) as [Hna _]. split; [|lia].
    intros [?|[_ ?]]; [done|lia].
  - intros pending x pending' x' HIx [Hc HK] Hm.
    destruct (move_active _ _ _ _ _ 0%nat Hm) as (_ & _ & Hclk & _); [done|].
    split; [rewrite Hclk; done|]. intros p.
    rewrite (move_arrival positive _ _ _ _ _ p HIx Hm).
    destruct (move_active _ _ _ _ _ p Hm) as (-> & _ & _ & <-); try done.
    apply HK.
  - intros x x' HIx [Hc HK] Hm.
    destruct (move_active _ _ _ _ _ 0%nat Hm) as (_ & _ & Hclk & _); [done|].
    split; [rewrite Hclk; done|]. intros p.
    rewrite (move_arrival positive _ _ _ _ _ p HIx Hm).
    destruct (move_active _ _ _ _ _ p Hm) as (-> & _ & _ & <-); try done.
    apply HK.
  - intros x x' HIx [Hc HK] Hm.
    destruct (move_active _ _ _ _ _ 0%nat Hm) as (_ & _ & Hclk & _); [done|].
    split; [rewrite Hclk; done|]. intros p.
    rewrite (move_arrival positive _ _ _ _ _ p HIx Hm).
    destruct (move_active _ _ _ _ _ p Hm) as (-> & _ & _ & <-); try done.
    apply HK.
  - intros x x' HIx [Hc HK] Hm.
    destruct (move_active _ _ _ _ _ 0%nat Hm) as (_ & Hclk & _ & _); [done|].
    split; [lia|]. intros p.
    rewrite (move_arrival positive _ _ _ _ _ p HIx Hm).
    destruct (move_active _ _ _ _ _ p Hm) as (-> & _ & _ & <-); try done.
    intros Ha. destruct (HK p Ha). done.
Qed.

Lemma never_arrives_startup rows config degree :
  never_arrives (startup rows config degree).
Proof.
  destruct (startup_loaded rows config degree) as (_ & _ & Hr & Hs & Ht & Hc & Hclk & _).
  split; [by rewrite Hclk|]. intros p _. split; [|rewrite Hclk; lia].
  unfold active. rewrite Hr, Hs, Ht, Hc, !elem_of_nil. intros [?|[?|[?|[?|?]]]]; done.
Qed.

(** ** The loop of [run] *)

Lemma run_loop_sound total fuel : forall s s' w,
  run_loop fuel total s = Some (s', w) ->
  reachable s s'
  /\ (w = false -> (total <= length (terminated_queue s'))%nat)
  /\ (w = true -> max_ticks <= clock s'
                  /\ (length (terminated_queue s') < total)%nat).
Proof.
  induction fuel as [|fuel IH]; intros s s' w; cbn [run_loop].
  - destruct (Nat.ltb_spec (length (terminated_queue s)) total) as [Hlt|Hge]; cbn [negb].
    + destruct (Z.leb_spec max_ticks (clock s)) as [Hmax|Hmax]; [|done].
      intros [= <- <-]. repeat split; try done. apply reachable_start.
    + intros [= <- <-]. repeat split; try done. apply reachable_start.
  - destruct (Nat.ltb_spec (length (terminated_queue s)) total) as [Hlt|Hge]; cbn [negb].
    + destruct (Z.leb_spec max_ticks (clock s)) as [Hmax|Hmax].
      * intros [= <- <-]. repeat split; try done. apply reachable_start.
      * intros Hrun. destruct (IH _ _ _ Hrun) as (Hreach & Hpost).
        split; [by apply reachable_after_tick|done].
    + intros [= <- <-]. repeat split; try done. apply reachable_start.
Qed.

(** The terminated queue holds loaded processes, each once. *)
Lemma terminated_among_loaded positive s p :
  Inv positive [] s -> members_loaded [] s -> NoDup (loaded_processes s) ->
  p ∈ loaded_processes s -> p ∉ terminated_queue s ->
  (length (terminated_queue s) < length (loaded_processes s))%nat.
Proof.
  intros HI HM Hnd Hp Hnt.
  assert (Hsub : p :: terminated_queue s ⊆+ loaded_processes s).
  { apply NoDup_submseteq.
    - apply NoDup_cons_2; [done|].
      by destruct (consistent_disjoint _ _ _ _ _ _ _ HI) as (_&_&_&_&_&_&?).
    - intros x Hx. apply elem_of_cons in Hx as [->|Hx]; [done|].
      apply HM. right. unfold active. tauto. }
  apply submseteq_length in Hsub. cbn [length] in Hsub. lia.
Qed.

Lemma terminated_all_loaded positive s p :
  Inv positive [] s -> members_loaded [] s -> NoDup (loaded_processes s) ->
  (length (loaded_processes s) <= length (terminated_queue s))%nat ->
  p ∈ loaded_processes s -> p ∈ terminated_queue s.
Proof.
  intros HI HM Hnd Hlen Hp.
  destruct (decide (p ∈ terminated_queue s)) as [|Hnt]; [done|].
  pose proof (terminated_among_loaded positive s p HI HM Hnd Hp Hnt). lia.
Qed.

Lemma run_inv fuel s out :
  run fuel s = Some out ->
  exists s',
    run_loop fuel (length (all_processes s)) s = Some (s', warning out)
    /\ final out = set_heap (show_statistics (heap s') (loaded_processes s')).1 s'
    /\ report out = (show_statistics (heap s') (loaded_processes s')).2.
Proof.
  unfold run.
  destruct (run_loop fuel (length (all_processes s)) s) as [[s' w]|]; [|done].
  destruct (show_statistics (heap s') (loaded_processes s')) as [h table] eqn:Hst.
  intros Heq. injection Heq as Heq. subst out. exists s'. by rewrite Hst.
Qed.

(** A loaded process that never reaches the terminated queue keeps the
    loop of [run] going up to the limit. *)
Lemma run_never_terminated rows config degree fuel out p :
  run fuel (startup rows config degree) = Some out ->
  (p < length rows)%nat ->
  (forall s, reachable (startup rows config degree) s -> p ∉ terminated_queue s) ->
  warning out = true /\ max_ticks <= clock (final out).
Proof.
  intros Hrun Hp Hnever.
  destruct (run_inv _ _ _ Hrun) as (s' & Hloop & Hfin & _).
  destruct (run_loop_sound _ _ _ _ _ Hloop) as (Hreach & Hdone & Hlimit).
  rewrite Hfin. sim_simpl.
  set (positive := positive_bursts rows).
  pose proof (Inv_startup rows config degree) as HI0. fold positive in HI0.
  assert (HI : Inv positive [] s') by by eapply Inv_reachable.
  pose proof (members_loaded_running positive _ s' HI0
                (members_loaded_startup rows config degree)
                (reachable_running _ _ Hreach)) as HM.
  destruct (identity_running positive _ s' HI0 (reachable_running _ _ Hreach))
    as [_ (_ & _ & Hl & _)].
  destruct (startup_loaded rows config degree) as (Hl0 & Hall0 & _).
  rewrite Hl0 in Hl.
  assert (Hlt : (length (terminated_queue s') < length (loaded_processes s'))%nat).
  { apply (terminated_among_loaded positive s' p); try done.
    - rewrite Hl. apply NoDup_seq.
    - rewrite Hl. apply elem_of_seq. lia.
    - by apply Hnever. }
  rewrite Hl, Hall0 in *.
  destruct (warning out); [split; [done|by apply Hlimit]|].
  specialize (Hdone eq_refl). lia.
Qed.

(** A process whose arrival time is negative is dropped from the list of
    the processes to arrive at the first tick without being admitted: it
    is never in a queue nor executing, and the run then only stops at the
    limit of 1000 ticks, with the warning. *)
Theorem negative_arrival_dropped (rows : list process_row)
    (config : list partition_row) (degree : Z) (p : ProcRef) :
  (p < length rows)%nat ->
  Process.arrival_time (procs (heap (startup rows config degree)) p) < 0 ->
  (forall s, reachable (startup rows config degree) s ->
     ~ active [] s p /\ (0 < clock s -> held s p = 0%nat))
  /\ (forall fuel out, run fuel (startup rows config degree) = Some out ->
        warning out = true /\ max_ticks <= clock (final out)).
Proof.
  intros Hp Hneg.
  set (positive := positive_bursts rows).
  pose proof (Inv_startup rows config degree) as HI0. fold positive in HI0.
  assert (Hstate : forall s, reachable (startup rows config degree) s ->
            ~ active [] s p /\ (0 < clock s -> p ∉ all_processes s)).
  { intros s Hreach.
    destruct (never_arrives_reachable positive _ s HI0
                (never_arrives_startup rows config degree) Hreach) as [_ HK].
    apply HK. unfold arrival.
    destruct (identity_running positive _ s HI0 (reachable_running _ _ Hreach))
      as [[Hid _] _].
    specialize (Hid p). unfold process_identity in Hid. by injection Hid as _ _ -> _. }
  split.
  - intros s Hreach. destruct (Hstate s Hreach) as [Hna Hall]. split; [done|].
    intros Hclk. specialize (Hall Hclk). rewrite held_split.
    rewrite active_count in Hna. apply occ_not_elem in Hall. lia.
  - intros fuel out Hrun. apply (run_never_terminated rows config degree fuel out p);
      try done.
    intros s Hreach Hin. destruct (Hstate s Hreach) as [Hna _].
    apply Hna. unfold active. tauto.
Qed.

Lemma negative_arrival_dropped_witness :
  held (tick (startup [(1, 50, -1, 2)] [(1, 100, 100)] 5)) 0%nat = 0%nat.
Proof.
  assert (Hp : (0 < 1)%nat) by lia.
  assert (Hneg : Process.arrival_time
                   (procs (heap (startup [(1, 50, -1, 2)] [(1, 100, 100)] 5)) 0%nat) < 0)
    by (vm_compute; reflexivity).
  destruct (negative_arrival_dropped [(1, 50, -1, 2)] [(1, 100, 100)] 5 0%nat Hp Hneg)
    as [H _].
  destruct (H _ (reachable_tick _ _ (reachable_start _))) as [_ Hh].
  apply Hh. vm_compute. reflexivity.
Defined.

Lemma move_too_large positive k pending s pending' s' x :
  Inv positive pending s -> move k pending s pending' s' ->
  too_large s x -> too_large s' x.
Proof.
  intros HI Hm Hx j.
  destruct (move_identity positive k pending s pending' s' HI Hm)
    as [[Hp Hk] (-> & _)].
  intros Hj. specialize (Hx j Hj).
  specialize (Hp x). specialize (Hk j).
  unfold process_identity, partition_identity in *. congruence.
Qed.

Lemma move_never_resident k pending s pending' s' x :
  move k pending s pending' s' ->
  too_large s x -> never_resident s x -> never_resident s' x.
Proof.
  intros Hm Hx. unfold never_resident.
  assert (Hfit : forall q j, MemoryManager.find_best_fit (partitions s) (heap s) q = Some j
                             -> q <> x).
  { intros q j Hj ->. apply find_best_fit_free in Hj as (Hin & _ & Hsz).
    specialize (Hx j Hin). lia. }
  move_cases Hm; sim_simpl; intros (Hr & Hc' & Ht); try done.
  - split; [|done]. rewrite elem_of_app, list_elem_of_singleton.
    intros [?|?]; [done|]. by eapply Hfit.
  - split; [|done]. rewrite elem_of_app, list_elem_of_singleton.
    intros [?|?]; [done|]. by eapply Hfit.
  - split; [|done]. rewrite elem_of_app, list_elem_of_singleton.
    intros [?|?]; [done|]. congruence.
  - apply select_next_process_spec in Hn as [Hin _].
    split; [intros Hx'; by apply elem_of_py_remove in Hx'|].
    split; [|done]. intros [= ->]. done.
  - split; [done|]. split; [done|]. rewrite elem_of_app, list_elem_of_singleton.
    intros [?|?]; [done|]. congruence.
Qed.

Lemma residents_only_running positive s0 s :
  Inv positive [] s0 -> residents_only s0 -> running s0 s -> residents_only s.
Proof.
  intros HI H0 Hrun.
  apply (kept_by_running positive (fun _ s => residents_only s) s0 s); try done.
  intros k pending s1 pending' s1' HI1 HM Hm. by eapply move_residents_only.
Qed.

Lemma residents_only_startup rows config degree :
  residents_only (startup rows config degree).
Proof.
  intros p. rewrite startup_process. by destruct (nth p rows (0, 0, 0, 1)) as [[[? ?] ?] ?].
Qed.

Lemma well_fitted_running positive s0 s :
  Inv positive [] s0 -> well_fitted (partitions s0) (heap s0) -> running s0 s ->
  well_fitted (partitions s) (heap s).
Proof.
  intros HI H0 Hrun.
  apply (kept_by_running positive (fun _ s => well_fitted (partitions s) (heap s)) s0 s);
    try done.
  intros k pending s1 pending' s1' HI1 HM Hm. by eapply move_well_fitted.
Qed.

Lemma well_fitted_startup rows config degree :
  well_fitted (partitions (startup rows config degree)) (heap (startup rows config degree)).
Proof.
  intros k. rewrite startup_partition. by destruct (nth k config (0, 0, 0)) as [[? ?] ?].
Qed.

Lemma within_degree_running positive s0 s :
  Inv positive [] s0 -> within_degree s0 -> running s0 s -> within_degree s.
Proof.
  intros HI H0 Hrun.
  apply (kept_by_running positive (fun _ s => within_degree s) s0 s); try done.
  intros k pending s1 pending' s1' HI1 HM Hm. by eapply move_within_degree.
Qed.

(** The degree of multiprogramming is respected: in every state the
    engine goes through, the ready processes and the one executing are
    together at most [degree_of_multiprogramming] (none when the degree
    is not positive). *)
Theorem degree_respected (rows : list process_row) (config : list partition_row)
    (degree : Z) (s : Simulator.t) :
  running (startup rows config degree) s ->
  current_dom s <= Z.max 0 degree.
Proof.
  intros Hrun.
  set (positive := positive_bursts rows).
  pose proof (Inv_startup rows config degree) as HI0. fold positive in HI0.
  destruct (identity_running positive _ s HI0 Hrun) as [_ (_ & Hd & _)].
  pose proof (within_degree_running positive _ s HI0) as Hw.
  unfold within_degree in Hw. rewrite Hd in Hw. apply Hw; [|done].
  unfold current_dom. cbn. lia.
Qed.

Lemma degree_respected_witness :
  current_dom (tick degree_one) <= Z.max 0 1.
Proof.
  apply (degree_respected [(1, 50, 0, 10); (2, 50, 0, 3)] [(1, 100, 100); (2, 100, 200)] 1
           (tick degree_one)).
  apply reachable_running, reachable_tick, reachable_start.
Defined.

(** The memory is used as allotted: in every state the engine goes
    through, an occupied partition is one of the configured ones, its
    occupant is a ready or executing process that refers back to it and
    is no larger than it, and the recorded internal fragmentation is the
    space left; a free partition records no fragmentation. *)
Theorem partitions_well_fitted (rows : list process_row)
    (config : list partition_row) (degree : Z) (s : Simulator.t) (k : PartRef) :
  running (startup rows config degree) s ->
  match Partition.process (parts (heap s) k) with
  | Some p =>
      k ∈ partitions s
      /\ (p ∈ ready_queue s \/ Scheduler.current_process (scheduler s) = Some p)
      /\ Process.partition (procs (heap s) p) = Some k
      /\ Process.size (procs (heap s) p) <= Partition.size (parts (heap s) k)
      /\ Partition.internal_fragmentation (parts (heap s) k)
         = Partition.size (parts (heap s) k) - Process.size (procs (heap s) p)
  | None => Partition.internal_fragmentation (parts (heap s) k) = 0
  end.
Proof.
  intros Hrun.
  set (positive := positive_bursts rows).
  pose proof (Inv_startup rows config degree) as HI0. fold positive in HI0.
  pose proof (well_fitted_running positive _ s HI0
                (well_fitted_startup rows config degree) Hrun k) as Hw.
  pose proof (residents_only_running positive _ s HI0
                (residents_only_startup rows config degree) Hrun) as Hr.
  assert (HI : Inv positive [] s) by by eapply Inv_running.
  destruct (Partition.process (parts (heap s) k)) as [p|] eqn:Hk; [|done].
  destruct Hw as (Hin & Hsz & Hfrag).
  assert (Hpk : Process.partition (procs (heap s) p) = Some k).
  { destruct HI as [_ _ _ _ _ _ Hli _]. by apply Hli. }
  repeat split; try done. apply Hr. by rewrite Hpk.
Qed.

Lemma partitions_well_fitted_witness :
  Partition.process (parts (heap (tick short_arrival)) 0%nat) = Some 0%nat
  /\ Partition.internal_fragmentation (parts (heap (tick short_arrival)) 0%nat)
     = Partition.size (parts (heap (tick short_arrival)) 0%nat)
       - Process.size (procs (heap (tick short_arrival)) 0%nat).
Proof.
  pose proof (partitions_well_fitted
                [(1, 50, 0, 10); (2, 50, 1, 3)] [(1, 100, 100); (2, 100, 200)] 5
                (tick short_arrival) 0%nat
                (reachable_running _ _ (reachable_tick _ _ (reachable_start _)))) as H.
  assert (Hk : Partition.process (parts (heap (tick short_arrival)) 0%nat) = Some 0%nat)
    by (vm_compute; reflexivity).
  rewrite Hk in H. split; [exact Hk|]. exact (proj2 (proj2 (proj2 (proj2 H)))).
Defined.

(** ** A process too large for every partition *)

Lemma never_resident_running positive s0 s p :
  Inv positive [] s0 -> too_large s0 p -> never_resident s0 p -> running s0 s ->
  too_large s p /\ never_resident s p.
Proof.
  intros HI Hl H0 Hrun.
  apply (kept_by_running positive (fun _ s => too_large s p /\ never_resident s p) s0 s);
    try done.
  intros k pending s1 pending' s1' HI1 [HL HN] Hm.
  split; [by eapply move_too_large|by eapply move_never_resident].
Qed.

(** A process larger than every partition is never given memory: it is
    never ready, executing or terminated and holds no partition; once
    arrived it stays in the suspended queue, and the run only stops at
    the limit of 1000 ticks, with the warning. *)
Theorem oversized_never_runs (rows : list process_row)
    (config : list partition_row) (degree : Z) (p : ProcRef) :
  (p < length rows)%nat ->
  too_large (startup rows config degree) p ->
  (forall s, running (startup rows config degree) s ->
     never_resident s p /\ Process.partition (procs (heap s) p) = None)
  /\ (forall s, reachable (startup rows config degree) s ->
        0 <= Process.arrival_time (procs (heap s) p) < clock s ->
        p ∈ suspended_queue s /\ Process.state (procs (heap s) p) = SUSPENDED)
  /\ (forall fuel out, run fuel (startup rows config degree) = Some out ->
        warning out = true /\ max_ticks <= clock (final out)).
Proof.
  intros Hp Hlarge.
  set (positive := positive_bursts rows).
  pose proof (Inv_startup rows config degree) as HI0. fold positive in HI0.
  assert (Hnr : forall s, running (startup rows config degree) s -> never_resident s p).
  { intros s Hrun.
    apply (never_resident_running positive (startup rows config degree) s p); try done.
    destruct (startup_loaded rows config degree) as (_ & _ & Hr & _ & Ht & Hc & _).
    unfold never_resident. rewrite Hr, Ht, Hc. repeat split; try done;
      apply not_elem_of_nil. }
  split; [|split].
  - intros s Hrun. split; [by apply Hnr|].
    pose proof (residents_only_running positive _ s HI0
                  (residents_only_startup rows config degree) Hrun p) as Hr.
    destruct (Hnr s Hrun) as (H1 & H2 & _).
    destruct (Process.partition (procs (heap s) p)); [|done].
    destruct Hr; done.
  - intros s Hreach [Ha Hc].
    destruct (loaded_process_place rows config degree s p Hreach Hp Ha) as (_ & _ & Hact).
    apply Hact in Hc.
    destruct (Hnr s (reachable_running _ _ Hreach)) as (H1 & H2 & H3).
    destruct Hc as [Hx|[Hx|[Hx|[Hx|Hx]]]]; try done; [by apply elem_of_nil in Hx|].
    split; [done|].
    pose proof (Inv_reachable rows config degree s Hreach) as [_ _ _ Hsu _ _ _ _].
    by apply Hsu.
  - intros fuel out Hrun.
    apply (run_never_terminated rows config degree fuel out p); try done.
    intros s Hreach. by destruct (Hnr s (reachable_running _ _ Hreach)) as (_ & _ & ?).
Qed.

Lemma oversized_never_runs_witness :
  0%nat ∈ suspended_queue (tick oversized)
  /\ Process.state (procs (heap (tick oversized)) 0%nat) = SUSPENDED.
Proof.
  assert (Hp : (0 < 2)%nat) by lia.
  assert (Hbig : too_large (startup [(1, 500, 0, 5); (2, 50, 0, 2)] [(1, 100, 100)] 5)
                   0%nat).
  { intros k Hk. change (k ∈ [0%nat]) in Hk. apply list_elem_of_singleton in Hk as ->.
    vm_compute. reflexivity. }
  destruct (oversized_never_runs [(1, 500, 0, 5); (2, 50, 0, 2)] [(1, 100, 100)] 5 0%nat
              Hp Hbig) as (_ & H & _).
  apply (H (tick oversized) (reachable_tick _ _ (reachable_start _))).
  vm_compute. split; [discriminate|reflexivity].
Defined.

Lemma wait_step_counted eid h p :
  wait_step eid h p = if counted eid (procs h p) then upd_proc p tick_waited h else h.
Proof. reflexivity. Qed.

Lemma counted_tick_waited eid o : counted eid (tick_waited o) = counted eid o.
Proof. reflexivity. Qed.

Lemma wait_fold_closed eid l : NoDup l -> forall h q,
  procs (fold_left (wait_step eid) l h) q =
  if bool_decide (q ∈ l) && counted eid (procs h q)
  then tick_waited (procs h q) else procs h q.
Proof.
  induction 1 as [|p l Hp Hnd IH]; intros h q; cbn [fold_left].
  { by rewrite bool_decide_eq_false_2 by apply not_elem_of_nil. }
  rewrite IH, wait_step_counted.
  destruct (decide (q = p)) as [->|Hne].
  - rewrite (bool_decide_eq_false_2 (p ∈ l)) by done.
    rewrite (bool_decide_eq_true_2 (p ∈ p :: l)) by left. cbn [andb].
    destruct (counted eid (procs h p)); [|done]. by heap_simpl.
  - assert (Hq : procs (if counted eid (procs h p) then upd_proc p tick_waited h else h) q
                 = procs h q).
    { destruct (counted eid (procs h p)); [|done]. by heap_simpl. }
    rewrite Hq.
    assert (Hin : bool_decide (q ∈ p :: l) = bool_decide (q ∈ l)).
    { apply bool_decide_ext. rewrite elem_of_cons. tauto. }
    by rewrite Hin.
Qed.

Lemma update_wait_times_closed positive s :
  Inv positive [] s ->
  forall q, procs (heap (_update_wait_times s)) q =
    if bool_decide (q ∈ ready_queue s ++ suspended_queue s)
       && counted (executing_id s) (procs (heap s) q)
    then tick_waited (procs (heap s) q) else procs (heap s) q.
Proof.
  intros HI q. unfold _update_wait_times. sim_simpl.
  apply (wait_fold_closed (executing_id s)).
  destruct (consistent_disjoint _ _ _ _ _ _ _ HI) as (Hrs & _ & _ & _ & Hr & Hs & _).
  apply list.NoDup_app. split; [done|]. split; [|done]. intros x Hx. by apply Hrs.
Qed.

Lemma waiting_counted positive s q :
  Inv positive [] s ->
  bool_decide (q ∈ ready_queue s ++ suspended_queue s)
  && counted (executing_id s) (procs (heap s) q) = true
  <-> waiting s q.
Proof.
  intros [_ _ Hrd Hsu _ _ _ _]. unfold waiting, counted, executing_id.
  rewrite !andb_true_iff, orb_true_iff, negb_true_iff, !bool_decide_eq_true,
    bool_decide_eq_false, elem_of_app.
  split.
  - intros (Hq & (Hst & Hid) & Hf). repeat split; try done.
    intros c Hc Heq. rewrite Hc in Hid. apply Hid. by rewrite Heq.
  - intros (Hq & Hf & Hid). repeat split; try done.
    + destruct Hq as [Hq|Hq]; [left; by apply Hrd|right; by apply Hsu].
    + destruct (Scheduler.current_process (scheduler s)) as [c|]; [|done].
      intros [= Heq]. by apply (Hid c).
Qed.

(** In every state the engine goes through, [_update_wait_times] adds one
    unit to the waiting time of each process that is ready or suspended,
    has never executed and does not bear the id of the executing
    process; it changes nothing else. *)
Theorem update_wait_times_counts (rows : list process_row)
    (config : list partition_row) (degree : Z) (s : Simulator.t) :
  running (startup rows config degree) s ->
  (forall q, waiting s q ->
     procs (heap (_update_wait_times s)) q
     = Process.set_wait_time (Process.wait_time (procs (heap s) q) + 1)
         (procs (heap s) q))
  /\ (forall q, ~ waiting s q ->
        procs (heap (_update_wait_times s)) q = procs (heap s) q)
  /\ parts (heap (_update_wait_times s)) = parts (heap s)
  /\ _update_wait_times s = set_heap (heap (_update_wait_times s)) s.
Proof.
  intros Hrun.
  assert (HI : Inv (positive_bursts rows) [] s).
  { eapply Inv_running; [apply Inv_startup|exact Hrun]. }
  pose proof (update_wait_times_closed _ s HI) as Hcl.
  destruct (update_wait_times_frame s) as (_ & Hp & Heq).
  split; [|split; [|done]].
  - intros q Hq. rewrite Hcl. apply (waiting_counted _ s q HI) in Hq. by rewrite Hq.
  - intros q Hq. rewrite Hcl.
    destruct (bool_decide _ && counted _ _) eqn:Hc; [|done].
    by apply (waiting_counted _ s q HI) in Hc.
Qed.

Lemma update_wait_times_counts_witness :
  procs (heap (_update_wait_times (tick degree_one))) 1%nat
  = Process.set_wait_time (Process.wait_time (procs (heap (tick degree_one)) 1%nat) + 1)
      (procs (heap (tick degree_one)) 1%nat).
Proof.
  assert (Hw : waiting (tick degree_one) 1%nat).
  { split; [right; vm_compute; constructor|]. split; [vm_compute; reflexivity|].
    intros c Hc. vm_compute in Hc. injection Hc as <-. vm_compute. discriminate. }
  destruct (update_wait_times_counts
              [(1, 50, 0, 10); (2, 50, 0, 3)] [(1, 100, 100); (2, 100, 200)] 1
              (tick degree_one)
              (reachable_running _ _ (reachable_tick _ _ (reachable_start _))))
    as (H & _).
  exact (H 1%nat Hw).
Defined.

Lemma timed_state d clk st o :
  Process.state o <> TERMINATED -> st <> TERMINATED ->
  timed d clk o -> timed d clk (Process.set_state st o).
Proof.
  unfold timed. obj_simpl.
  destruct (Process.first_execution_time o) as [f|]; intros H1 H2; [|tauto].
  intros (Hf & _ & Hrun). split; [done|]. split; [done|]. intros _. by apply Hrun.
Qed.

Lemma timed_partition d clk v o :
  timed d clk o -> timed d clk (Process.set_partition v o).
Proof. done. Qed.

Lemma timed_wait d clk v o :
  Process.state o <> TERMINATED -> timed d clk o -> timed d clk (Process.set_wait_time v o).
Proof.
  unfold timed. obj_simpl.
  destruct (Process.first_execution_time o) as [f|]; intros H1; [|tauto].
  intros (Hf & _ & Hrun). split; [done|]. split; [done|]. done.
Qed.

Lemma timed_later d clk o : timed 0 clk o -> 0 <= d -> timed d clk o.
Proof.
  unfold timed. destruct (Process.first_execution_time o) as [f|]; [|done].
  intros (Hf & Hterm & Hrun) Hd. split; [done|]. split.
  - intros Hst. destruct (Hterm Hst) as (?&?&?&?). repeat split; try done; lia.
  - intros Hst. specialize (Hrun Hst). lia.
Qed.

Lemma timed_next clk o : timed 1 clk o -> timed 0 (clk + 1) o.
Proof.
  unfold timed. destruct (Process.first_execution_time o) as [f|]; [|done].
  intros (Hf & Hterm & Hrun). split; [lia|]. split.
  - intros Hst. destruct (Hterm Hst) as (?&?&?&?). repeat split; try done; lia.
  - intros Hst. specialize (Hrun Hst). lia.
Qed.

Lemma move_arrived positive k pending s pending' s' :
  Inv positive pending s -> move k pending s pending' s' ->
  arrived pending s -> arrived pending' s'.
Proof.
  intros HI Hm Ha x. rewrite (move_arrival positive _ _ _ _ _ x HI Hm).
  destruct (decide (k = Take)) as [->|Hk].
  - assert (pending = []) as -> by by inversion Hm.
    destruct (move_take_active s pending' s' x Hm) as (-> & _ & ->).
    intros [Hx|[_ Hx]]; [by apply Ha|lia].
  - destruct (move_active k pending s pending' s' x Hm Hk) as (_ & Hclk & _ & <-).
    intros Hx. specialize (Ha x Hx). lia.
Qed.

(** The states of the processes in the places of the engine. *)
Lemma Inv_not_terminated positive pending s p :
  Inv positive pending s ->
  p ∈ pending \/ p ∈ all_processes s \/ p ∈ ready_queue s \/ p ∈ suspended_queue s
  \/ Scheduler.current_process (scheduler s) = Some p ->
  Process.state (procs (heap s) p) <> TERMINATED.
Proof.
  intros [_ Hnew Hrd Hsu Hcu _ _ _] [Hp|[Hp|[Hp|[Hp|Hp]]]].
  - destruct (Hnew p) as [-> _]; [|done]. apply elem_of_app. by left.
  - destruct (Hnew p) as [-> _]; [|done]. apply elem_of_app. by right.
  - by destruct (Hrd p Hp) as [-> _].
  - by destruct (Hsu p Hp) as [-> _].
  - by destruct (Hcu p Hp) as (-> & _).
Qed.

(** The moves before the execution step keep the times. *)
Lemma move_timed_before positive k pending s pending' s' :
  k <> Exec -> k <> Clock ->
  Inv positive pending s -> move k pending s pending' s' ->
  on_time 0 pending s -> on_time 0 pending' s'.
Proof.
  intros Hk1 Hk2 HI Hm [HT HA].
  split; [|by eapply move_arrived].
  pose proof (fun p => Inv_not_terminated positive pending s p HI) as Hnt.
  assert (Hclk : clock s' = clock s).
  { destruct (decide (k = Take)) as [->|Hk].
    - assert (pending = []) as -> by by inversion Hm.
      by destruct (move_take_active s pending' s' 0%nat Hm) as (-> & _).
    - by destruct (move_active k pending s pending' s' 0%nat Hm Hk) as (_ & _ & -> & _). }
  rewrite Hclk. clear Hclk. revert Hnt.
  move_cases Hm; sim_simpl; intros Hnt q; try done.
  - rewrite mark_new_procs. case_decide as Hq; [|done].
    apply timed_state; [|done|done]. apply Hnt.
    apply list_elem_of_filter in Hq as [_ Hq]. tauto.
  - read_heap. case_decide; [subst q|done].
    apply timed_state; [|done|done]. apply Hnt. left. by left.
  - read_heap. case_decide; [subst q|done].
    apply timed_state; [|done|]. { apply Hnt. left. by left. }
    by apply timed_partition.
  - read_heap. case_decide; [subst q|done].
    apply timed_state; [|done|]. { apply Hnt. tauto. }
    by apply timed_partition.
  - read_heap. case_decide; [subst q|done].
    apply timed_state; [|done|done]. apply Hnt. tauto.
  - read_heap. case_decide; [subst q|done].
    apply select_next_process_spec in Hn as [Hin _].
    assert (Hst : Process.state (procs (heap s) n) <> TERMINATED) by (apply Hnt; tauto).
    assert (Harr : arrival s n <= clock s) by (apply HA; unfold active; tauto).
    specialize (HT n). unfold timed in *. unfold arrival in Harr.
    destruct (Process.first_execution_time (procs (heap s) n)) as [f|] eqn:Hf;
      obj_simpl; rewrite ?Hf.
    + destruct HT as (? & _ & Hrun). split; [done|]. split; [done|].
      intros _. by apply Hrun.
    + destruct HT as [Hrem _]. split; [lia|]. split; [done|]. intros _. lia.
  - rewrite (update_wait_times_closed positive s HI).
    destruct (bool_decide _ && counted _ _) eqn:Hc; [|done].
    apply (waiting_counted positive s q HI) in Hc as (Hq & _).
    apply timed_wait; [|done]. apply Hnt. tauto.
Qed.

(** The unit of execution. *)
Lemma move_timed_exec positive s s' :
  Inv positive [] s -> move Exec [] s [] s' ->
  on_time 0 [] s -> on_time 1 [] s'.
Proof.
  intros HI Hm [HT HA].
  split; [|by eapply move_arrived].
  inversion Hm as [| | | | | | | |x Hc|c x Hc Hrem|c x Hc Hrem|]; subst; sim_simpl.
  - intros q. apply timed_later; [done|lia].
  - intros q. unfold ran. read_heap. case_decide; [subst q|apply timed_later; [done|lia]].
    destruct HI as [_ _ _ _ Hcu _ _ _]. destruct (Hcu c Hc) as (Hst & _ & Hfet).
    specialize (HT c). unfold timed in *. obj_simpl.
    destruct (Process.first_execution_time (procs (heap s) c)) as [f|]; [|done].
    destruct HT as (? & _ & Hrun). rewrite Hst in *.
    split; [done|]. split; [done|]. intros _. specialize (Hrun ltac:(done)). lia.
  - destruct (Inv_current_partition positive _ s c HI Hc) as (k & Hck & Hkc).
    intros q. rewrite (finished_procs _ c k _ q Hck Hkc).
    case_decide; [subst q|apply timed_later; [done|lia]].
    destruct HI as [_ _ _ _ Hcu _ _ _]. destruct (Hcu c Hc) as (Hst & _ & Hfet).
    specialize (HT c). unfold timed, finished_process in *.
    rewrite calculate_statistics_eq. obj_simpl.
    unfold Scheduler.remaining in Hrem.
    destruct (Process.first_execution_time (procs (heap s) c)) as [f|]; [|done].
    destruct HT as (? & _ & Hrun). rewrite Hst in *. specialize (Hrun ltac:(done)).
    split; [done|]. split; [|done]. intros _. repeat split; try done; lia.
Qed.

Lemma move_timed_clock positive s s' :
  Inv positive [] s -> move Clock [] s [] s' ->
  on_time 1 [] s -> on_time 0 [] s'.
Proof.
  intros HI Hm [HT HA].
  split; [|by eapply move_arrived].
  inversion Hm; subst; sim_simpl. intros q. by apply timed_next.
Qed.

Lemma on_time_reachable positive s0 s :
  Inv positive [] s0 -> on_time 0 [] s0 -> reachable s0 s -> on_time 0 [] s.
Proof.
  intros HI H0 Hreach.
  apply (kept_by_reachable positive (on_time 0 []) (on_time 0) (on_time 0 [])
           (on_time 1 [])) with (s0 := s0); try done.
  - intros x x' HIx HK Hm. by eapply (move_timed_before positive Flags).
  - intros x pending x' HIx HK Hm. by eapply (move_timed_before positive Take).
  - intros pending x pending' x' HIx HK Hm. by eapply (move_timed_before positive Quiet).
  - intros x x' HIx HK Hm. by eapply (move_timed_before positive Wait).
  - intros x x' HIx HK Hm. by eapply move_timed_exec.
  - intros x x' HIx HK Hm. by eapply move_timed_clock.
Qed.

Lemma on_time_startup rows config degree : on_time 0 [] (startup rows config degree).
Proof.
  split.
  - intros p. rewrite startup_process.
    by destruct (nth p rows (0, 0, 0, 1)) as [[[? ?] ?] ?].
  - intros p. destruct (startup_loaded rows config degree)
      as (_ & _ & Hr & Hs & Ht & Hc & _).
    unfold active. rewrite Hr, Hs, Ht, Hc, !elem_of_nil.
    intros [?|[?|[?|[?|?]]]]; done.
Qed.

(** The statistics of a terminated process are sound: at every tick
    boundary, a terminated process was first given the processor at or
    after its arrival, its waiting time is the time from its arrival to
    that moment (so it is not negative), its turnaround time is the time
    from its arrival to its finish time, which covers the wait and the
    whole burst, and its finish time is not in the future. *)
Theorem statistics_sound (rows : list process_row) (config : list partition_row)
    (degree : Z) (s : Simulator.t) (p : ProcRef) :
  reachable (startup rows config degree) s ->
  Process.state (procs (heap s) p) = TERMINATED ->
  exists f,
    Process.first_execution_time (procs (heap s) p) = Some f
    /\ Process.arrival_time (procs (heap s) p) <= f
    /\ Process.wait_time (procs (heap s) p) = f - Process.arrival_time (procs (heap s) p)
    /\ 0 <= Process.wait_time (procs (heap s) p)
    /\ Process.turnaround_time (procs (heap s) p)
       = Process.finish_time (procs (heap s) p) - Process.arrival_time (procs (heap s) p)
    /\ Process.wait_time (procs (heap s) p) + Process.burst_time (procs (heap s) p)
       <= Process.turnaround_time (procs (heap s) p)
    /\ Process.finish_time (procs (heap s) p) <= clock s.
Proof.
  intros Hreach Hst.
  pose proof (on_time_reachable (positive_bursts rows) _ s (Inv_startup rows config degree)
                (on_time_startup rows config degree) Hreach) as [HT _].
  specialize (HT p). unfold timed in HT.
  destruct (Process.first_execution_time (procs (heap s) p)) as [f|]; [|tauto].
  destruct HT as (Hf & Hterm & _). destruct (Hterm Hst) as (Hb & Hfin & Htu & Hw).
  exists f. repeat split; try done; lia.
Qed.

Lemma statistics_sound_witness :
  exists f,
    Process.first_execution_time
      (procs (heap (tick (tick (tick (tick (tick single)))))) 0%nat) = Some f
    /\ Process.wait_time (procs (heap (tick (tick (tick (tick (tick single)))))) 0%nat)
       = f - Process.arrival_time
               (procs (heap (tick (tick (tick (tick (tick single)))))) 0%nat).
Proof.
  assert (Hreach : reachable (startup [(1, 50, 0, 5)] [(1, 100, 100)] 5)
                     (tick (tick (tick (tick (tick single)))))).
  { do 5 apply reachable_tick. apply reachable_start. }
  assert (Hst : Process.state
                  (procs (heap (tick (tick (tick (tick (tick single)))))) 0%nat)
                = TERMINATED) by (vm_compute; reflexivity).
  destruct (statistics_sound _ _ _ _ 0%nat Hreach Hst) as (f & Hf & _ & Hw & _).
  exists f. split; [exact Hf|exact Hw].
Defined.

Lemma move_ids_distinct positive k pending s pending' s' :
  Inv positive pending s -> move k pending s pending' s' ->
  ids_distinct s -> ids_distinct s'.
Proof.
  intros HI Hm Hd p q.
  destruct (move_identity positive k pending s pending' s' HI Hm)
    as [[Hid _] (_ & _ & -> & _)].
  pose proof (Hid p) as Hp. pose proof (Hid q) as Hq.
  unfold process_identity in Hp, Hq.
  injection Hp as -> _ _ _. injection Hq as -> _ _ _. apply Hd.
Qed.

(** The processes the counting loop skips because of their id: none,
    when the ids differ. *)
Lemma waiting_distinct positive s q :
  Inv positive [] s -> members_loaded [] s -> ids_distinct s ->
  q ∈ ready_queue s \/ q ∈ suspended_queue s ->
  Process.first_execution_time (procs (heap s) q) = None ->
  waiting s q.
Proof.
  intros HI HM Hd Hq Hf. split; [done|]. split; [done|].
  intros c Hc Hid.
  assert (c = q) as ->.
  { apply Hd; [| |done].
    - apply HM. right. unfold active. tauto.
    - apply HM. right. unfold active. tauto. }
  destruct (consistent_disjoint _ _ _ _ _ _ _ HI) as (_ & _ & _ & Hcur & _).
  destruct (Hcur q Hc) as (? & ? & _). tauto.
Qed.

(** The moves that leave the waiting times, the first execution times
    and the clock alone. *)
Lemma wait_counted_frame (d : Z) pending pending' s s' :
  times_kept (heap s) (heap s') ->
  clock s' = clock s ->
  (forall q, q ∈ pending' \/ q ∈ all_processes s' -> q ∈ pending \/ q ∈ all_processes s) ->
  (forall q, q ∈ pending' -> q ∈ pending \/ arrival s q = clock s) ->
  (forall q, q ∈ ready_queue s' \/ q ∈ suspended_queue s' ->
     q ∈ ready_queue s \/ q ∈ suspended_queue s \/ (q ∈ pending /\ d = 0)
     \/ Process.first_execution_time (procs (heap s) q) <> None) ->
  wait_counted d pending s -> wait_counted d pending' s'.
Proof.
  intros Hsame Hclk Hall Hpend Hq (H1 & H2 & H3 & H4).
  unfold wait_counted, arrival in *. rewrite Hclk.
  split; [|split; [|split]].
  - intros q Hx. destruct (Hsame q) as (-> & -> & _). by apply H1, Hall.
  - intros q Hx. destruct (Hsame q) as (_ & _ & ->).
    destruct (Hpend q Hx) as [Hy|Hy]; [by apply H2|done].
  - intros q Hx. destruct (Hsame q) as (-> & -> & ->). intros Hf.
    destruct (Hq q Hx) as [Hy|[Hy|[[Hy ->]|Hy]]];
      [by apply H3; [left|]|by apply H3; [right|]| |done].
    destruct (H1 q (or_introl Hy)) as [-> _]. rewrite (H2 q Hy). lia.
  - intros q f. destruct (Hsame q) as (-> & -> & ->). apply H4.
Qed.

Lemma same_state_only h h' :
  (forall q, exists st pt, procs h' q
     = Process.set_state st (Process.set_partition pt (procs h q))) ->
  times_kept h h'.
Proof. intros Hq q. destruct (Hq q) as (st & pt & ->). done. Qed.

Lemma set_state_only st o :
  exists st' pt, Process.set_state st o = Process.set_state st' (Process.set_partition pt o).
Proof. exists st, (Process.partition o). by destruct o. Qed.

Lemma unchanged_only o :
  exists st pt, o = Process.set_state st (Process.set_partition pt o).
Proof. exists (Process.state o), (Process.partition o). by destruct o. Qed.

Lemma placed_only k p h q :
  exists st pt, procs (placed k p h) q
    = Process.set_state st (Process.set_partition pt (procs h q)).
Proof.
  rewrite placed_procs. case_decide; [subst|apply unchanged_only].
  by exists READY, (Some k).
Qed.

Lemma move_wait_counted_before positive k pending s pending' s' :
  k <> Wait -> k <> Exec -> k <> Clock ->
  Inv positive pending s -> move k pending s pending' s' ->
  wait_counted 0 pending s -> wait_counted 0 pending' s'.
Proof.
  intros Hk1 Hk2 Hk3 HI Hm.
  move_cases Hm; try done; intros HW.
  - apply (wait_counted_frame 0 [] (arriving s) s); [| | | | |exact HW]; sim_simpl.
    + apply same_state_only.
      intros q. rewrite mark_new_procs. case_decide;
        [apply set_state_only|apply unchanged_only].
    + done.
    + unfold arriving, to_come. intros q. rewrite !list_elem_of_filter. tauto.
    + unfold arriving, arrival. intros q. rewrite list_elem_of_filter. tauto.
    + tauto.
  - apply (wait_counted_frame 0 (p :: pending) pending s); [| | | | |exact HW]; sim_simpl.
    + apply same_state_only.
      intros q. read_heap. case_decide; [subst; apply set_state_only|apply unchanged_only].
    + done.
    + intros q. rewrite elem_of_cons. tauto.
    + intros q. rewrite elem_of_cons. tauto.
    + intros q. rewrite elem_of_app, list_elem_of_singleton, elem_of_cons. tauto.
  - apply (wait_counted_frame 0 (p :: pending) pending s); [| | | | |exact HW]; sim_simpl.
    + apply same_state_only. intros q. apply placed_only.
    + done.
    + intros q. rewrite elem_of_cons. tauto.
    + intros q. rewrite elem_of_cons. tauto.
    + intros q. rewrite elem_of_app, list_elem_of_singleton, elem_of_cons. tauto.
  - apply (wait_counted_frame 0 [] [] s); [| | | | |exact HW]; sim_simpl.
    + apply same_state_only. intros q. apply placed_only.
    + done.
    + tauto.
    + tauto.
    + intros q. rewrite elem_of_app, list_elem_of_singleton.
      intros [[?| ->]|Hx]; try tauto. apply elem_of_py_remove in Hx. tauto.
  - apply (wait_counted_frame 0 [] [] s); [| | | | |exact HW]; sim_simpl.
    + apply same_state_only.
      intros q. read_heap. case_decide; [subst; apply set_state_only|apply unchanged_only].
    + done.
    + tauto.
    + tauto.
    + intros q. rewrite elem_of_app, list_elem_of_singleton.
      intros [[?| ->]|Hx]; try tauto. right. right. right.
      destruct HI as [_ _ _ _ Hcu _ _ _]. by destruct (Hcu c Hc) as (_ & _ & ?).
  - destruct HW as (H1 & H2 & H3 & H4).
    apply select_next_process_spec in Hn as [Hin _].
    unfold wait_counted, arrival in *. sim_simpl.
    split; [|split; [|split]].
    + intros q Hq. read_heap. case_decide; [subst q|by apply H1].
      destruct Hq as [Hq|Hq]; [by apply elem_of_nil in Hq|].
      exfalso. destruct HI as [Hpl _ _ _ _ _ _ _]. contra Hpl.
    + intros q Hq. by apply elem_of_nil in Hq.
    + intros q Hq. read_heap. case_decide; [subst q|].
      * destruct (Process.first_execution_time (procs (heap s) n)) eqn:Hf;
          obj_simpl; rewrite ?Hf; done.
      * apply H3. destruct Hq as [Hq|Hq]; [|tauto]. left. by eapply elem_of_py_remove.
    + intros q f. read_heap. case_decide; [subst q|apply H4].
      destruct (Process.first_execution_time (procs (heap s) n)) as [f'|] eqn:Hf;
        obj_simpl; rewrite ?Hf.
      * intros [= <-]. by apply H4.
      * intros [= <-]. rewrite (H3 n); [lia|tauto|done].
Qed.

Lemma move_wait_counted_wait positive s s' :
  Inv positive [] s -> members_loaded [] s -> ids_distinct s ->
  move Wait [] s [] s' ->
  wait_counted 0 [] s -> wait_counted 1 [] s'.
Proof.
  intros HI HM Hd Hm (H1 & H2 & H3 & H4).
  inversion Hm; subst.
  pose proof (update_wait_times_closed positive s HI) as Hcl.
  rewrite update_wait_times_queues.
  unfold wait_counted, arrival. sim_simpl.
  assert (Hw : forall q, waiting s q ->
            procs (heap (_update_wait_times s)) q = tick_waited (procs (heap s) q)).
  { intros q Hq. rewrite Hcl. apply (waiting_counted _ s q HI) in Hq. by rewrite Hq. }
  assert (Hnw : forall q, ~ waiting s q ->
            procs (heap (_update_wait_times s)) q = procs (heap s) q).
  { intros q Hq. rewrite Hcl.
    destruct (bool_decide _ && counted _ _) eqn:Hc; [|done].
    by apply (waiting_counted _ s q HI) in Hc. }
  split; [|split; [|split]].
  - intros q Hq. rewrite Hnw; [by apply H1|].
    intros ([Hx|Hx] & _); destruct Hq as [Hq|Hq]; try (by apply elem_of_nil in Hq);
      destruct HI as [Hpl _ _ _ _ _ _ _]; contra Hpl.
  - intros q Hq. by apply elem_of_nil in Hq.
  - intros q Hq.
    destruct (Process.first_execution_time (procs (heap s) q)) as [f|] eqn:Hf.
    + rewrite Hnw; [by rewrite Hf|]. intros (_ & Hx & _). congruence.
    + rewrite Hw by by apply (waiting_distinct positive).
      unfold tick_waited. obj_simpl. intros _. rewrite (H3 q Hq Hf).
      unfold arrival. lia.
  - intros q f.
    destruct (Process.first_execution_time (procs (heap s) q)) as [f'|] eqn:Hf.
    + rewrite Hnw; [rewrite Hf; intros [= <-]; by apply H4|].
      intros (_ & Hx & _). congruence.
    + rewrite Hcl. destruct (bool_decide _ && counted _ _);
        unfold tick_waited; obj_simpl; by rewrite Hf.
Qed.

Lemma move_wait_counted_exec positive s s' :
  Inv positive [] s -> move Exec [] s [] s' ->
  wait_counted 1 [] s -> wait_counted 1 [] s'.
Proof.
  intros HI Hm HW.
  inversion Hm as [| | | | | | | |x Hc|c x Hc Hrem|c x Hc Hrem|]; subst.
  - apply (wait_counted_frame 1 [] [] s); [| | | | |exact HW]; sim_simpl; try done; tauto.
  - apply (wait_counted_frame 1 [] [] s); [| | | | |exact HW]; sim_simpl; try done;
      try tauto.
    intros q. unfold ran. read_heap. by case_decide; subst.
  - destruct (Inv_current_partition positive _ s c HI Hc) as (k & Hck & Hkc).
    destruct HW as (H1 & H2 & H3 & H4).
    pose proof HI as HI'. unfold Inv in HI'. rewrite Hc in HI'.
    destruct HI' as [Hpl _ _ _ Hcu _ _ _]. destruct (Hcu c eq_refl) as (_ & _ & Hfet).
    unfold wait_counted, arrival in *. sim_simpl.
    assert (Hfin : forall q, q <> c ->
              procs (finished (clock s) c (heap s)) q = procs (heap s) q).
    { intros q Hq. rewrite (finished_procs _ c k _ q Hck Hkc). by rewrite decide_False. }
    assert (Hc' : procs (finished (clock s) c (heap s)) c
                  = finished_process (clock s) (procs (heap s) c)).
    { rewrite (finished_procs _ c k _ c Hck Hkc). by rewrite decide_True. }
    split; [|split; [|split]].
    + intros q Hq. rewrite Hfin; [by apply H1|]. intros ->.
      destruct Hq as [Hq|Hq]; [by apply elem_of_nil in Hq|]. contra Hpl.
    + intros q Hq. by apply elem_of_nil in Hq.
    + intros q Hq. rewrite Hfin; [by apply H3|]. intros ->.
      destruct Hq as [Hq|Hq]; contra Hpl.
    + intros q f. destruct (decide (q = c)) as [->|Hne]; [|rewrite Hfin by done; apply H4].
      rewrite Hc'. unfold finished_process. rewrite calculate_statistics_eq. obj_simpl.
      destruct (Process.first_execution_time (procs (heap s) c)) as [f'|]; [|done].
      by intros [= <-].
Qed.

Lemma move_wait_counted_clock s s' :
  move Clock [] s [] s' -> wait_counted 1 [] s -> wait_counted 0 [] s'.
Proof.
  inversion 1; subst. intros (H1 & H2 & H3 & H4).
  unfold wait_counted, arrival in *. sim_simpl.
  split; [done|]. split; [intros q Hq; by apply elem_of_nil in Hq|]. split; [|done].
  intros q Hq Hf. rewrite (H3 q Hq Hf). lia.
Qed.

Lemma wait_account_reachable positive s0 s :
  Inv positive [] s0 -> wait_account 0 [] s0 -> reachable s0 s -> wait_account 0 [] s.
Proof.
  intros HI H0 Hreach.
  apply (kept_by_reachable positive (wait_account 0 []) (wait_account 0)
           (wait_account 1 []) (wait_account 1 [])) with (s0 := s0); try done.
  - intros x x' HIx (HW & HM & Hd) Hm.
    split; [by eapply (move_wait_counted_before positive Flags)|].
    split; [by eapply move_members_loaded|by eapply move_ids_distinct].
  - intros x pending x' HIx (HW & HM & Hd) Hm.
    split; [by eapply (move_wait_counted_before positive Take)|].
    split; [by eapply move_members_loaded|by eapply move_ids_distinct].
  - intros pending x pending' x' HIx (HW & HM & Hd) Hm.
    split; [by eapply (move_wait_counted_before positive Quiet)|].
    split; [by eapply move_members_loaded|by eapply move_ids_distinct].
  - intros x x' HIx (HW & HM & Hd) Hm.
    split; [by eapply move_wait_counted_wait|].
    split; [by eapply move_members_loaded|by eapply move_ids_distinct].
  - intros x x' HIx (HW & HM & Hd) Hm.
    split; [by eapply move_wait_counted_exec|].
    split; [by eapply move_members_loaded|by eapply move_ids_distinct].
  - intros x x' HIx (HW & HM & Hd) Hm.
    split; [by eapply move_wait_counted_clock|].
    split; [by eapply move_members_loaded|by eapply move_ids_distinct].
Qed.

Lemma ids_distinct_startup rows config degree :
  NoDup (row_ids rows) -> ids_distinct (startup rows config degree).
Proof.
  intros Hnd p q.
  destruct (startup_loaded rows config degree) as (-> & _).
  rewrite !elem_of_seq, !startup_process. intros Hp Hq Hid.
  apply NoDup_ListNoDup in Hnd.
  assert (Hnth : forall i, nth i (row_ids rows) 0 = (nth i rows (0, 0, 0, 1)).1.1.1).
  { intros i. apply (map_nth (fun r : process_row => r.1.1.1) rows (0, 0, 0, 1) i). }
  apply (proj1 (List.NoDup_nth (row_ids rows) 0) Hnd);
    [unfold row_ids; rewrite length_map; lia|unfold row_ids; rewrite length_map; lia|].
  rewrite !Hnth.
  destruct (nth p rows (0, 0, 0, 1)) as [[[? ?] ?] ?].
  destruct (nth q rows (0, 0, 0, 1)) as [[[? ?] ?] ?]. exact Hid.
Qed.

Lemma wait_counted_startup rows config degree :
  wait_counted 0 [] (startup rows config degree).
Proof.
  destruct (startup_loaded rows config degree) as (_ & _ & Hr & Hs & _).
  unfold wait_counted. rewrite Hr, Hs.
  split; [|split; [|split]].
  - intros q _. rewrite startup_process. by destruct (nth q rows (0, 0, 0, 1)) as [[[? ?] ?] ?].
  - intros q Hq. by apply elem_of_nil in Hq.
  - intros q [Hq|Hq]; by apply elem_of_nil in Hq.
  - intros q f. rewrite startup_process. by destruct (nth q rows (0, 0, 0, 1)) as [[[? ?] ?] ?].
Qed.

(** The waiting time counted tick by tick is the time spent since the
    arrival: when the processes of the file bear different ids, at every
    tick boundary a ready or suspended process that has never executed
    has waited [clock - arrival_time], and a process that has executed
    has waited [first_execution_time - arrival_time], which is also what
    [calculate_statistics] writes when it terminates. *)
Theorem wait_time_counted (rows : list process_row) (config : list partition_row)
    (degree : Z) (s : Simulator.t) (q : ProcRef) :
  NoDup (row_ids rows) ->
  reachable (startup rows config degree) s ->
  (q ∈ ready_queue s \/ q ∈ suspended_queue s ->
   Process.first_execution_time (procs (heap s) q) = None ->
   Process.wait_time (procs (heap s) q)
   = clock s - Process.arrival_time (procs (heap s) q))
  /\ (forall f, Process.first_execution_time (procs (heap s) q) = Some f ->
        Process.wait_time (procs (heap s) q)
        = f - Process.arrival_time (procs (heap s) q)).
Proof.
  intros Hnd Hreach.
  assert (H0 : wait_account 0 [] (startup rows config degree)).
  { split; [apply wait_counted_startup|].
    split; [apply members_loaded_startup|by apply ids_distinct_startup]. }
  pose proof (wait_account_reachable (positive_bursts rows) _ s
                (Inv_startup rows config degree) H0 Hreach) as ((_ & _ & H3 & H4) & _).
  unfold arrival in *. split.
  - intros Hq Hf. rewrite (H3 q Hq Hf). lia.
  - apply H4.
Qed.

Lemma wait_time_counted_witness :
  Process.wait_time (procs (heap (tick degree_one)) 1%nat)
  = clock (tick degree_one) - Process.arrival_time (procs (heap (tick degree_one)) 1%nat).
Proof.
  assert (Hnd : NoDup (row_ids [(1, 50, 0, 10); (2, 50, 0, 3)])).
  { apply (bool_decide_unpack _). vm_compute. exact I. }
  destruct (wait_time_counted
              [(1, 50, 0, 10); (2, 50, 0, 3)] [(1, 100, 100); (2, 100, 200)] 1
              (tick degree_one) 1%nat Hnd (reachable_tick _ _ (reachable_start _)))
    as (H & _).
  apply H; [right; vm_compute; constructor|vm_compute; reflexivity].
Defined.

(** ** The end of a complete run *)

Lemma show_statistics_recomputed h processes :
  recomputed h (py_sorted (fun p => Process.id (procs h p)) processes)
    (show_statistics h processes).1.
Proof.
  unfold show_statistics.
  assert (Hrec0 : recomputed h [] h).
  { split; [done|]. intros q. rewrite decide_False; [done|].
    intros [Hq _]. by apply elem_of_nil in Hq. }
  destruct (statistics_fold h (py_sorted (fun p => Process.id (procs h p)) processes)
              [] h [] Hrec0) as (Hrec & _ & _).
  by rewrite app_nil_l in Hrec.
Qed.

Lemma empty_list {A : Type} (l : list A) : (forall x, x ∉ l) -> l = [].
Proof. destruct l as [|x l]; [done|]. intros H. destruct (H x). by left. Qed.

(** A run that ends without the warning is complete: every process of
    the file has terminated and has its line in the report; nothing is
    left waiting, ready, suspended or executing, and the whole memory is
    free again. *)
Theorem run_complete (rows : list process_row) (config : list partition_row)
    (degree : Z) (fuel : nat) (out : outcome) :
  run fuel (startup rows config degree) = Some out ->
  warning out = false ->
  (forall p, (p < length rows)%nat ->
     Process.state (procs (heap (final out)) p) = TERMINATED
     /\ p ∈ terminated_queue (final out)
     /\ row_of (procs (heap (final out)) p) ∈ report out)
  /\ all_processes (final out) = []
  /\ ready_queue (final out) = []
  /\ suspended_queue (final out) = []
  /\ Scheduler.current_process (scheduler (final out)) = None
  /\ (forall k, Partition.process (parts (heap (final out)) k) = None).
Proof.
  intros Hrun Hw.
  destruct (run_inv _ _ _ Hrun) as (s' & Hloop & Hfin & Hrep).
  destruct (run_loop_sound _ _ _ _ _ Hloop) as (Hreach & Hdone & _).
  rewrite Hw in Hdone. specialize (Hdone eq_refl).
  set (positive := positive_bursts rows).
  pose proof (Inv_startup rows config degree) as HI0. fold positive in HI0.
  assert (HI : Inv positive [] s') by by eapply Inv_reachable.
  pose proof (members_loaded_running positive _ s' HI0
                (members_loaded_startup rows config degree)
                (reachable_running _ _ Hreach)) as HM.
  pose proof (residents_only_running positive _ s' HI0
                (residents_only_startup rows config degree)
                (reachable_running _ _ Hreach)) as Hres.
  destruct (identity_running positive _ s' HI0 (reachable_running _ _ Hreach))
    as [_ (_ & _ & Hl & _)].
  destruct (startup_loaded rows config degree) as (Hl0 & Hall0 & _).
  rewrite Hl0 in Hl. rewrite Hall0 in Hdone.
  assert (Hterm : forall p, p ∈ loaded_processes s' -> p ∈ terminated_queue s').
  { intros p Hp. apply (terminated_all_loaded positive s' p); try done.
    - rewrite Hl. apply NoDup_seq.
    - by rewrite Hl. }
  pose proof (show_statistics_recomputed (heap s') (loaded_processes s')) as Hrec.
  pose proof HI as [Hpl _ _ _ _ Hte Hli _].
  rewrite Hfin. sim_simpl. rewrite Hrep.
  split; [|split; [|split; [|split; [|split]]]].
  - intros p Hp.
    assert (Hpl' : p ∈ loaded_processes s') by (rewrite Hl; apply elem_of_seq; lia).
    pose proof (Hterm p Hpl') as Hpt. destruct (Hte p Hpt) as [Hst _].
    assert (Hst' : Process.state (procs (show_statistics (heap s') (loaded_processes s')).1 p)
                   = TERMINATED).
    { by rewrite (recomputed_state _ _ _ p Hrec). }
    split; [done|]. split; [done|].
    by apply show_statistics_terminated.
  - apply empty_list. intros x Hx.
    assert (Hxt : x ∈ terminated_queue s') by (apply Hterm, HM; tauto).
    contra Hpl.
  - apply empty_list. intros x Hx.
    assert (Hxt : x ∈ terminated_queue s') by (apply Hterm, HM; unfold active; tauto).
    contra Hpl.
  - apply empty_list. intros x Hx.
    assert (Hxt : x ∈ terminated_queue s') by (apply Hterm, HM; unfold active; tauto).
    contra Hpl.
  - destruct (Scheduler.current_process (scheduler s')) as [c|] eqn:Hc; [|done].
    assert (Hxt : c ∈ terminated_queue s') by (apply Hterm, HM; unfold active; tauto).
    destruct (consistent_disjoint _ _ _ _ _ _ _ HI) as (_ & _ & _ & Hcur & _).
    destruct (Hcur c Hc) as (_ & _ & ?). done.
  - intros k. destruct Hrec as [-> _].
    destruct (Partition.process (parts (heap s') k)) as [p|] eqn:Hk; [|done].
    apply Hli in Hk.
    assert (Hp : p ∈ ready_queue s' \/ Scheduler.current_process (scheduler s') = Some p).
    { apply Hres. by rewrite Hk. }
    assert (Hxt : p ∈ terminated_queue s') by (apply Hterm, HM; unfold active; tauto).
    destruct (Hte p Hxt) as [_ Hnone]. congruence.
Qed.

Lemma run_complete_witness :
  exists out, run 1000 single = Some out
    /\ ready_queue (final out) = []
    /\ forall k, Partition.process (parts (heap (final out)) k) = None.
Proof.
  assert (Hw : option_map warning (run 1000 single) = Some false)
    by (vm_compute; reflexivity).
  destruct (run 1000 single) as [out|] eqn:Hrun; [|discriminate].
  injection Hw as Hw. exists out. split; [reflexivity|].
  destruct (run_complete [(1, 50, 0, 5)] [(1, 100, 100)] 5 1000 out Hrun Hw)
    as (_ & _ & Hr & _ & _ & Hk).
  split; [exact Hr|exact Hk].
Defined.

(** ** The scheduling step *)

Lemma preempt_phase_remaining s q :
  Scheduler.remaining (heap (preempt_phase s)) q = Scheduler.remaining (heap s) q.
Proof.
  destruct (preempt_phase_procs s q) as [st Hq].
  unfold Scheduler.remaining. by rewrite Hq.
Qed.

(** After the scheduling step the processor runs a process with the
    least remaining time among the resident ones, and it is idle only
    when no process is ready.  This holds from any state. *)
Theorem schedule_process_shortest (s : Simulator.t) :
  match Scheduler.current_process (scheduler (_schedule_process s)) with
  | Some c =>
      forall q, q ∈ ready_queue (_schedule_process s) ->
        Scheduler.remaining (heap (_schedule_process s)) c
        <= Scheduler.remaining (heap (_schedule_process s)) q
  | None => ready_queue (_schedule_process s) = []
  end.
Proof.
  rewrite schedule_process_phases.
  assert (H1 : match Scheduler.current_process (scheduler (preempt_phase s)) with
               | Some c => forall q, q ∈ ready_queue (preempt_phase s) ->
                   Scheduler.remaining (heap (preempt_phase s)) c
                   <= Scheduler.remaining (heap (preempt_phase s)) q
               | None => True
               end).
  { destruct (Scheduler.should_preempt (scheduler s) (heap s) (ready_queue s)) eqn:Hpre.
    - pose proof Hpre as Hpre'. apply should_preempt_iff in Hpre' as (c & Hc & _).
      by rewrite (preempt_phase_due s c Hc Hpre).
    - rewrite preempt_phase_not_due by done.
      destruct (Scheduler.current_process (scheduler s)) as [c|] eqn:Hc; [|done].
      intros q Hq.
      destruct (Z.le_gt_cases (Scheduler.remaining (heap s) c)
                  (Scheduler.remaining (heap s) q)) as [|Hlt]; [done|].
      assert (Scheduler.should_preempt (scheduler s) (heap s) (ready_queue s) = true).
      { apply should_preempt_iff. exists c. split; [done|]. exists q. split; [done|lia]. }
      congruence. }
  revert H1. generalize (preempt_phase s). clear s. intros s H1.
  destruct (Scheduler.current_process (scheduler s)) as [c|] eqn:Hc.
  { unfold dispatch_phase. by rewrite Hc, Hc. }
  destruct (Scheduler.select_next_process (heap s) (ready_queue s)) as [n|] eqn:Hn.
  - rewrite (dispatch_phase_idle s n Hc Hn). sim_simpl.
    apply select_next_process_spec in Hn as [Hin Hmin].
    intros q Hq. apply elem_of_py_remove in Hq.
    assert (Hrem : forall x, Scheduler.remaining (started (clock s) n (heap s)) x
                             = Scheduler.remaining (heap s) x).
    { intros x. unfold Scheduler.remaining. rewrite started_procs.
      case_decide; [subst|done].
      by destruct (Process.first_execution_time (procs (heap s) n)). }
    rewrite !Hrem. by apply Hmin.
  - unfold dispatch_phase. rewrite Hc, Hn, Hc. by apply select_next_process_None in Hn.
Qed.

Lemma min_from_first {A : Type} (key : A -> Z) l : forall best pre mid,
  (forall q, q ∈ pre -> key best < key q) ->
  (forall q, q ∈ mid -> key best <= key q) ->
  exists l1 l2,
    pre ++ best :: mid ++ l = l1 ++ Scheduler.min_from key best l :: l2
    /\ (forall q, q ∈ l1 -> key (Scheduler.min_from key best l) < key q)
    /\ (forall q, q ∈ l2 -> key (Scheduler.min_from key best l) <= key q).
Proof.
  induction l as [|y l IH]; intros best pre mid Hpre Hmid; cbn [Scheduler.min_from].
  - exists pre, mid. by rewrite app_nil_r.
  - destruct (Z.ltb_spec (key y) (key best)) as [Hlt|Hge].
    + destruct (IH y (pre ++ best :: mid) []) as (l1 & l2 & Heq & H1 & H2).
      * intros q Hq. apply elem_of_app in Hq as [Hq|Hq]; [specialize (Hpre q Hq); lia|].
        apply elem_of_cons in Hq as [->|Hq]; [done|]. specialize (Hmid q Hq). lia.
      * intros q Hq. by apply elem_of_nil in Hq.
      * exists l1, l2. split; [|done]. rewrite <- Heq. cbn [app].
        by rewrite <- app_assoc.
    + destruct (IH best pre (mid ++ [y])) as (l1 & l2 & Heq & H1 & H2); [done| |].
      * intros q Hq. apply elem_of_app in Hq as [Hq|Hq]; [by apply Hmid|].
        apply list_elem_of_singleton in Hq as ->. done.
      * exists l1, l2. split; [|done]. rewrite <- Heq. by rewrite <- app_assoc.
Qed.

(** Ties are broken by the order of the ready queue: the process
    selected is the first one with the least remaining time. *)
Theorem select_next_process_first (h : Heap) (ready_queue : list ProcRef) :
  match Scheduler.select_next_process h ready_queue with
  | None => ready_queue = []
  | Some n =>
      exists l1 l2, ready_queue = l1 ++ n :: l2
        /\ (forall q, q ∈ l1 -> Scheduler.remaining h n < Scheduler.remaining h q)
        /\ (forall q, q ∈ l2 -> Scheduler.remaining h n <= Scheduler.remaining h q)
  end.
Proof.
  destruct ready_queue as [|x l]; [done|]. cbn [Scheduler.select_next_process].
  destruct (min_from_first (Scheduler.remaining h) l x [] []) as (l1 & l2 & Heq & H1 & H2).
  - intros q Hq. by apply elem_of_nil in Hq.
  - intros q Hq. by apply elem_of_nil in Hq.
  - exists l1, l2. done.
Qed.

(** A partition tells a free slot from an occupied one, and assigning
    then freeing is a round trip: [assign_process] refuses (changing
    nothing) an occupied partition or one smaller than the process;
    otherwise it links the two objects and records the space left, and
    [free] then returns that process and undoes the links, the
    fragmentation going back to 0; [free] on a free partition returns
    nothing and changes nothing. *)
Theorem assign_free_round_trip (h : Heap) (k : PartRef) (p : ProcRef) :
  (is_free h k = false \/ Partition.size (parts h k) < Process.size (procs h p) ->
   assign_process k p h = (h, false))
  /\ (is_free h k = true -> free k h = (h, None))
  /\ (is_free h k = true -> Process.size (procs h p) <= Partition.size (parts h k) ->
      let h1 := (assign_process k p h).1 in
      let h2 := (free k h1).1 in
      (assign_process k p h).2 = true
      /\ Partition.process (parts h1 k) = Some p
      /\ Process.partition (procs h1 p) = Some k
      /\ Partition.internal_fragmentation (parts h1 k)
         = Partition.size (parts h k) - Process.size (procs h p)
      /\ (free k h1).2 = Some p
      /\ is_free h2 k = true
      /\ parts h2 k = Partition.set_internal_fragmentation 0 (parts h k)
      /\ procs h2 p = Process.set_partition None (procs h p)
      /\ (forall j, j <> k -> parts h2 j = parts h j)
      /\ (forall q, q <> p -> procs h2 q = procs h q)).
Proof.
  split; [|split].
  - intros [Hocc|Hsmall]; unfold assign_process.
    + by rewrite Hocc.
    + destruct (is_free h k); [|done]. cbn [negb].
      apply Z.ltb_lt in Hsmall. by rewrite Hsmall.
  - intros Hfree. apply is_free_true in Hfree. unfold free. by rewrite Hfree.
  - intros Hfree Hfit. cbv zeta. unfold assign_process. rewrite Hfree. cbn [negb].
    apply Z.ltb_ge in Hfit. rewrite Hfit. cbn [fst snd].
    apply is_free_true in Hfree.
    unfold free, is_free. heap_simpl. obj_simpl. heap_simpl.
    repeat split; try done.
    + destruct (parts h k). cbn in *. by subst.
    + intros j Hj. by heap_simpl.
    + intros q Hq. by heap_simpl.
Qed.

Lemma assign_free_round_trip_witness :
  (assign_process 0%nat 0%nat two_slots).2 = true
  /\ (free 0%nat (assign_process 0%nat 0%nat two_slots).1).2 = Some 0%nat.
Proof.
  assert (Hfree : is_free two_slots 0%nat = true) by (vm_compute; reflexivity).
  assert (Hfit : Process.size (procs two_slots 0%nat) <= Partition.size (parts two_slots 0%nat))
    by (vm_compute; discriminate).
  destruct (proj2 (proj2 (assign_free_round_trip two_slots 0%nat 0%nat)) Hfree Hfit)
    as (H1 & _ & _ & _ & H2 & _).
  split; [exact H1|exact H2].
Defined.

Lemma map_nth_seq {A : Type} (l : list A) (d : A) :
  map (fun k => nth k l d) (seq 0 (length l)) = l.
Proof.
  induction l as [|x l IH]; [done|].
  cbn [length seq map nth]. f_equal.
  rewrite <- seq_shift, map_map. exact IH.
Qed.

(** The memory status is sound: in every state the engine goes through,
    [get_memory_status] gives one entry for each configured partition, in
    order, with its id, size and start address; an entry is marked free
    exactly when it names no process, and then its fragmentation is 0;
    otherwise it names a ready or executing process, whose size plus the
    fragmentation is the size of the partition. *)
Theorem memory_status_sound (rows : list process_row) (config : list partition_row)
    (degree : Z) (s : Simulator.t) :
  running (startup rows config degree) s ->
  map (fun e => (MemoryStatus.id e, MemoryStatus.size e, MemoryStatus.start_address e))
      (get_memory_status (partitions s) (heap s)) = config
  /\ Forall (fun e =>
       match MemoryStatus.process_id e with
       | None => MemoryStatus.free e = true /\ MemoryStatus.internal_fragmentation e = 0
       | Some i =>
           MemoryStatus.free e = false
           /\ 0 <= MemoryStatus.internal_fragmentation e
           /\ exists p,
                (p ∈ ready_queue s \/ Scheduler.current_process (scheduler s) = Some p)
                /\ Process.id (procs (heap s) p) = i
                /\ Process.size (procs (heap s) p) + MemoryStatus.internal_fragmentation e
                   = MemoryStatus.size e
       end) (get_memory_status (partitions s) (heap s)).
Proof.
  intros Hrun.
  set (positive := positive_bursts rows).
  pose proof (Inv_startup rows config degree) as HI0. fold positive in HI0.
  pose proof (well_fitted_running positive _ s HI0
                (well_fitted_startup rows config degree) Hrun) as Hw.
  pose proof (residents_only_running positive _ s HI0
                (residents_only_startup rows config degree) Hrun) as Hr.
  assert (HI : Inv positive [] s) by by eapply Inv_running.
  destruct (identity_running positive _ s HI0 Hrun) as [[_ Hk] (Hps & _)].
  destruct (startup_loaded rows config degree) as (_ & _ & _ & _ & _ & _ & _ & Hps0 & _).
  rewrite Hps0 in Hps.
  split.
  - unfold get_memory_status. rewrite map_map. cbn [MemoryStatus.id MemoryStatus.size
      MemoryStatus.start_address]. rewrite Hps.
    rewrite <- (map_nth_seq config (0, 0, 0)) at 2.
    apply map_ext. intros k.
    change (partition_identity (parts (heap s) k) = nth k config (0, 0, 0)).
    by rewrite Hk, startup_partition, new_partition_identity.
  - unfold get_memory_status. apply Forall_map, Forall_forall. intros k _.
    cbn [MemoryStatus.process_id MemoryStatus.free MemoryStatus.internal_fragmentation
         MemoryStatus.size].
    specialize (Hw k). unfold is_free.
    destruct (Partition.process (parts (heap s) k)) as [p|] eqn:Hkp; [|done].
    destruct Hw as (_ & Hsz & Hfrag). split; [done|]. split; [lia|].
    exists p. split; [|split; [done|lia]].
    apply Hr. destruct HI as [_ _ _ _ _ _ Hli _]. apply Hli in Hkp. by rewrite Hkp.
Qed.

Lemma memory_status_sound_witness :
  map (fun e => (MemoryStatus.id e, MemoryStatus.size e, MemoryStatus.start_address e))
    (get_memory_status (partitions (tick short_arrival)) (heap (tick short_arrival)))
  = [(1, 100, 100); (2, 100, 200)].
Proof.
  exact (proj1 (memory_status_sound
                  [(1, 50, 0, 10); (2, 50, 1, 3)] [(1, 100, 100); (2, 100, 200)] 5
                  (tick short_arrival)
                  (reachable_running _ _ (reachable_tick _ _ (reachable_start _))))).
Defined.

(** The memory table shows the memory status: after the line of the
    operating system, [show_memory_table] has the line of each entry of
    [get_memory_status], a free partition reading "Libre" and "---". *)
Theorem memory_table_shows_status (partitions : list PartRef) (os_size : Z) (h : Heap) :
  show_memory_table partitions os_size h
  = [Text "SO"; Kilo os_size; Text "SO"; Text "---"]
    :: map status_line (get_memory_status partitions h).
Proof.
  unfold show_memory_table, get_memory_status. f_equal. rewrite map_map.
  apply map_ext. intros k. unfold status_line, is_free.
  cbn [MemoryStatus.id MemoryStatus.size MemoryStatus.process_id MemoryStatus.free
       MemoryStatus.internal_fragmentation].
  by destruct (Partition.process (parts h k)).
Qed.

Import Display.

Section ShowQueues.

Variable h : Heap.
Variables ready_queue suspended_queue : list Z.
Variable executing_id : option Z.
Variable clock : Z.

(** A step shows nothing, or the id of the process, which was not seen
    before. *)
Lemma queues_step_shown seen q p :
  let r := queues_step h ready_queue suspended_queue executing_id clock (seen, q) p in
  (r = (seen, q) /\ Process.id (procs h p) ∈ seen)
  \/ ((Process.id (procs h p) ∉ seen)
      /\ r.1 = {[Process.id (procs h p)]} ∪ seen
      /\ (shown r.2 = shown q \/ (shown r.2 ≡ₚ Process.id (procs h p) :: shown q))).
Proof.
  cbv zeta. unfold queues_step.
  destruct (bool_decide_reflect (Process.id (procs h p) ∈ seen)) as [Hin|Hnin];
    [by left|right].
  split; [done|].
  repeat match goal with
         | |- context [if ?b then _ else _] => destruct b
         end; cbn [fst snd]; (split; [done|]); try (by left); right;
    unfold shown; cbn [executing ready suspended new terminated].
  all: solve_Permutation.
Qed.

Lemma queues_fold_shown l : forall seen q,
  NoDup (shown q) -> (forall i, i ∈ shown q -> i ∈ seen) ->
  let r := fold_left (queues_step h ready_queue suspended_queue executing_id clock)
             l (seen, q) in
  NoDup (shown r.2)
  /\ (forall i, i ∈ shown r.2 ->
        i ∈ shown q \/ exists p, p ∈ l /\ Process.id (procs h p) = i).
Proof.
  induction l as [|p l IH]; intros seen q Hnd Hseen; cbv zeta.
  { split; [done|]. intros i Hi. by left. }
  cbn [fold_left].
  pose proof (queues_step_shown seen q p) as Hstep. cbv zeta in Hstep.
  destruct (queues_step h ready_queue suspended_queue executing_id clock (seen, q) p)
    as [seen1 q1].
  cbn [fst snd] in Hstep.
  assert (H1 : NoDup (shown q1) /\ (forall i, i ∈ shown q1 -> i ∈ seen1)
               /\ (forall i, i ∈ shown q1 -> i ∈ shown q \/ Process.id (procs h p) = i)).
  { destruct Hstep as [[[= -> ->] _]|(Hnin & -> & [->|Hperm])].
    - split; [done|]. split; [done|]. intros i Hi. by left.
    - split; [done|]. split; [|intros i Hi; by left].
      intros i Hi. apply elem_of_union. right. by apply Hseen.
    - split; [|split].
      + rewrite Hperm. apply NoDup_cons_2; [|done]. intros Hin. by apply Hnin, Hseen.
      + intros i. rewrite Hperm, elem_of_cons, elem_of_union, elem_of_singleton.
        intros [->|Hi]; [by left|right; by apply Hseen].
      + intros i. rewrite Hperm, elem_of_cons. intros [->|Hi]; [by right|by left]. }
  destruct H1 as (Hnd1 & Hseen1 & Hfrom1).
  destruct (IH seen1 q1 Hnd1 Hseen1) as (Hnd2 & Hfrom2).
  split; [done|]. intros i Hi.
  destruct (Hfrom2 i Hi) as [Hi'|(x & Hx & Hid)].
  - destruct (Hfrom1 i Hi') as [?|Hid]; [by left|].
    right. exists p. split; [by left|done].
  - right. exists x. split; [by right|done].
Qed.

(** What a step does with a process not seen yet. *)
Lemma queues_step_executing seen q p :
  Process.id (procs h p) ∉ seen ->
  Some (Process.id (procs h p)) = executing_id ->
  queues_step h ready_queue suspended_queue executing_id clock (seen, q) p
  = ({[Process.id (procs h p)]} ∪ seen, push Executing (Process.id (procs h p)) q).
Proof.
  intros Hnin Hex. unfold queues_step.
  rewrite bool_decide_eq_false_2 by done. by rewrite bool_decide_eq_true_2 by done.
Qed.

Lemma queues_step_ready seen q p :
  Process.id (procs h p) ∉ seen ->
  Some (Process.id (procs h p)) <> executing_id ->
  Process.state (procs h p) = READY ->
  Process.id (procs h p) ∈ ready_queue ->
  queues_step h ready_queue suspended_queue executing_id clock (seen, q) p
  = ({[Process.id (procs h p)]} ∪ seen, push Ready (Process.id (procs h p)) q).
Proof.
  intros Hnin Hex Hst Hin. unfold queues_step.
  rewrite bool_decide_eq_false_2 by done. rewrite bool_decide_eq_false_2 by done.
  rewrite Hst. cbn [state_value String.eqb Ascii.eqb Bool.eqb].
  rewrite (bool_decide_eq_true_2 (_ ∈ _)) by done. by rewrite orb_true_r.
Qed.

Lemma queues_step_suspended seen q p :
  Process.id (procs h p) ∉ seen ->
  Some (Process.id (procs h p)) <> executing_id ->
  Process.state (procs h p) = SUSPENDED ->
  Process.id (procs h p) ∈ suspended_queue ->
  queues_step h ready_queue suspended_queue executing_id clock (seen, q) p
  = ({[Process.id (procs h p)]} ∪ seen, push Suspended (Process.id (procs h p)) q).
Proof.
  intros Hnin Hex Hst Hin. unfold queues_step.
  rewrite bool_decide_eq_false_2 by done. rewrite bool_decide_eq_false_2 by done.
  rewrite Hst. cbn [state_value String.eqb Ascii.eqb Bool.eqb].
  rewrite (bool_decide_eq_true_2 (_ ∈ _)) by done. by rewrite orb_true_r.
Qed.

Lemma queues_step_terminated seen q p :
  Process.id (procs h p) ∉ seen ->
  Some (Process.id (procs h p)) <> executing_id ->
  Process.state (procs h p) = TERMINATED ->
  Process.remaining_time (procs h p) <= 0 ->
  queues_step h ready_queue suspended_queue executing_id clock (seen, q) p
  = ({[Process.id (procs h p)]} ∪ seen, push Terminated (Process.id (procs h p)) q).
Proof.
  intros Hnin Hex Hst Hrem. unfold queues_step.
  rewrite bool_decide_eq_false_2 by done. rewrite bool_decide_eq_false_2 by done.
  rewrite Hst. cbn [state_value String.eqb Ascii.eqb Bool.eqb].
  apply Z.leb_le in Hrem. by rewrite Hrem.
Qed.

(** A run of processes that all go to the same line of the table. *)
Lemma queues_fold_slot sl l : forall seen q,
  NoDup (queue_ids h l) ->
  (forall p, p ∈ l -> Process.id (procs h p) ∉ seen) ->
  (forall p, p ∈ l -> forall seen' q', Process.id (procs h p) ∉ seen' ->
     queues_step h ready_queue suspended_queue executing_id clock (seen', q') p
     = ({[Process.id (procs h p)]} ∪ seen', push sl (Process.id (procs h p)) q')) ->
  exists seen',
    fold_left (queues_step h ready_queue suspended_queue executing_id clock) l (seen, q)
    = (seen', pushes sl (queue_ids h l) q)
    /\ forall i, i ∈ seen' <-> i ∈ seen \/ i ∈ queue_ids h l.
Proof.
  induction l as [|p l IH]; intros seen q Hnd Hnew Hstep.
  { exists seen. split; [done|]. intros i. cbn. rewrite elem_of_nil. tauto. }
  cbn [fold_left queue_ids map] in *. apply NoDup_cons in Hnd as [Hp Hnd].
  rewrite (Hstep p) by (by left || (apply Hnew; by left)).
  destruct (IH ({[Process.id (procs h p)]} ∪ seen) (push sl (Process.id (procs h p)) q))
    as (seen' & -> & Hseen'); [done| | |].
  - intros x Hx. rewrite elem_of_union, elem_of_singleton.
    intros [Heq|Hin]; [|by apply (Hnew x); [right|]].
    apply Hp. unfold queue_ids in *. rewrite <- Heq. apply list_elem_of_fmap.
    by exists x.
  - intros x Hx. apply Hstep. by right.
  - exists seen'. split; [done|]. intros i.
    rewrite Hseen', elem_of_union, elem_of_singleton, elem_of_cons. tauto.
Qed.

End ShowQueues.

(** [show_process_queues] never shows a process twice: whatever the
    processes, the queues and the executing id it is given, and whether
    [tabulate] can be imported or not, no id appears in two of its five
    lists nor twice in one, and every id shown is the id of one of the
    processes. *)
Theorem show_process_queues_no_duplicates (tabulate : bool) (h : Heap)
    (processes : list ProcRef) (ready_queue suspended_queue : list Z)
    (executing_id : option Z) (clock : Z) :
  NoDup (printed (show_process_queues tabulate h processes ready_queue suspended_queue
                    executing_id clock))
  /\ (forall i, i ∈ printed (show_process_queues tabulate h processes ready_queue
                              suspended_queue executing_id clock) ->
        exists p, p ∈ processes /\ Process.id (procs h p) = i).
Proof.
  unfold show_process_queues. destruct tabulate; cbn [printed].
  2: { split; [apply NoDup_nil_2|]. intros i Hi. by apply elem_of_nil in Hi. }
  unfold queues_table.
  destruct (queues_fold_shown h ready_queue suspended_queue executing_id clock
              processes ∅ no_queues) as (Hnd & Hfrom).
  - apply NoDup_nil_2.
  - intros i Hi. by apply elem_of_nil in Hi.
  - split; [done|]. intros i Hi. destruct (Hfrom i Hi) as [Hx|?]; [|done].
    by apply elem_of_nil in Hx.
Qed.

(** ** The queues shown during a run *)

Lemma pushes_executing ids q :
  pushes Executing ids q
  = mk_queues (executing q ++ ids) (ready q) (suspended q) (new q) (terminated q).
Proof.
  revert q. induction ids as [|i ids IH]; intros q; cbn [pushes fold_left].
  - rewrite app_nil_r. by destruct q.
  - fold (pushes Executing ids (push Executing i q)). rewrite IH. cbn.
    by rewrite <- app_assoc.
Qed.

Lemma pushes_ready ids q :
  pushes Ready ids q
  = mk_queues (executing q) (ready q ++ ids) (suspended q) (new q) (terminated q).
Proof.
  revert q. induction ids as [|i ids IH]; intros q; cbn [pushes fold_left].
  - rewrite app_nil_r. by destruct q.
  - fold (pushes Ready ids (push Ready i q)). rewrite IH. cbn.
    by rewrite <- app_assoc.
Qed.

Lemma pushes_suspended ids q :
  pushes Suspended ids q
  = mk_queues (executing q) (ready q) (suspended q ++ ids) (new q) (terminated q).
Proof.
  revert q. induction ids as [|i ids IH]; intros q; cbn [pushes fold_left].
  - rewrite app_nil_r. by destruct q.
  - fold (pushes Suspended ids (push Suspended i q)). rewrite IH. cbn.
    by rewrite <- app_assoc.
Qed.

Lemma pushes_terminated ids q :
  pushes Terminated ids q
  = mk_queues (executing q) (ready q) (suspended q) (new q) (terminated q ++ ids).
Proof.
  revert q. induction ids as [|i ids IH]; intros q; cbn [pushes fold_left].
  - rewrite app_nil_r. by destruct q.
  - fold (pushes Terminated ids (push Terminated i q)). rewrite IH. cbn.
    by rewrite <- app_assoc.
Qed.

Lemma add_active_fold h l : forall acc,
  NoDup (queue_ids h l) ->
  (forall p, p ∈ l -> Process.id (procs h p) ∉ acc.2) ->
  exists seen',
    fold_left (add_active h) l acc = (acc.1 ++ l, seen')
    /\ forall i, i ∈ seen' <-> i ∈ acc.2 \/ i ∈ queue_ids h l.
Proof.
  induction l as [|p l IH]; intros [acc seen] Hnd Hnew; cbn [fst snd] in *.
  { exists seen. rewrite app_nil_r. split; [done|]. intros i. cbn. rewrite elem_of_nil. tauto. }
  cbn [fold_left queue_ids map] in *. apply NoDup_cons in Hnd as [Hp Hnd].
  unfold add_active at 2. cbn [fst snd].
  rewrite bool_decide_eq_false_2 by (apply Hnew; by left).
  destruct (IH (acc ++ [p], {[Process.id (procs h p)]} ∪ seen)) as (seen' & -> & Hseen');
    [done| |].
  - cbn [snd]. intros x Hx. rewrite elem_of_union, elem_of_singleton.
    intros [Heq|Hin]; [|by apply (Hnew x); [right|]].
    apply Hp. unfold queue_ids in *. rewrite <- Heq. apply list_elem_of_fmap.
    by exists x.
  - exists seen'. cbn [fst snd] in *. rewrite <- app_assoc. split; [done|]. intros i.
    rewrite Hseen', elem_of_union, elem_of_singleton, elem_of_cons. tauto.
Qed.

Lemma add_terminated_fold h l : forall acc,
  NoDup (queue_ids h l) ->
  (forall p, p ∈ l -> Process.id (procs h p) ∉ acc.2) ->
  (forall p, p ∈ l -> Process.state (procs h p) = TERMINATED) ->
  exists seen',
    fold_left (add_terminated h) l acc = (acc.1 ++ l, seen')
    /\ forall i, i ∈ seen' <-> i ∈ acc.2 \/ i ∈ queue_ids h l.
Proof.
  induction l as [|p l IH]; intros [acc seen] Hnd Hnew Hst; cbn [fst snd] in *.
  { exists seen. rewrite app_nil_r. split; [done|]. intros i. cbn. rewrite elem_of_nil. tauto. }
  cbn [fold_left queue_ids map] in *. apply NoDup_cons in Hnd as [Hp Hnd].
  unfold add_terminated at 2. cbn [fst snd].
  rewrite bool_decide_eq_false_2 by (apply Hnew; by left).
  rewrite bool_decide_eq_true_2 by (apply Hst; by left).
  destruct (IH (acc ++ [p], {[Process.id (procs h p)]} ∪ seen)) as (seen' & -> & Hseen');
    [done| | |].
  - cbn [snd]. intros x Hx. rewrite elem_of_union, elem_of_singleton.
    intros [Heq|Hin]; [|by apply (Hnew x); [right|]].
    apply Hp. unfold queue_ids in *. rewrite <- Heq. apply list_elem_of_fmap.
    by exists x.
  - intros x Hx. apply Hst. by right.
  - exists seen'. cbn [fst snd] in *. rewrite <- app_assoc. split; [done|]. intros i.
    rewrite Hseen', elem_of_union, elem_of_singleton, elem_of_cons. tauto.
Qed.

Lemma move_spent_when_terminated positive k pending s pending' s' :
  Inv positive pending s -> move k pending s pending' s' ->
  spent_when_terminated s -> spent_when_terminated s'.
Proof.
  intros HI Hm. unfold spent_when_terminated.
  pose proof (fun p => Inv_not_terminated positive pending s p HI) as Hnt. revert Hnt.
  move_cases Hm; sim_simpl; intros Hnt HS q.
  - apply HS.
  - rewrite mark_new_procs. case_decide; [done|apply HS].
  - read_heap. case_decide; [done|apply HS].
  - read_heap. case_decide; [done|apply HS].
  - read_heap. case_decide; [done|apply HS].
  - read_heap. case_decide; [done|apply HS].
  - read_heap. case_decide; [done|apply HS].
  - destruct (update_wait_times_frame s) as (Hq & _ & _). rewrite (Hq q). apply HS.
  - apply HS.
  - unfold ran. read_heap. case_decide; [subst q|apply HS].
    obj_simpl. intros Hst. exfalso. apply (Hnt c); [|done]. tauto.
  - destruct (Inv_current_partition positive _ s c HI Hc) as (k & Hck & Hkc).
    rewrite (finished_procs _ c k _ q Hck Hkc). case_decide; [|apply HS].
    unfold finished_process. rewrite calculate_statistics_eq. obj_simpl.
    unfold Scheduler.remaining in Hrem. intros _. lia.
  - apply HS.
Qed.

Lemma spent_when_terminated_running positive s0 s :
  Inv positive [] s0 -> spent_when_terminated s0 -> running s0 s ->
  spent_when_terminated s.
Proof.
  intros HI H0 Hrun.
  apply (kept_by_running positive (fun _ s => spent_when_terminated s) s0 s); try done.
  intros k pending s1 pending' s1' HI1 HM Hm. by eapply move_spent_when_terminated.
Qed.

Lemma ids_distinct_running positive s0 s :
  Inv positive [] s0 -> ids_distinct s0 -> running s0 s -> ids_distinct s.
Proof.
  intros HI H0 Hrun.
  apply (kept_by_running positive (fun _ s => ids_distinct s) s0 s); try done.
  intros k pending s1 pending' s1' HI1 HM Hm. by eapply move_ids_distinct.
Qed.

(** The processes held in the queues and on the processor bear
    different ids. *)
Lemma active_ids_distinct positive s :
  Inv positive [] s -> members_loaded [] s -> ids_distinct s ->
  NoDup (queue_ids (heap s)
           (executing_list s ++ ready_queue s ++ suspended_queue s ++ terminated_queue s)).
Proof.
  intros HI HM Hd. unfold queue_ids. apply NoDup_fmap_2_strong.
  - intros x y Hx Hy. apply Hd; apply HM; right; unfold active, executing_list in *;
      rewrite !elem_of_app in *.
    + destruct (Scheduler.current_process (scheduler s)) as [c|];
        [rewrite list_elem_of_singleton in Hx|rewrite elem_of_nil in Hx];
        destruct Hx as [Hx|Hx]; subst; tauto.
    + destruct (Scheduler.current_process (scheduler s)) as [c|];
        [rewrite list_elem_of_singleton in Hy|rewrite elem_of_nil in Hy];
        destruct Hy as [Hy|Hy]; subst; tauto.
  - destruct HI as [Hpl _ _ _ _ _ _ _]. apply occ_NoDup. intros p.
    specialize (Hpl p). unfold places, cur_occ, executing_list in *.
    rewrite !occ_app.
    destruct (Scheduler.current_process (scheduler s)) as [c|];
      rewrite ?occ_cons, ?occ_nil in *; lia.
Qed.

Lemma NoDup_ids_app h l1 l2 :
  NoDup (queue_ids h (l1 ++ l2)) ->
  NoDup (queue_ids h l1) /\ NoDup (queue_ids h l2)
  /\ (forall p i, p ∈ l2 -> i ∈ queue_ids h l1 -> Process.id (procs h p) <> i).
Proof.
  unfold queue_ids. rewrite map_app. intros (H1 & Hdis & H2)%list.NoDup_app.
  split; [done|]. split; [done|]. intros p i Hp Hi <-. apply (Hdis _ Hi).
  apply list_elem_of_fmap. by exists p.
Qed.

(** The four loops of [run] gather the processes in their order. *)
Lemma gather_active h l1 l2 l3 l4 :
  NoDup (queue_ids h (l1 ++ l2 ++ l3 ++ l4)) ->
  (forall p, p ∈ l4 -> Process.state (procs h p) = TERMINATED) ->
  (fold_left (add_terminated h) l4
     (fold_left (add_active h) l3
        (fold_left (add_active h) l2
           (fold_left (add_active h) l1 ([], ∅))))).1
  = l1 ++ l2 ++ l3 ++ l4.
Proof.
  intros Hnd Hst.
  apply NoDup_ids_app in Hnd as (Hn1 & Hnd & Hd1).
  pose proof Hnd as Hnd'.
  apply NoDup_ids_app in Hnd' as (Hn2 & Hnd' & Hd2).
  pose proof Hnd' as Hnd''.
  apply NoDup_ids_app in Hnd'' as (Hn3 & Hn4 & Hd3).
  destruct (add_active_fold h l1 ([], ∅) Hn1) as (seen1 & -> & Hs1).
  { intros p _. cbn. apply not_elem_of_empty. }
  cbn [fst snd app] in *.
  destruct (add_active_fold h l2 (l1, seen1) Hn2) as (seen2 & -> & Hs2).
  { intros p Hp. cbn [snd]. rewrite Hs1. intros [Hx|Hx]; [by apply not_elem_of_empty in Hx|].
    apply (Hd1 p _ ltac:(rewrite elem_of_app; tauto) Hx). done. }
  cbn [fst snd] in *.
  destruct (add_active_fold h l3 (l1 ++ l2, seen2) Hn3) as (seen3 & -> & Hs3).
  { intros p Hp. cbn [snd] in *. rewrite Hs2, Hs1.
    intros [[Hx|Hx]|Hx]; [by apply not_elem_of_empty in Hx| |].
    - apply (Hd1 p _ ltac:(rewrite !elem_of_app; tauto) Hx). done.
    - apply (Hd2 p _ ltac:(rewrite !elem_of_app; tauto) Hx). done. }
  cbn [fst snd] in *.
  destruct (add_terminated_fold h l4 ((l1 ++ l2) ++ l3, seen3) Hn4)
    as (seen4 & -> & Hs4); [|done|].
  { intros p Hp. cbn [snd] in *. rewrite Hs3, Hs2, Hs1.
    intros [[[Hx|Hx]|Hx]|Hx]; [by apply not_elem_of_empty in Hx| | |].
    - apply (Hd1 p _ ltac:(rewrite !elem_of_app; tauto) Hx). done.
    - apply (Hd2 p _ ltac:(rewrite !elem_of_app; tauto) Hx). done.
    - apply (Hd3 p _ Hp Hx). done. }
  cbn [fst]. by rewrite <- !app_assoc.
Qed.

(** The table shown for processes in the order: executing, ready,
    suspended, terminated. *)
Lemma shown_segments h rq sq eid clk l1 l2 l3 l4 :
  NoDup (queue_ids h (l1 ++ l2 ++ l3 ++ l4)) ->
  (forall p, p ∈ l1 -> Some (Process.id (procs h p)) = eid) ->
  (forall p, p ∈ l2 -> Some (Process.id (procs h p)) <> eid
     /\ Process.state (procs h p) = READY /\ Process.id (procs h p) ∈ rq) ->
  (forall p, p ∈ l3 -> Some (Process.id (procs h p)) <> eid
     /\ Process.state (procs h p) = SUSPENDED /\ Process.id (procs h p) ∈ sq) ->
  (forall p, p ∈ l4 -> Some (Process.id (procs h p)) <> eid
     /\ Process.state (procs h p) = TERMINATED
     /\ Process.remaining_time (procs h p) <= 0) ->
  queues_table h (l1 ++ l2 ++ l3 ++ l4) rq sq eid clk
  = mk_queues (queue_ids h l1) (queue_ids h l2) (queue_ids h l3) [] (queue_ids h l4).
Proof.
  intros Hnd H1 H2 H3 H4. unfold queues_table. rewrite !fold_left_app.
  apply NoDup_ids_app in Hnd as (Hn1 & Hnd & Hd1).
  pose proof Hnd as Hnd'.
  apply NoDup_ids_app in Hnd' as (Hn2 & Hnd' & Hd2).
  pose proof Hnd' as Hnd''.
  apply NoDup_ids_app in Hnd'' as (Hn3 & Hn4 & Hd3).
  destruct (queues_fold_slot h rq sq eid clk Executing l1 ∅ no_queues Hn1)
    as (seen1 & -> & Hs1).
  { intros p _. apply not_elem_of_empty. }
  { intros p Hp seen' q' Hnin. apply queues_step_executing; [done|by apply H1]. }
  destruct (queues_fold_slot h rq sq eid clk Ready l2 seen1
              (pushes Executing (queue_ids h l1) no_queues) Hn2) as (seen2 & -> & Hs2).
  { intros p Hp. rewrite Hs1. intros [Hx|Hx]; [by apply not_elem_of_empty in Hx|].
    apply (Hd1 p _ ltac:(rewrite elem_of_app; tauto) Hx). done. }
  { intros p Hp seen' q' Hnin. destruct (H2 p Hp) as (?&?&?).
    by apply queues_step_ready. }
  destruct (queues_fold_slot h rq sq eid clk Suspended l3 seen2
              (pushes Ready (queue_ids h l2)
                 (pushes Executing (queue_ids h l1) no_queues)) Hn3)
    as (seen3 & -> & Hs3).
  { intros p Hp. rewrite Hs2, Hs1.
    intros [[Hx|Hx]|Hx]; [by apply not_elem_of_empty in Hx| |].
    - apply (Hd1 p _ ltac:(rewrite !elem_of_app; tauto) Hx). done.
    - apply (Hd2 p _ ltac:(rewrite !elem_of_app; tauto) Hx). done. }
  { intros p Hp seen' q' Hnin. destruct (H3 p Hp) as (?&?&?).
    by apply queues_step_suspended. }
  destruct (queues_fold_slot h rq sq eid clk Terminated l4 seen3
              (pushes Suspended (queue_ids h l3)
                 (pushes Ready (queue_ids h l2)
                    (pushes Executing (queue_ids h l1) no_queues))) Hn4)
    as (seen4 & -> & Hs4).
  { intros p Hp. rewrite Hs3, Hs2, Hs1.
    intros [[[Hx|Hx]|Hx]|Hx]; [by apply not_elem_of_empty in Hx| | |].
    - apply (Hd1 p _ ltac:(rewrite !elem_of_app; tauto) Hx). done.
    - apply (Hd2 p _ ltac:(rewrite !elem_of_app; tauto) Hx). done.
    - apply (Hd3 p _ Hp Hx). done. }
  { intros p Hp seen' q' Hnin. destruct (H4 p Hp) as (?&?&?).
    by apply queues_step_terminated. }
  cbn [snd]. by rewrite pushes_terminated, pushes_suspended, pushes_ready, pushes_executing.
Qed.

(** The queues shown are the queues of the engine: when the processes of
    the file bear different ids, in every state the engine goes through
    the list [all_active_processes] is the executing process followed by
    the ready, the suspended and the terminated queues.  When [tabulate]
    can be imported, the table shown at an event has, in the order of the
    queues, the id of the executing process, of each ready process, of
    each suspended process and of each terminated process, and nothing
    under "Nuevo"; the table shown after the loop is the same without
    the executing process, which is not among the processes it is given.
    When [tabulate] cannot be imported, both displays are the fallback,
    which shows no process. *)
Theorem process_queues_shown (rows : list process_row) (config : list partition_row)
    (degree : Z) (s : Simulator.t) (tabulate : bool) :
  NoDup (row_ids rows) ->
  running (startup rows config degree) s ->
  all_active_processes s
  = executing_list s ++ ready_queue s ++ suspended_queue s ++ terminated_queue s
  /\ event_display tabulate s
     = (if tabulate
        then Some (mk_queues (queue_ids (heap s) (executing_list s))
                     (queue_ids (heap s) (ready_queue s))
                     (queue_ids (heap s) (suspended_queue s)) []
                     (queue_ids (heap s) (terminated_queue s)))
        else None)
  /\ final_display tabulate s
     = (if tabulate
        then Some (mk_queues [] (queue_ids (heap s) (ready_queue s))
                     (queue_ids (heap s) (suspended_queue s)) []
                     (queue_ids (heap s) (terminated_queue s)))
        else None).
Proof.
  intros Hids Hrun.
  set (positive := positive_bursts rows).
  pose proof (Inv_startup rows config degree) as HI0. fold positive in HI0.
  assert (HI : Inv positive [] s) by by eapply Inv_running.
  pose proof (members_loaded_running positive _ s HI0
                (members_loaded_startup rows config degree) Hrun) as HM.
  pose proof (ids_distinct_running positive _ s HI0
                (ids_distinct_startup rows config degree Hids) Hrun) as Hd.
  assert (HS : spent_when_terminated s).
  { apply (spent_when_terminated_running positive (startup rows config degree)); try done.
    intros p. rewrite startup_process. by destruct (nth p rows (0, 0, 0, 1)) as [[[? ?] ?] ?]. }
  pose proof (active_ids_distinct positive s HI HM Hd) as Hnd.
  pose proof HI as [_ _ Hrd Hsu _ Hte _ _].
  assert (Hex : forall p, p ∈ executing_list s -> Some (Process.id (procs (heap s) p))
                                                 = executing_id s).
  { intros p. unfold executing_list, executing_id.
    destruct (Scheduler.current_process (scheduler s)) as [c|]; [|by rewrite elem_of_nil].
    by rewrite list_elem_of_singleton; intros ->. }
  assert (Hother : forall p,
            p ∈ ready_queue s ++ suspended_queue s ++ terminated_queue s ->
            Some (Process.id (procs (heap s) p)) <> executing_id s).
  { intros p Hp. unfold executing_id.
    destruct (Scheduler.current_process (scheduler s)) as [c|] eqn:Hc; [|done].
    intros [= Hid].
    assert (p = c) as ->.
    { apply Hd; [| |done]; apply HM; right; unfold active;
        rewrite !elem_of_app in Hp; tauto. }
    destruct (consistent_disjoint _ _ _ _ _ _ _ HI) as (_ & _ & _ & Hcur & _).
    destruct (Hcur c Hc) as (? & ? & ?). rewrite !elem_of_app in Hp. tauto. }
  assert (H2 : forall p, p ∈ ready_queue s -> Some (Process.id (procs (heap s) p)) <> executing_id s
                /\ Process.state (procs (heap s) p) = READY
                /\ Process.id (procs (heap s) p) ∈ queue_ids (heap s) (ready_queue s)).
  { intros p Hp. split; [apply Hother; rewrite !elem_of_app; tauto|].
    split; [by apply Hrd|]. apply list_elem_of_fmap. by exists p. }
  assert (H3 : forall p, p ∈ suspended_queue s ->
                Some (Process.id (procs (heap s) p)) <> executing_id s
                /\ Process.state (procs (heap s) p) = SUSPENDED
                /\ Process.id (procs (heap s) p) ∈ queue_ids (heap s) (suspended_queue s)).
  { intros p Hp. split; [apply Hother; rewrite !elem_of_app; tauto|].
    split; [by apply Hsu|]. apply list_elem_of_fmap. by exists p. }
  assert (H4 : forall p, p ∈ terminated_queue s ->
                Some (Process.id (procs (heap s) p)) <> executing_id s
                /\ Process.state (procs (heap s) p) = TERMINATED
                /\ Process.remaining_time (procs (heap s) p) <= 0).
  { intros p Hp. split; [apply Hother; rewrite !elem_of_app; tauto|].
    destruct (Hte p Hp) as [Hst _]. split; [done|]. by apply HS. }
  assert (Hall : all_active_processes s
                 = executing_list s ++ ready_queue s ++ suspended_queue s
                   ++ terminated_queue s).
  { unfold all_active_processes.
    rewrite <- (gather_active (heap s) (executing_list s) (ready_queue s)
                  (suspended_queue s) (terminated_queue s) Hnd (fun p Hp => proj1 (Hte p Hp))).
    unfold executing_list. by destruct (Scheduler.current_process (scheduler s)). }
  split; [done|].
  unfold event_display, final_display, show_process_queues.
  destruct tabulate; [|done]. split; f_equal.
  - rewrite Hall. by apply shown_segments.
  - apply (shown_segments (heap s) _ _ _ _ [] (ready_queue s) (suspended_queue s)
             (terminated_queue s)); try done.
    + by apply NoDup_ids_app in Hnd as (_ & Hnd & _).
    + intros p Hp. by apply elem_of_nil in Hp.
Qed.

Lemma process_queues_shown_witness :
  final_display true (tick degree_one)
  = Some (Display.mk_queues []
            (queue_ids (heap (tick degree_one)) (ready_queue (tick degree_one)))
            (queue_ids (heap (tick degree_one)) (suspended_queue (tick degree_one))) []
            (queue_ids (heap (tick degree_one)) (terminated_queue (tick degree_one))))
  /\ final_display false (tick degree_one) = None.
Proof.
  assert (Hnd : NoDup (row_ids [(1, 50, 0, 10); (2, 50, 0, 3)])).
  { apply (bool_decide_unpack _). vm_compute. exact I. }
  split.
  - exact (proj2 (proj2 (process_queues_shown
                    [(1, 50, 0, 10); (2, 50, 0, 3)] [(1, 100, 100); (2, 100, 200)] 1
                    (tick degree_one) true Hnd
                    (reachable_running _ _ (reachable_tick _ _ (reachable_start _)))))).
  - exact (proj2 (proj2 (process_queues_shown
                    [(1, 50, 0, 10); (2, 50, 0, 3)] [(1, 100, 100); (2, 100, 200)] 1
                    (tick degree_one) false Hnd
                    (reachable_running _ _ (reachable_tick _ _ (reachable_start _)))))).
Defined.

(** ** Python's stable sort *)

Lemma filter_none {A : Type} (P : A -> Prop) `{forall x, Decision (P x)} (l : list A) :
  Forall (fun x => ~ P x) l -> filter P l = [].
Proof.
  induction 1 as [|x l Hx _ IH]; [done|].
  rewrite filter_cons. by rewrite decide_False.
Qed.

Section Sorting.

Context {A : Type} (key : A -> Z).

Lemma insert_by_perm x l : insert_by key x l ≡ₚ x :: l.
Proof.
  induction l as [|y l IH]; cbn [insert_by]; [done|].
  destruct (key x <? key y); [done|]. rewrite IH. apply perm_swap.
Qed.

Lemma py_sorted_fold_perm l : forall acc,
  fold_left (fun acc x => insert_by key x acc) l acc ≡ₚ acc ++ l.
Proof.
  induction l as [|x l IH]; intros acc; cbn [fold_left].
  - by rewrite app_nil_r.
  - rewrite IH, insert_by_perm. by rewrite <- Permutation_middle.
Qed.

Lemma py_sorted_perm l : py_sorted key l ≡ₚ l.
Proof. unfold py_sorted. by rewrite py_sorted_fold_perm. Qed.

Lemma insert_by_sorted x l :
  StronglySorted (by_key key) l -> StronglySorted (by_key key) (insert_by key x l).
Proof.
  induction 1 as [|y l Hs IH Hy]; cbn [insert_by].
  - repeat constructor.
  - destruct (Z.ltb_spec (key x) (key y)) as [Hlt|Hge].
    + constructor; [by constructor|]. constructor; [unfold by_key; lia|].
      eapply Forall_impl; [exact Hy|]. intros z Hz. unfold by_key in *. lia.
    + constructor; [done|].
      rewrite insert_by_perm. constructor; [done|done].
Qed.

Lemma py_sorted_fold_sorted l : forall acc,
  StronglySorted (by_key key) acc ->
  StronglySorted (by_key key) (fold_left (fun acc x => insert_by key x acc) l acc).
Proof.
  induction l as [|x l IH]; intros acc Hacc; cbn [fold_left]; [done|].
  by apply IH, insert_by_sorted.
Qed.

Lemma py_sorted_sorted l : StronglySorted (by_key key) (py_sorted key l).
Proof. apply py_sorted_fold_sorted. constructor. Qed.

(** The sort is stable: an element is inserted after those of the same
    key. *)
Lemma insert_by_stable (v : Z) x l :
  StronglySorted (by_key key) l ->
  filter (fun y => key y = v) (insert_by key x l)
  = filter (fun y => key y = v) l ++ filter (fun y => key y = v) [x].
Proof.
  induction 1 as [|y l Hs IH Hy]; cbn [insert_by]; [done|].
  destruct (Z.ltb_spec (key x) (key y)) as [Hlt|Hge].
  - rewrite (filter_cons _ x), (filter_cons _ x [] ), filter_nil.
    case_decide as Hx; [|by rewrite app_nil_r].
    assert (Hnone : filter (fun y0 => key y0 = v) (y :: l) = []).
    { apply filter_none. apply Forall_cons. split; [lia|].
      eapply Forall_impl; [exact Hy|]. intros z Hz. unfold by_key in Hz. lia. }
    by rewrite Hnone.
  - rewrite !(filter_cons _ y), IH. by case_decide.
Qed.

Lemma py_sorted_fold_stable (v : Z) l : forall acc,
  StronglySorted (by_key key) acc ->
  filter (fun y => key y = v) (fold_left (fun acc x => insert_by key x acc) l acc)
  = filter (fun y => key y = v) acc ++ filter (fun y => key y = v) l.
Proof.
  induction l as [|x l IH]; intros acc Hacc; cbn [fold_left].
  - by rewrite filter_nil, app_nil_r.
  - rewrite IH by by apply insert_by_sorted.
    rewrite insert_by_stable by done. rewrite <- app_assoc. f_equal.
    rewrite (filter_cons _ x l), (filter_cons _ x []), filter_nil.
    by case_decide.
Qed.

Lemma py_sorted_stable (v : Z) l :
  filter (fun y => key y = v) (py_sorted key l) = filter (fun y => key y = v) l.
Proof. unfold py_sorted. rewrite py_sorted_fold_stable by constructor. done. Qed.

End Sorting.

(** ** Reading the file of processes *)

Section ReadProcesses.

Variable py_int : string -> option Z.

Lemma process_of_short_row row :
  (length row =? 4)%nat = false -> FileReader.process_of_row py_int row = None.
Proof. intros Hn. by destruct row as [|? [|? [|? [|? [|? ?]]]]]. Qed.

(** While no exception is raised, the loop keeps the valid rows up to
    the limit. *)
Lemma read_rows_closed max_processes rows : forall processes,
  (length processes <= Z.to_nat max_processes)%nat ->
  FileReader.read_rows py_int max_processes (map Some rows) processes
  = Some (processes
          ++ take (Z.to_nat max_processes - length processes)
               (omap (FileReader.process_of_row py_int) rows)).
Proof.
  induction rows as [|row rows IH]; intros processes Hlen;
    cbn [map FileReader.read_rows omap list_omap].
  - destruct (Z.to_nat max_processes - length processes)%nat; by rewrite app_nil_r.
  - destruct (Z.ltb_spec (Z.of_nat (length processes)) max_processes) as [Hlt|Hge].
    + destruct (length row =? 4)%nat eqn:H4; cbn [andb].
      * destruct (FileReader.process_of_row py_int row) as [process|] eqn:Hp.
        -- assert (Hlen' : (length (processes ++ [process]) <= Z.to_nat max_processes)%nat).
           { rewrite length_app. cbn [length]. lia. }
           rewrite (IH _ Hlen').
           rewrite length_app. cbn [length].
           replace (Z.to_nat max_processes - length processes)%nat
             with (S (Z.to_nat max_processes - (length processes + 1)))%nat by lia.
           cbn [firstn]. by rewrite <- app_assoc.
        -- by apply IH.
      * rewrite (proj2 (Z.leb_gt _ _)) by lia.
        rewrite (process_of_short_row row H4). by apply IH.
    + rewrite andb_false_r. rewrite (proj2 (Z.leb_le _ _)) by lia.
      replace (Z.to_nat max_processes - length processes)%nat with 0%nat by lia.
      by rewrite take_0, app_nil_r.
Qed.

(** The rows read before the limit stops the loop are all consumed. *)
Lemma read_rows_through max_processes rest rows : forall processes,
  rows = []
  \/ (length processes + length (omap (FileReader.process_of_row py_int) (removelast rows))
      < Z.to_nat max_processes)%nat ->
  FileReader.read_rows py_int max_processes (map Some rows ++ rest) processes
  = FileReader.read_rows py_int max_processes rest
      (processes ++ omap (FileReader.process_of_row py_int) rows).
Proof.
  induction rows as [|row rows IH]; intros processes Hroom.
  { cbn [map app omap list_omap]. by rewrite app_nil_r. }
  destruct Hroom as [|Hroom]; [done|].
  assert (Hlt : Z.of_nat (length processes) < max_processes) by lia.
  assert (Hnext : forall processes' : list Process.t,
            length processes' = (length processes
              + length (omap (FileReader.process_of_row py_int) [row]))%nat ->
            rows = []
            \/ (length processes'
                + length (omap (FileReader.process_of_row py_int) (removelast rows))
                < Z.to_nat max_processes)%nat).
  { intros processes' Hlen. destruct rows as [|row' rows]; [by left|right].
    rewrite Hlen. change (removelast (row :: row' :: rows))
      with (row :: removelast (row' :: rows)) in Hroom.
    cbn [omap list_omap] in *.
    destruct (FileReader.process_of_row py_int row); cbn [length] in *; lia. }
  cbn [map app FileReader.read_rows omap list_omap].
  rewrite (proj2 (Z.ltb_lt _ _) Hlt), andb_true_r.
  destruct (length row =? 4)%nat eqn:H4.
  - destruct (FileReader.process_of_row py_int row) as [process|] eqn:Hp.
    + rewrite IH.
      * by rewrite <- app_assoc.
      * apply Hnext. cbn [omap list_omap]. rewrite Hp, length_app. done.
    + apply IH, Hnext. cbn [omap list_omap]. rewrite Hp. cbn [length]. lia.
  - rewrite (proj2 (Z.leb_gt _ _)) by lia.
    rewrite (process_of_short_row row H4).
    apply IH, Hnext. cbn [omap list_omap].
    rewrite (process_of_short_row row H4). cbn [length]. lia.
Qed.

(** Once the limit is reached and one more row is read, the rest is not. *)
Lemma read_rows_limit max_processes row rest rows : forall processes,
  (Z.to_nat max_processes
   <= length processes + length (omap (FileReader.process_of_row py_int) rows))%nat ->
  FileReader.read_rows py_int max_processes (map Some rows ++ Some row :: rest) processes
  = FileReader.read_rows py_int max_processes (map Some rows) processes.
Proof.
  induction rows as [|row' rows IH]; intros processes Hfull.
  { cbn [map app omap list_omap length FileReader.read_rows] in *.
    rewrite (proj2 (Z.ltb_ge _ _)) by lia. rewrite andb_false_r.
    by rewrite (proj2 (Z.leb_le _ _)) by lia. }
  cbn [map app FileReader.read_rows].
  destruct ((length row' =? 4)%nat && (Z.of_nat (length processes) <? max_processes))
    eqn:Htest.
  - apply andb_true_iff in Htest as [H4 Hlt].
    cbn [omap list_omap] in Hfull.
    destruct (FileReader.process_of_row py_int row') as [process|] eqn:Hp.
    + apply IH. rewrite length_app. cbn [length] in *. lia.
    + by apply IH.
  - destruct (max_processes <=? Z.of_nat (length processes)) eqn:Hmax; [done|].
    apply IH. apply andb_false_iff in Htest as [H4|Hlt].
    + cbn [omap list_omap] in Hfull.
      by rewrite (process_of_short_row row' H4) in Hfull.
    + apply Z.ltb_ge in Hlt. apply Z.leb_gt in Hmax. lia.
Qed.

End ReadProcesses.

(** What [read_processes] returns.  With no file, or when the first line
    cannot be read, it returns [None]; for an empty file, the empty
    list.  When the reader raises no exception, it keeps the first
    [max_processes] rows that have four integer fields, skipping the
    others; it returns [None] when there is none, and otherwise exactly
    those processes, at most [max_processes] of them, in increasing
    order of arrival time, the processes that arrive at the same time
    staying in the order of the file.  When the reader raises before the
    limit has stopped the loop, the result is [None], whatever was read
    before; and once the limit is reached and one more row is read, the
    rest of the file is not read at all. *)
Theorem read_processes_sorted (py_int : string -> option Z) (header : list string)
    (rows : list (list string)) (max_processes : Z) :
  (let valid := take (Z.to_nat max_processes)
                  (omap (FileReader.process_of_row py_int) rows) in
   match FileReader.read_processes py_int (Some (Some header :: map Some rows))
           max_processes with
   | None => valid = []
   | Some processes =>
       processes <> []
       /\ processes ≡ₚ valid
       /\ Z.of_nat (length processes) <= max_processes
       /\ StronglySorted (by_key Process.arrival_time) processes
       /\ forall v, filter (fun p => Process.arrival_time p = v) processes
                    = filter (fun p => Process.arrival_time p = v) valid
   end)
  /\ FileReader.read_processes py_int None max_processes = None
  /\ FileReader.read_processes py_int (Some []) max_processes = Some []
  /\ (forall rest,
        FileReader.read_processes py_int (Some (None :: rest)) max_processes = None)
  /\ (forall rest,
        rows = []
        \/ (length (omap (FileReader.process_of_row py_int) (removelast rows))
            < Z.to_nat max_processes)%nat ->
        FileReader.read_processes py_int
          (Some (Some header :: map Some rows ++ None :: rest)) max_processes = None)
  /\ (forall row rest,
        (Z.to_nat max_processes
         <= length (omap (FileReader.process_of_row py_int) rows))%nat ->
        FileReader.read_processes py_int
          (Some (Some header :: map Some rows ++ Some row :: rest)) max_processes
        = FileReader.read_processes py_int
            (Some (Some header :: map Some rows)) max_processes).
Proof.
  split; [|split; [done|split; [done|split; [done|split]]]].
  - cbv zeta. unfold FileReader.read_processes.
    rewrite read_rows_closed by (cbn [length]; lia).
    cbn [app length]. rewrite Nat.sub_0_r.
    set (valid := take _ _).
    destruct valid as [|p valid'] eqn:Hv; [done|]. rewrite <- Hv.
    assert (Hperm := py_sorted_perm Process.arrival_time valid).
    split; [|split; [done|split; [|split]]].
    + intros Hnil. rewrite Hnil in Hperm. symmetry in Hperm.
      apply Permutation_nil_r in Hperm. congruence.
    + rewrite Hperm. subst valid. rewrite length_take.
      assert (0 < length (take (Z.to_nat max_processes)
                            (omap (FileReader.process_of_row py_int) rows)))%nat
        by (rewrite Hv; cbn [length]; lia).
      rewrite length_take in H. lia.
    + apply py_sorted_sorted.
    + intros v. apply py_sorted_stable.
  - intros rest Hroom. unfold FileReader.read_processes.
    rewrite read_rows_through by (cbn [length]; tauto). done.
  - intros row rest Hfull. unfold FileReader.read_processes.
    by rewrite read_rows_limit by (cbn [length]; lia).
Qed.

(** A file whose last row cannot be decoded: the valid row before it is
    lost with it, unless the limit has stopped the loop before. *)
Example read_processes_decode_error :
  let py_int := fun f : string => if String.eqb f "1" then Some 1 else None in
  FileReader.read_processes py_int
    (Some [Some ["IDP"; "TAM"; "TA"; "TI"]; Some ["1"; "1"; "1"; "1"]; None]) 10 = None
  /\ FileReader.read_processes py_int
       (Some [Some ["IDP"; "TAM"; "TA"; "TI"]; Some ["1"; "1"; "1"; "1"];
              Some ["1"; "1"; "1"; "1"]; None]) 1
     = Some [Process.init 1 1 1 1].
Proof. split; reflexivity. Qed.

Lemma state_value_terminated st :
  String.eqb (state_value st) "Terminated" = bool_decide (st = TERMINATED).
Proof. by destruct st. Qed.

Lemma total_terminated_perm h f l l' :
  l ≡ₚ l' -> total_terminated h f l = total_terminated h f l'.
Proof.
  unfold total_terminated.
  induction 1 as [|x l l' _ IH|x y l|l l' l'' _ IH1 _ IH2]; cbn [foldr];
    [done|by rewrite IH|lia|congruence].
Qed.

Lemma total_terminated_app h f l l' :
  total_terminated h f (l ++ l') = total_terminated h f l + total_terminated h f l'.
Proof.
  unfold total_terminated. induction l as [|x l IH]; cbn [app foldr]; [done|].
  rewrite IH. lia.
Qed.

Lemma statistics_line_eq h' st x :
  Report.statistics_line (h', st) x =
  if bool_decide (Process.state (procs h' x) = TERMINATED) then
    let o := Process.calculate_statistics (procs h' x) in
    (upd_proc x Process.calculate_statistics h',
     Report.mk_statistics
       (Report.table_data st
        ++ [(Process.id o, Process.arrival_time o, Process.burst_time o,
             Some (Process.finish_time o), Some (Process.turnaround_time o),
             Process.wait_time o)])
       (Report.total_turnaround st + Process.turnaround_time o)
       (Report.total_wait st + Process.wait_time o)
       (Report.count_terminated st + 1))
  else
    (h', Report.mk_statistics
           (Report.table_data st ++ [line_of (procs h' x)])
           (Report.total_turnaround st) (Report.total_wait st)
           (Report.count_terminated st)).
Proof.
  unfold Report.statistics_line, line_of. rewrite state_value_terminated.
  destruct (bool_decide (Process.state (procs h' x) = TERMINATED)); [|done].
  cbv zeta. by heap_simpl.
Qed.

Lemma calculate_statistics_line o :
  Process.state o = TERMINATED ->
  (Process.id (Process.calculate_statistics o),
   Process.arrival_time (Process.calculate_statistics o),
   Process.burst_time (Process.calculate_statistics o),
   Some (Process.finish_time (Process.calculate_statistics o)),
   Some (Process.turnaround_time (Process.calculate_statistics o)),
   Process.wait_time (Process.calculate_statistics o)) = line_of o
  /\ Process.turnaround_time (Process.calculate_statistics o)
     = Process.finish_time o - Process.arrival_time o.
Proof.
  intros Hst. unfold line_of. rewrite bool_decide_eq_true_2 by done.
  by destruct o as [? ? ? ? ? ? ? ? ? ? [fet|]].
Qed.

Lemma statistics_line_fold h l : forall seen h' st,
  recomputed h seen h' ->
  let r := fold_left Report.statistics_line l (h', st) in
  recomputed h (seen ++ l) r.1
  /\ Report.table_data r.2
     = Report.table_data st ++ map (fun p => line_of (procs h p)) l
  /\ Report.total_turnaround r.2
     = Report.total_turnaround st
       + total_terminated h (fun o => Process.finish_time o - Process.arrival_time o) l
  /\ Report.total_wait r.2
     = Report.total_wait st
       + total_terminated h
           (fun o => Process.wait_time (Process.calculate_statistics o)) l
  /\ Report.count_terminated r.2
     = Report.count_terminated st + total_terminated h (fun _ => 1) l.
Proof.
  induction l as [|x l IH]; intros seen h' st Hrec; cbv zeta in *.
  { cbn [fold_left fst snd map total_terminated foldr].
    rewrite !app_nil_r, !Z.add_0_r. done. }
  cbn [fold_left]. rewrite statistics_line_eq.
  rewrite (recomputed_state h seen h' x Hrec).
  replace (seen ++ x :: l) with ((seen ++ [x]) ++ l) by by rewrite <- app_assoc.
  unfold total_terminated. cbn [map foldr]. fold (total_terminated h).
  destruct (decide (Process.state (procs h x) = TERMINATED)) as [Hx|Hx].
  - rewrite !bool_decide_eq_true_2 by done. cbv zeta.
    assert (Hcalc : Process.calculate_statistics (procs h' x)
                    = Process.calculate_statistics (procs h x)).
    { destruct Hrec as [_ Hq]. rewrite Hq.
      case_decide; [apply calculate_statistics_idem|done]. }
    assert (Hrec' : recomputed h (seen ++ [x])
                      (upd_proc x Process.calculate_statistics h')).
    { split; [by destruct Hrec|]. intros q.
      destruct (decide (q = x)) as [->|Hne].
      - heap_simpl. rewrite Hcalc, decide_True; [done|]. split; [|done].
        apply elem_of_app. right. by left.
      - heap_simpl. destruct Hrec as [_ Hq]. rewrite Hq.
        apply decide_ext. rewrite elem_of_app, list_elem_of_singleton. tauto. }
    rewrite Hcalc.
    destruct (calculate_statistics_line (procs h x) Hx) as [-> ->].
    match goal with
    | |- context [fold_left _ l (?hh, ?ss)] =>
        destruct (IH (seen ++ [x]) hh ss Hrec') as (Hr & Htab & Htt & Htw & Hn)
    end.
    split; [done|]. rewrite Htab, Htt, Htw, Hn.
    cbn [Report.table_data Report.total_turnaround Report.total_wait
         Report.count_terminated].
    rewrite <- app_assoc. cbn [app]. split; [done|unfold total_terminated; cbv beta; lia].
  - rewrite !bool_decide_eq_false_2 by done.
    assert (Hsame : procs h' x = procs h x).
    { destruct Hrec as [_ Hq]. rewrite Hq. rewrite decide_False; [done|tauto]. }
    assert (Hrec' : recomputed h (seen ++ [x]) h').
    { split; [by destruct Hrec|]. intros q. destruct Hrec as [_ Hq]. rewrite Hq.
      apply decide_ext. rewrite elem_of_app, list_elem_of_singleton.
      split; [tauto|]. intros [[?| ->] ?]; [tauto|done]. }
    rewrite Hsame.
    match goal with
    | |- context [fold_left _ l (?hh, ?ss)] =>
        destruct (IH (seen ++ [x]) hh ss Hrec') as (Hr & Htab & Htt & Htw & Hn)
    end.
    split; [done|]. rewrite Htab, Htt, Htw, Hn.
    cbn [Report.table_data Report.total_turnaround Report.total_wait
         Report.count_terminated].
    rewrite <- app_assoc. cbn [app]. split; [done|unfold total_terminated; cbv beta; lia].
Qed.

Lemma statistics_line_heap l : forall h' table st,
  (fold_left Report.statistics_line l (h', st)).1
  = (fold_left Simulator.statistics_step l (h', table)).1.
Proof.
  induction l as [|x l IH]; intros h' table st; cbn [fold_left]; [done|].
  rewrite statistics_line_eq, statistics_step_eq.
  destruct (bool_decide (Process.state (procs h' x) = TERMINATED)); apply IH.
Qed.

(** The report has one line for each process handed to it, in increasing
    order of id, whether it terminated or not: a Terminated process shows
    its finish time, its turnaround (finish minus arrival) and its wait
    (first execution minus arrival, or turnaround minus burst had it
    never executed); any other shows "N/A" twice and the wait counted so
    far.  Only the Terminated processes enter the count
    and the totals the averages are taken from.  With no process at all
    nothing is tabulated. *)
Theorem show_statistics_lines (h : Heap) (processes : list ProcRef) :
  match Report.show_statistics h processes with
  | None => processes = []
  | Some (h', st) =>
      h' = (Simulator.show_statistics h processes).1
      /\ Report.table_data st
         = map (fun p => line_of (procs h p))
             (py_sorted (fun p => Process.id (procs h p)) processes)
      /\ StronglySorted Z.le (map line_id (Report.table_data st))
      /\ map line_id (Report.table_data st) ≡ₚ map (fun p => Process.id (procs h p)) processes
      /\ Report.count_terminated st = total_terminated h (fun _ => 1) processes
      /\ Report.total_turnaround st
         = total_terminated h
             (fun o => Process.finish_time o - Process.arrival_time o) processes
      /\ Report.total_wait st
         = total_terminated h
             (fun o => Process.wait_time (Process.calculate_statistics o)) processes
  end.
Proof.
  unfold Report.show_statistics. cbv zeta.
  destruct (py_sorted (fun p => Process.id (procs h p)) processes)
    as [|p0 rest] eqn:Hall.
  { pose proof (py_sorted_perm (fun p => Process.id (procs h p)) processes) as Hperm.
    rewrite Hall in Hperm. symmetry in Hperm. by apply Permutation_nil_r in Hperm. }
  rewrite <- Hall. clear Hall p0 rest.
  assert (Hperm := py_sorted_perm (fun p => Process.id (procs h p)) processes).
  assert (Hsorted := py_sorted_sorted (fun p => Process.id (procs h p)) processes).
  unfold Simulator.show_statistics.
  set (all_processes := py_sorted _ processes) in *.
  assert (Hrec0 : recomputed h [] h).
  { split; [done|]. intros q. rewrite decide_False; [done|].
    intros [Hq _]. by apply elem_of_nil in Hq. }
  destruct (statistics_line_fold h all_processes [] h
              (Report.mk_statistics [] 0 0 0) Hrec0) as (Hr & Htab & Htt & Htw & Hn).
  destruct (fold_left Report.statistics_line all_processes
              (h, Report.mk_statistics [] 0 0 0)) as [h' st] eqn:Hfold.
  cbn [fst snd Report.table_data Report.total_turnaround Report.total_wait
       Report.count_terminated app] in *.
  assert (Hids : map line_id (map (fun p => line_of (procs h p)) all_processes)
                 = map (fun p => Process.id (procs h p)) all_processes).
  { rewrite map_map. apply map_ext. intros p. unfold line_of, line_id.
    by destruct (bool_decide _). }
  rewrite Htab, Hids, Htt, Htw, Hn, !Z.add_0_l.
  rewrite !(total_terminated_perm h _ _ _ Hperm).
  split; [|split; [done|split; [|split; [by rewrite Hperm|done]]]].
  - by rewrite <- (statistics_line_heap all_processes h [] (Report.mk_statistics [] 0 0 0)),
      Hfold.
  - clear -Hsorted. induction Hsorted as [|x l _ IH Hx]; cbn [map]; constructor;
      [done|]. apply Forall_map. exact Hx.
Qed.

(** ** The scenarios, run *)

(** One process of burst 5 alone: it finishes at 5, having waited 0. *)
Example run_single :
  option_map (fun out => (warning out, report out, clock (final out)))
    (run 1000 single)
  = Some (false, [(1, 0, 5, 5, 5, 0)], 5).
Proof. vm_compute. reflexivity. Qed.

(** The short process that arrives at time 1 preempts the long one. *)
Example run_short_arrival :
  option_map (fun out => (warning out, report out, clock (final out)))
    (run 1000 short_arrival)
  = Some (false, [(1, 0, 10, 13, 13, 0); (2, 1, 3, 4, 3, 0)], 13).
Proof. vm_compute. reflexivity. Qed.

(** With a degree of 1 the second process waits, suspended, until the
    first has finished. *)
Example run_degree_one :
  option_map (fun out => (warning out, report out, clock (final out)))
    (run 1000 degree_one)
  = Some (false, [(1, 0, 10, 10, 10, 0); (2, 0, 3, 13, 13, 10)], 13).
Proof. vm_compute. reflexivity. Qed.

(** A process that fits nowhere keeps the run going to the limit; the
    report still has the line of the process that finished. *)
Example run_oversized :
  option_map (fun out => (warning out, report out, clock (final out),
                          suspended_queue (final out)))
    (run 1000 oversized)
  = Some (true, [(2, 0, 2, 2, 2, 0)], 1000, [0%nat]).
Proof. vm_compute. reflexivity. Qed.
